(** * to_do.py: a command-line to-do list, embedded and verified

    The program keeps a list of tasks in [tasks.json].  Every command loads
    the whole file, transforms the list in memory and, when it mutates,
    writes the whole list back.

    The file has three parts: the program as definitions (the library
    functions it calls first, then its own functions under their names),
    the vocabulary the statements are written in, and the properties.

    Modelling choices:
    - a task is the dict that [add] writes, with its six keys, as a record;
      the elements of the array in the file are such tasks;
    - Python [int] is [Z]; [str] is [string], read as UTF-8 bytes: [len] and
      [strip] go by code points, and the byte order of UTF-8 is the order of
      code points, which is how Python compares strings.  An argument of
      the command line may hold bytes that are no UTF-8; Python keeps them
      as lone surrogates, which cannot be written to the file;
    - the library is that of Python 3.11 (Unicode 14): the messages of
      [argparse], the digits that [strptime] reads, the forms that
      [date.fromisoformat] reads;
    - the file, the two output streams and the clock form the [World] that a
      command runs in; [sys.exit] ends the command with a code and keeps the
      world as it is at that point, and so does an exception that nothing
      catches, with code 1 and a traceback;
    - the file of a world is a text file: [json.load] parses it or raises
      [JSONDecodeError].  What [load_tasks] does when [json.load] raises
      something else (the file is no UTF-8 text, for one) is in
      [load_tasks_from]; such files are not among the worlds the commands
      are run in;
    - [save_tasks] fails when a string of a task cannot be encoded, and then
      leaves the file cut short;
    - the command line is taken as [argparse] reads it once every word is
      recognised: the sub-command, its arguments and the options met, in
      order; what [build_parser] asks beyond that (defaults, choices,
      exclusive groups) is modelled, the splitting of words is not. *)

From Stdlib Require Import ZArith List String Ascii Bool Lia.
From Stdlib Require Import Sorting.Sorted Sorting.Permutation.
From Stdlib Require Import DecimalString.
Import ListNotations.

Local Open Scope string_scope.
Local Open Scope Z_scope.

(** ** Python's ordering of values

    [list.sort] and tuple comparison only use [==] and [<] of the values
    compared.  On [int] and [str] these come from a three-way comparison,
    and a tuple compares as its first unequal component. *)

Class PyOrd (A : Type) := {
  cmp : A -> A -> comparison;
  cmp_eq : forall a b, cmp a b = Eq <-> a = b;
  cmp_antisym : forall a b, cmp b a = CompOpp (cmp a b);
  cmp_lt_trans : forall a b c, cmp a b = Lt -> cmp b c = Lt -> cmp a c = Lt
}.

Definition py_lt {A} `{PyOrd A} (a b : A) : bool :=
  match cmp a b with Lt => true | _ => false end.

Definition py_le {A} `{PyOrd A} (a b : A) : bool := negb (py_lt b a).

(** [int]. *)
#[export, refine] Instance PyOrd_Z : PyOrd Z := {| cmp := Z.compare |}.
Proof.
  - intros a b. apply Z.compare_eq_iff.
  - intros a b. apply Z.compare_antisym.
  - intros a b c. rewrite !Z.compare_lt_iff. lia.
Defined.

(** [str]: the first unequal character decides, a proper prefix is smaller;
    characters compare by code. *)
#[export, refine] Instance PyOrd_str : PyOrd string := {| cmp := String.compare |}.
Proof.
  - intros s t. split; [apply String.compare_eq_iff|].
    intros ->. induction t as [|c t IH]; simpl; [reflexivity|].
    unfold Ascii.compare. now rewrite N.compare_refl.
  - intros s t. apply String.compare_antisym.
  - intros s. induction s as [|a s IH]; intros [|b t] [|c u]; simpl;
      try discriminate; try reflexivity.
    unfold Ascii.compare.
    destruct (N.compare_spec (N_of_ascii a) (N_of_ascii b)) as [Eab|Eab|Eab];
      try discriminate;
      destruct (N.compare_spec (N_of_ascii b) (N_of_ascii c)) as [Ebc|Ebc|Ebc];
      try discriminate; intros Hst Htu.
    + rewrite Eab, Ebc, N.compare_refl. eauto.
    + rewrite Eab. now rewrite (proj2 (N.compare_lt_iff _ _) Ebc).
    + rewrite <- Ebc. now rewrite (proj2 (N.compare_lt_iff _ _) Eab).
    + now rewrite (proj2 (N.compare_lt_iff _ _) (N.lt_trans _ _ _ Eab Ebc)).
Defined.

(** Tuples: lexicographic. *)
Definition cmp_pair {A B} `{PyOrd A} `{PyOrd B} (p q : A * B) : comparison :=
  match cmp (fst p) (fst q) with
  | Eq => cmp (snd p) (snd q)
  | c => c
  end.

#[export, refine] Instance PyOrd_pair {A B} `{PyOrd A} `{PyOrd B} : PyOrd (A * B) :=
  {| cmp := cmp_pair |}.
Proof.
  - intros [a1 b1] [a2 b2]. unfold cmp_pair. simpl. split.
    + destruct (cmp a1 a2) eqn:Ea; try discriminate.
      intros Eb. apply cmp_eq in Ea, Eb. now subst.
    + intros [= -> ->]. now rewrite !(proj2 (cmp_eq _ _) eq_refl).
  - intros [a1 b1] [a2 b2]. unfold cmp_pair. simpl.
    rewrite (cmp_antisym a1 a2). destruct (cmp a1 a2); simpl; auto.
    apply cmp_antisym.
  - intros [a1 b1] [a2 b2] [a3 b3]. unfold cmp_pair. simpl.
    destruct (cmp a1 a2) eqn:E12; try discriminate;
      destruct (cmp a2 a3) eqn:E23; try discriminate; intros H12 H23.
    + apply cmp_eq in E12, E23. subst.
      rewrite (proj2 (cmp_eq _ _) eq_refl). eapply cmp_lt_trans; eassumption.
    + apply cmp_eq in E12. subst. now rewrite E23.
    + apply cmp_eq in E23. subst. now rewrite E12.
    + now rewrite (cmp_lt_trans _ _ _ E12 E23).
Defined.

(** ** [list.sort(key=...)]

    Python's sort is stable and compares keys with [<] only.  Its result is
    the one list that is a stable rearrangement of the input with ascending
    keys, so any stable sort computes it; insertion from the right is the
    shortest to write.  An element is put before the first element whose key
    is not smaller, hence before the equal-keyed elements that followed it. *)

Section Sort.
Context {A K : Type} `{PyOrd K} (key : A -> K).

Fixpoint insert_by (x : A) (l : list A) : list A :=
  match l with
  | [] => [x]
  | y :: l' => if py_lt (key y) (key x) then y :: insert_by x l' else x :: l
  end.

Definition sort_by (l : list A) : list A := fold_right insert_by [] l.

(** Ascending keys, and strictly ascending keys. *)
Definition key_le (x y : A) : Prop := py_le (key x) (key y) = true.
Definition key_lt (x y : A) : Prop := py_lt (key x) (key y) = true.

(** The elements of one key. *)
Definition has_key (k : K) (x : A) : bool :=
  match cmp (key x) k with Eq => true | _ => false end.

End Sort.

(** ** Strings

    [len], [str.ljust]/[str.rjust] (what the format [{:<w}] does) and
    [str.strip] count and test code points.  A code point of a UTF-8 string
    starts at every byte that is not a continuation byte [10xxxxxx]. *)

Definition byte_of (c : ascii) : Z := Z.of_N (N_of_ascii c).

Definition is_continuation (c : ascii) : bool :=
  (128 <=? byte_of c) && (byte_of c <? 192).

Fixpoint len (s : string) : nat :=
  match s with
  | EmptyString => 0%nat
  | String c s' => if is_continuation c then len s' else S (len s')
  end.

Fixpoint spaces (n : nat) : string :=
  match n with
  | O => ""
  | S n' => String " " (spaces n')
  end.

Definition ljust (w : nat) (s : string) : string := s ++ spaces (w - len s).
Definition rjust (w : nat) (s : string) : string := spaces (w - len s) ++ s.

(** [str(i)] for an [int]. *)
Definition str (i : Z) : string := NilZero.string_of_int (Z.to_int i).

(** The whitespace of [str.strip()]: U+0009..000D, U+001C..0020, U+0085,
    U+00A0, U+1680, U+2000..200A, U+2028, U+2029, U+202F, U+205F, U+3000.
    [ws_width] is the number of bytes of the whitespace code point that a
    byte sequence starts with, or 0. *)
Definition ascii_space (b : Z) : bool :=
  ((9 <=? b) && (b <=? 13)) || ((28 <=? b) && (b <=? 32)).

Definition wide_space (b : Z) : bool :=
  ((128 <=? b) && (b <=? 138)) || (b =? 168) || (b =? 169) || (b =? 175).

Definition one_if (b : bool) (n : nat) : nat := if b then n else 0%nat.

Definition ws_width (bs : list Z) : nat :=
  match bs with
  | 194 :: b :: _ => one_if ((b =? 133) || (b =? 160)) 2
  | 225 :: 154 :: 128 :: _ => 3%nat
  | 226 :: 128 :: b :: _ => one_if (wide_space b) 3
  | 226 :: 129 :: 159 :: _ => 3%nat
  | 227 :: 128 :: 128 :: _ => 3%nat
  | b :: _ => one_if (ascii_space b) 1
  | [] => 0%nat
  end.

(** The same, for a sequence read backwards from its end. *)
Definition ws_width_rev (bs : list Z) : nat :=
  match bs with
  | 133 :: 194 :: _ | 160 :: 194 :: _ => 2%nat
  | 128 :: 154 :: 225 :: _ => 3%nat
  | 159 :: 129 :: 226 :: _ => 3%nat
  | 128 :: 128 :: 227 :: _ => 3%nat
  | b :: 128 :: 226 :: _ =>
      if wide_space b then 3%nat else one_if (ascii_space b) 1
  | b :: _ => one_if (ascii_space b) 1
  | [] => 0%nat
  end.

Fixpoint drop_ws (width : list Z -> nat) (fuel : nat) (bs : list Z) : list Z :=
  match fuel with
  | O => bs
  | S fuel' =>
      match width bs with
      | O => bs
      | n => drop_ws width fuel' (skipn n bs)
      end
  end.

Definition bytes_of (s : string) : list Z := map byte_of (list_ascii_of_string s).
Definition of_bytes (bs : list Z) : string :=
  string_of_list_ascii (map (fun b => ascii_of_N (Z.to_N b)) bs).

Definition lstrip_bytes (bs : list Z) : list Z := drop_ws ws_width (List.length bs) bs.
Definition rstrip_bytes (bs : list Z) : list Z :=
  rev (drop_ws ws_width_rev (List.length bs) (rev bs)).

Definition strip (s : string) : string :=
  of_bytes (rstrip_bytes (lstrip_bytes (bytes_of s))).

(** ** UTF-8 and decimal digits

    A [str] that comes from the command line is the bytes of the argument
    read as UTF-8; a byte that is not part of a well-formed sequence is
    kept as a lone surrogate, which no UTF-8 file can hold.  A string of
    the model is these bytes, so it is text that can be written exactly
    when it is well-formed UTF-8: no overlong form, no encoded surrogate,
    nothing above U+10FFFF. *)

Definition continuation (b : Z) : bool := (128 <=? b) && (b <=? 191).

(** The second byte that may follow the first byte [b1] of a sequence of
    three bytes, and of four. *)
Definition second_of_three (b1 b2 : Z) : bool :=
  if b1 =? 224 then (160 <=? b2) && (b2 <=? 191)
  else if b1 =? 237 then (128 <=? b2) && (b2 <=? 159)
  else continuation b2.

Definition second_of_four (b1 b2 : Z) : bool :=
  if b1 =? 240 then (144 <=? b2) && (b2 <=? 191)
  else if b1 =? 244 then (128 <=? b2) && (b2 <=? 143)
  else continuation b2.

(** The code point that a string starts with and the string after it;
    [None] at the end of the string and at a byte that starts no
    well-formed sequence. *)
Definition code_point (s : string) : option (Z * string) :=
  match s with
  | EmptyString => None
  | String c1 s1 =>
      let b1 := byte_of c1 in
      if b1 <? 128 then Some (b1, s1)
      else
        match s1 with
        | EmptyString => None
        | String c2 s2 =>
            let b2 := byte_of c2 in
            if (194 <=? b1) && (b1 <=? 223) then
              if continuation b2 then Some ((b1 - 192) * 64 + (b2 - 128), s2)
              else None
            else
              match s2 with
              | EmptyString => None
              | String c3 s3 =>
                  let b3 := byte_of c3 in
                  if (224 <=? b1) && (b1 <=? 239) then
                    if second_of_three b1 b2 && continuation b3
                    then Some (((b1 - 224) * 64 + (b2 - 128)) * 64 + (b3 - 128), s3)
                    else None
                  else
                    match s3 with
                    | EmptyString => None
                    | String c4 s4 =>
                        let b4 := byte_of c4 in
                        if (240 <=? b1) && (b1 <=? 244) && second_of_four b1 b2
                           && continuation b3 && continuation b4
                        then Some ((((b1 - 240) * 64 + (b2 - 128)) * 64
                                    + (b3 - 128)) * 64 + (b4 - 128), s4)
                        else None
                    end
              end
        end
  end.

(** Well-formed UTF-8: what [str.encode("utf-8")] accepts, hence what
    [json.dump] can write to a file opened with [encoding="utf-8"]. *)
Fixpoint valid_utf8 (s : string) : bool :=
  match s with
  | EmptyString => true
  | String c1 s1 =>
      let b1 := byte_of c1 in
      if b1 <? 128 then valid_utf8 s1
      else
        match s1 with
        | EmptyString => false
        | String c2 s2 =>
            let b2 := byte_of c2 in
            if (194 <=? b1) && (b1 <=? 223) then continuation b2 && valid_utf8 s2
            else
              match s2 with
              | EmptyString => false
              | String c3 s3 =>
                  let b3 := byte_of c3 in
                  if (224 <=? b1) && (b1 <=? 239) then
                    second_of_three b1 b2 && continuation b3 && valid_utf8 s3
                  else
                    match s3 with
                    | EmptyString => false
                    | String c4 s4 =>
                        let b4 := byte_of c4 in
                        (240 <=? b1) && (b1 <=? 244) && second_of_four b1 b2
                        && continuation b3 && continuation b4 && valid_utf8 s4
                    end
              end
        end
  end.

(** The decimal digits of Unicode 14 (Python 3.11), category Nd: 66 runs of
    ten code points, each run the digits 0 to 9 in order, given by the
    code point of its zero.  These are the characters that the class [\d]
    of a [str] pattern matches and that [int] reads. *)
Definition decimal_zeros : list Z :=
  [ 48; 1632; 1776; 1984; 2406; 2534; 2662; 2790; 2918; 3046; 3174; 3302;
    3430; 3558; 3664; 3792; 3872; 4160; 4240; 6112; 6160; 6470; 6608; 6784;
    6800; 6992; 7088; 7232; 7248; 42528; 43216; 43264; 43472; 43504; 43600;
    44016; 65296; 66720; 68912; 69734; 69872; 69942; 70096; 70384; 70736;
    70864; 71248; 71360; 71472; 71904; 72016; 72784; 73040; 73120; 92768;
    92864; 93008; 120782; 120792; 120802; 120812; 120822; 123200; 123632;
    125264; 130032 ].

Definition decimal_value (cp : Z) : option Z :=
  match find (fun zero => (zero <=? cp) && (cp <=? zero + 9)) decimal_zeros with
  | Some zero => Some (cp - zero)
  | None => None
  end.

(** One decimal digit at the start of a string: its value and the string
    after it. *)
Definition decimal (s : string) : option (Z * string) :=
  match code_point s with
  | Some (cp, r) =>
      match decimal_value cp with
      | Some d => Some (d, r)
      | None => None
      end
  | None => None
  end.

(** ** Calendar dates ([datetime.date]) *)

Record date := mkdate { year : Z; month : Z; day : Z }.

Definition is_leap (y : Z) : bool :=
  (y mod 4 =? 0) && (negb (y mod 100 =? 0) || (y mod 400 =? 0)).

Definition days_in_month (y m : Z) : Z :=
  if m =? 2 then (if is_leap y then 29 else 28)
  else if (m =? 4) || (m =? 6) || (m =? 9) || (m =? 11) then 30
  else 31.

(** The constructor [date(y, m, d)] raises [ValueError] outside these bounds. *)
Definition valid_date (d : date) : bool :=
  (1 <=? year d) && (year d <=? 9999) &&
  (1 <=? month d) && (month d <=? 12) &&
  (1 <=? day d) && (day d <=? days_in_month (year d) (month d)).

Definition make_date (y m d : Z) : option date :=
  if valid_date (mkdate y m d) then Some (mkdate y m d) else None.

(** Dates compare as (year, month, day). *)
Definition ymd (d : date) : Z * Z * Z := (year d, month d, day d).
Definition date_lt (a b : date) : bool := py_lt (ymd a) (ymd b).

(** Decimal digits. *)
Definition digit (c : ascii) : option Z :=
  let n := byte_of c in
  if (48 <=? n) && (n <=? 57) then Some (n - 48) else None.

Definition digit_char (n : Z) : ascii := ascii_of_N (Z.to_N (48 + n)).

Definition pad2 (n : Z) : string :=
  String (digit_char (n / 10)) (String (digit_char (n mod 10)) "").

Definition pad4 (n : Z) : string := pad2 (n / 100) ++ pad2 (n mod 100).

(** [d.isoformat()], that is ["%04d-%02d-%02d"]. *)
Definition isoformat (d : date) : string :=
  pad4 (year d) ++ "-" ++ pad2 (month d) ++ "-" ++ pad2 (day d).

(** *** [datetime.strptime(s, "%Y-%m-%d")]

    [_strptime] turns the format into the regular expression
    [(\d\d\d\d)-(1[0-2]|0[1-9]|[1-9])-(3[0-1]|[1-2]\d|0[1-9]|[1-9]| [1-9])],
    matches it at the start of the string, rejects the string when text is
    left over, and builds the date (which rejects a day the month does not
    have and the year 0).  A group's alternatives are tried in order, the
    next one when the rest of the pattern fails.  The class [\d] matches
    any decimal digit of Unicode, and [int] reads such digits; a range such
    as [[1-9]] holds ASCII digits only.  So the year may be written with
    the digits of any script, and so may the second digit of a day from 10
    to 29. *)

Definition in_range (lo hi : Z) (c : ascii) : option Z :=
  match digit c with
  | Some d => if (lo <=? d) && (d <=? hi) then Some d else None
  | None => None
  end.

Fixpoint take_digits (n : nat) (acc : Z) (s : string) : option (Z * string) :=
  match n with
  | O => Some (acc, s)
  | S n' =>
      match s with
      | String c s' =>
          match digit c with
          | Some d => take_digits n' (10 * acc + d) s'
          | None => None
          end
      | EmptyString => None
      end
  end.

(** [n] times [\d], read as a number. *)
Fixpoint take_decimals (n : nat) (acc : Z) (s : string) : option (Z * string) :=
  match n with
  | O => Some (acc, s)
  | S n' =>
      match decimal s with
      | Some (d, s') => take_decimals n' (10 * acc + d) s'
      | None => None
      end
  end.

(** One alternative of a group, as the values it can match and the text
    after them: two digits in [lo1..hi1] and [lo2..hi2] (a fixed digit is a
    range of one), or one digit in [lo..hi]. *)
Definition two_chars (lo1 hi1 lo2 hi2 : Z) (s : string) : list (Z * string) :=
  match s with
  | String c1 (String c2 r) =>
      match in_range lo1 hi1 c1, in_range lo2 hi2 c2 with
      | Some a, Some b => [(10 * a + b, r)]
      | _, _ => []
      end
  | _ => []
  end.

Definition one_char (lo hi : Z) (s : string) : list (Z * string) :=
  match s with
  | String c r =>
      match in_range lo hi c with
      | Some a => [(a, r)]
      | None => []
      end
  | _ => []
  end.

(** An ASCII digit in [lo..hi], then [\d]. *)
Definition char_decimal (lo hi : Z) (s : string) : list (Z * string) :=
  match s with
  | String c1 r1 =>
      match in_range lo hi c1, decimal r1 with
      | Some a, Some (b, r) => [(10 * a + b, r)]
      | _, _ => []
      end
  | _ => []
  end.

Definition after_char (c : ascii) (s : string) : option string :=
  match s with
  | String c' r => if Ascii.eqb c c' then Some r else None
  | EmptyString => None
  end.

(** [1[0-2]|0[1-9]|[1-9]] *)
Definition month_alts (s : string) : list (Z * string) :=
  (two_chars 1 1 0 2 s ++ two_chars 0 0 1 9 s ++ one_char 1 9 s)%list.

(** [3[0-1]|[1-2]\d|0[1-9]|[1-9]| [1-9]] *)
Definition day_alts (s : string) : list (Z * string) :=
  (two_chars 3 3 0 1 s ++ char_decimal 1 2 s ++ two_chars 0 0 1 9 s
   ++ one_char 1 9 s
   ++ match after_char " " s with Some r => one_char 1 9 r | None => [] end)%list.

Fixpoint first_some {A B} (f : A -> option B) (l : list A) : option B :=
  match l with
  | [] => None
  | x :: l' => match f x with Some y => Some y | None => first_some f l' end
  end.

(** The match of the whole expression: the fields and the text left over. *)
Definition match_ymd (s : string) : option (Z * Z * Z * string) :=
  match take_decimals 4 0 s with
  | Some (y, r0) =>
      match after_char "-" r0 with
      | Some r1 =>
          first_some
            (fun mr : Z * string =>
               match after_char "-" (snd mr) with
               | Some r2 =>
                   match day_alts r2 with
                   | (d, r3) :: _ => Some (y, fst mr, d, r3)
                   | [] => None
                   end
               | None => None
               end)
            (month_alts r1)
      | None => None
      end
  | None => None
  end.

(** [None] stands for the [ValueError]. *)
Definition strptime (s : string) : option date :=
  match match_ymd s with
  | Some (y, m, d, EmptyString) => make_date y m d
  | _ => None
  end.

(** *** [date.fromisoformat]

    As in Python 3.11, whose [date.fromisoformat] reads more than
    [isoformat] writes: in a string of 7, 8 or 10 bytes, four digits for the
    year, then either month and day ([YYYY-MM-DD], [YYYYMMDD]) or an ISO
    week and, optionally, a day of the week ([YYYY-Www-D], [YYYYWwwD],
    [YYYY-Www], [YYYYWww]).  The digits are ASCII digits; the length is
    checked before the form is, and what follows a complete date within
    that length is not looked at.  [None] stands for the [ValueError]. *)

Definition days_before_year (y : Z) : Z :=
  let y' := y - 1 in y' * 365 + y' / 4 - y' / 100 + y' / 400.

Definition days_before_month (y m : Z) : Z :=
  nth (Z.to_nat m) [0; 0; 31; 59; 90; 120; 151; 181; 212; 243; 273; 304; 334] 0
  + (if (2 <? m) && is_leap y then 1 else 0).

Definition ymd_to_ord (y m d : Z) : Z :=
  days_before_year y + days_before_month y m + d.

(** Monday is 0. *)
Definition weekday (y m d : Z) : Z := (ymd_to_ord y m d + 6) mod 7.

Definition iso_week1_monday (y : Z) : Z :=
  let first_day := ymd_to_ord y 1 1 in
  let first_weekday := (first_day + 6) mod 7 in
  let week1_monday := first_day - first_weekday in
  if 3 <? first_weekday then week1_monday + 7 else week1_monday.

(** Year, month and day of the day number [ordinal], day 1 being
    0001-01-01. *)
Definition ord_to_ymd (ordinal : Z) : Z * Z * Z :=
  let ordinal := ordinal - 1 in
  let n400 := ordinal / 146097 in
  let n := ordinal mod 146097 in
  let n100 := n / 36524 in
  let n := n mod 36524 in
  let n4 := n / 1461 in
  let n := n mod 1461 in
  let n1 := n / 365 in
  let n := n mod 365 in
  let y := n400 * 400 + 1 + n100 * 100 + n4 * 4 + n1 in
  if (n1 =? 4) || (n100 =? 4) then (y - 1, 12, 31)
  else
    let leapyear := (n1 =? 3) && (negb (n4 =? 24) || (n100 =? 3)) in
    let m := Z.shiftr (n + 50) 5 in
    let preceding :=
      nth (Z.to_nat m) [0; 0; 31; 59; 90; 120; 151; 181; 212; 243; 273; 304; 334] 0
      + (if (2 <? m) && leapyear then 1 else 0) in
    if n <? preceding then
      (y, m - 1, n - (preceding - days_in_month y (m - 1)) + 1)
    else (y, m, n - preceding + 1).

(** The date of the day [iso_day] of the week [iso_week] of a year.  A
    year from 1 on is asked for: for the year 0 the day numbers fall below
    1 and no date is built. *)
Definition iso_to_ymd (iso_year iso_week iso_day : Z) : option date :=
  let week_in_range :=
    ((1 <=? iso_week) && (iso_week <=? 52))
    || ((iso_week =? 53)
        && ((weekday iso_year 1 1 =? 3)
            || ((weekday iso_year 1 1 =? 2) && is_leap iso_year))) in
  if (1 <=? iso_year) && week_in_range && (1 <=? iso_day) && (iso_day <=? 7) then
    match ord_to_ymd (iso_week1_monday iso_year + (iso_week - 1) * 7 + iso_day - 1) with
    | (y, m, d) => make_date y m d
    end
  else None.

Definition fromisoformat (s : string) : option date :=
  let len := String.length s in
  if valid_utf8 s && ((len =? 7) || (len =? 8) || (len =? 10))%nat then
    match take_digits 4 0 s with
    | Some (y, p) =>
        let uses_separator :=
          match after_char "-" p with Some _ => true | None => false end in
        let p := match after_char "-" p with Some p' => p' | None => p end in
        match after_char "W" p with
        | Some p =>
            match take_digits 2 0 p with
            | Some (iso_week, EmptyString) => iso_to_ymd y iso_week 1
            | Some (iso_week, p) =>
                match (if uses_separator then after_char "-" p else Some p) with
                | Some p =>
                    match take_digits 1 0 p with
                    | Some (iso_day, _) => iso_to_ymd y iso_week iso_day
                    | None => None
                    end
                | None => None
                end
            | None => None
            end
        | None =>
            match take_digits 2 0 p with
            | Some (m, p) =>
                match (if uses_separator then after_char "-" p else Some p) with
                | Some p =>
                    match take_digits 2 0 p with
                    | Some (d, _) => make_date y m d
                    | None => None
                    end
                | None => None
                end
            | None => None
            end
        end
    | None => None
    end
  else None.

(** ** Tasks and the world a command runs in *)

Module Task.
Record t := mk {
  id : Z;
  text : string;
  created_at : string;
  due : option string;
  priority : Z;
  done : bool
}.

(** [t["text"] = v] and the like. *)
Definition set_text (v : string) (x : t) : t :=
  mk (id x) v (created_at x) (due x) (priority x) (done x).
Definition set_due (v : option string) (x : t) : t :=
  mk (id x) (text x) (created_at x) v (priority x) (done x).
Definition set_priority (v : Z) (x : t) : t :=
  mk (id x) (text x) (created_at x) (due x) v (done x).
Definition set_done (v : bool) (x : t) : t :=
  mk (id x) (text x) (created_at x) (due x) (priority x) v.
End Task.

Abbreviation Task := Task.t.

(** [json.dump] can write a task when it can encode its strings. *)
Definition writable_task (t : Task) : bool :=
  valid_utf8 (Task.text t) && valid_utf8 (Task.created_at t)
  && match Task.due t with Some s => valid_utf8 s | None => true end.

(** What [json.load] finds in a file it can parse: an array of tasks, or a
    value that is no array. *)
Inductive NonArray := JNull | JBool (b : bool) | JNumber (n : Z) | JString (s : string) | JObject.

Inductive Document :=
| TaskArray (tasks : list Task)
| NotArray (v : NonArray).

(** [tasks.json], a text file: absent, text that is not JSON, or what
    [json.dump] leaves in the file when it is given a document.  That is
    the whole document when all its strings can be encoded; when one
    cannot, [json.dump] raises at that string and the file holds the
    document up to there, which is not JSON.  (The program writes with
    [ensure_ascii=False], so no file it wrote spells a lone surrogate with
    an escape; such a file, and a file that is no text at all, are not
    values of this type: see [load_tasks_from].) *)
Inductive File :=
| Missing
| Malformed
| Json (doc : Document).

Record World := mkWorld {
  file : File;
  now : string;          (* datetime.now().isoformat(timespec="seconds") *)
  today : date;          (* date.today() *)
  stdout : list string;  (* lines printed, oldest first *)
  stderr : list string
}.

(** A command either returns or leaves through [sys.exit]. *)
Inductive Outcome (A : Type) :=
| Returned (a : A) (w : World)
| Exited (code : Z) (w : World).
Arguments Returned {A} a w.
Arguments Exited {A} code w.

Definition Proc (A : Type) : Type := World -> Outcome A.

Definition ret {A} (a : A) : Proc A := fun w => Returned a w.

Definition bind {A B} (m : Proc A) (k : A -> Proc B) : Proc B :=
  fun w =>
    match m w with
    | Returned a w' => k a w'
    | Exited code w' => Exited code w'
    end.

Declare Scope proc_scope.
Delimit Scope proc_scope with proc.
Notation "x <- m ;; k" := (bind m (fun x => k))
  (at level 100, m at next level, right associativity) : proc_scope.
Notation "m ;; k" := (bind m (fun _ => k))
  (at level 100, right associativity) : proc_scope.
Local Open Scope proc_scope.

Definition sys_exit {A} (code : Z) : Proc A := fun w => Exited code w.

Definition print (line : string) : Proc unit :=
  fun w => Returned tt
    (mkWorld (file w) (now w) (today w) (stdout w ++ [line]) (stderr w)).

Definition eprint (line : string) : Proc unit :=
  fun w => Returned tt
    (mkWorld (file w) (now w) (today w) (stdout w) (stderr w ++ [line])).

Definition read_clock : Proc string := fun w => Returned (now w) w.
Definition read_today : Proc date := fun w => Returned (today w) w.

(** The process: exit code 0 when the command returns. *)
Definition run (m : Proc unit) (w : World) : Z * World :=
  match m w with
  | Returned _ w' => (0, w')
  | Exited code w' => (code, w')
  end.

(** An exception that nothing catches: the interpreter prints the
    traceback to the error stream and the process ends with code 1.  Of the
    traceback the model keeps the first line and the class of the
    exception; the frames and the message depend on where the program is
    installed and on the value that was refused. *)
Definition uncaught {A} (exception : string) : Proc A :=
  eprint "Traceback (most recent call last):";;
  eprint exception;;
  sys_exit 1.

(** *** The store *)

Definition path_exists (f : File) : bool :=
  match f with Missing => false | _ => true end.

(** What [json.load] makes of the file: the document, the
    [json.JSONDecodeError] of a text that is not JSON, or another
    exception: [UnicodeDecodeError] for bytes that are not UTF-8,
    [RecursionError] for a document nested too deep, [ValueError] for a
    number too long for [int]. *)
Inductive Parsed :=
| Loaded (doc : Document)
| JSONDecodeError
| OtherError (exception : string).

(** On a text file as the type [File] has them the outcome is one of the
    first two. *)
Definition json_load (f : File) : Parsed :=
  match f with
  | Json (TaskArray tasks) =>
      if forallb writable_task tasks then Loaded (TaskArray tasks)
      else JSONDecodeError
  | Json (NotArray v) => Loaded (NotArray v)
  | _ => JSONDecodeError
  end.

(** [json.load(f)] is [json.loads(f.read())], and [f.read()] decodes the
    bytes of the file as UTF-8 before anything is parsed: bytes that are no
    UTF-8 raise [UnicodeDecodeError], whatever [json.loads] does with a
    text. *)
Definition json_load_bytes (loads : string -> Parsed) (bytes : string) : Parsed :=
  if valid_utf8 bytes then loads bytes else OtherError "UnicodeDecodeError".

(** [load_tasks], given whether the path exists and what [json.load] makes
    of the file: only the [JSONDecodeError] is caught. *)
Definition load_tasks_from (path_exists : bool) (parsed : Parsed)
  : Proc (list Task) :=
  if path_exists then
    match parsed with
    | Loaded (TaskArray data) => ret data
    | Loaded (NotArray _) => ret []
    | JSONDecodeError => ret []
    | OtherError exception => uncaught exception
    end
  else ret [].

Definition load_tasks : Proc (list Task) :=
  fun w => load_tasks_from (path_exists (file w)) (json_load (file w)) w.

(** The collection that [load_tasks] returns on a text file. *)
Definition load (f : File) : list Task :=
  if path_exists f then
    match json_load f with
    | Loaded (TaskArray data) => data
    | _ => []
    end
  else [].

(** [open("w")] empties the file, then [json.dump] writes the tasks one
    piece after the other and raises [UnicodeEncodeError] at the first
    string it cannot encode. *)
Definition save_tasks (tasks : list Task) : Proc unit :=
  fun w =>
    let w' := mkWorld (Json (TaskArray tasks)) (now w) (today w) (stdout w) (stderr w) in
    if forallb writable_task tasks then Returned tt w'
    else uncaught "UnicodeEncodeError" w'.

Definition next_id (tasks : list Task) : Z :=
  match map Task.id tasks with
  | [] => 0
  | i :: ids => fold_left Z.max ids i
  end + 1.

Definition parse_date (s : option string) : Proc (option string) :=
  match s with
  | None => ret None
  | Some "" => ret None
  | Some s =>
      match strptime s with
      | Some d => ret (Some (isoformat d))
      | None =>
          eprint "Error: --due must be YYYY-MM-DD (e.g., 2025-08-20).";;
          sys_exit 2
      end
  end.

(** ** The commands *)

Definition status_symbol (t : Task) : string :=
  if Task.done t then "✔" else "•".

(** [x or default] on an optional string: [None] and [""] are falsy. *)
Definition or_else (x : option string) (default : string) : string :=
  match x with
  | None | Some "" => default
  | Some s => s
  end.

Definition is_overdue (today : date) (t : Task) : bool :=
  if Task.done t then false
  else
    match Task.due t with
    | None | Some "" => false
    | Some due =>
        match fromisoformat due with
        | Some d => date_lt d today
        | None => false
        end
    end.

Definition add (text : string) (due : option string) (priority : Z) : Proc unit :=
  tasks <- load_tasks;;
  let i := next_id tasks in
  created <- read_clock;;
  d <- parse_date due;;
  let task := Task.mk i (strip text) created d priority false in
  let tasks := (tasks ++ [task])%list in
  save_tasks tasks;;
  print ("Added #" ++ str (Task.id task) ++ ": " ++ Task.text task).

(** *** [list] *)

(** [sort_key] and its locals [done_rank] and [due]. *)
Definition done_rank (t : Task) : Z := if Task.done t then 1 else 0.

Definition sentinel : string := "9999-12-31".

Definition due_rank (t : Task) : string := or_else (Task.due t) sentinel.

Definition sort_key (t : Task) : Z * Z * string * Z :=
  (done_rank t, Task.priority t, due_rank t, Task.id t).

(** [args.done is True], [args.done is False], or neither. *)
Definition filter_tasks (done_arg : option bool) (tasks : list Task) : list Task :=
  match done_arg with
  | Some true => filter Task.done tasks
  | Some false => filter (fun t => negb (Task.done t)) tasks
  | None => tasks
  end.

(** The tasks shown, in the order shown. *)
Definition listed (done_arg : option bool) (tasks : list Task) : list Task :=
  sort_by sort_key (filter_tasks done_arg tasks).

Definition due_cell (today : date) (t : Task) : string :=
  let due := or_else (Task.due t) "-" in
  if is_overdue today t then due ++ " (!) " else due.

Definition row (today : date) (t : Task) : list string :=
  [ rjust 3 (str (Task.id t));
    status_symbol t;
    str (Task.priority t);
    due_cell today t;
    Task.text t ].

Definition headers : list string := ["ID"; "St"; "Pri"; "Due"; "Task"].

(** [max(len(r[i]) for r in rows)], for at least one row. *)
Definition max_len (i : nat) (rows : list (list string)) : nat :=
  fold_right Nat.max 0%nat (map (fun r => len (nth i r "")) rows).

Definition column_widths (rows : list (list string)) : list nat :=
  map (fun ih : nat * string => Nat.max (len (snd ih)) (max_len (fst ih) rows))
      (combine (seq 0 (List.length headers)) headers).

(** One line of the table: every cell left-justified to its column's width
    (the format [{:<w}]), the columns joined by two spaces. *)
Definition format_row (colw : list nat) (cells : list string) : string :=
  String.concat "  " (map (fun wc : nat * string => ljust (fst wc) (snd wc))
                          (combine colw cells)).

Fixpoint dashes (n : nat) : string :=
  match n with
  | O => ""
  | S n' => String "-" (dashes n')
  end.

Fixpoint print_all (lines : list string) : Proc unit :=
  match lines with
  | [] => ret tt
  | l :: ls => print l;; print_all ls
  end.

Definition table (today : date) (tasks : list Task) : list string :=
  let rows := map (row today) tasks in
  let colw := column_widths rows in
  format_row colw headers :: format_row colw (map dashes colw)
    :: map (format_row colw) rows.

Definition list_cmd (done_arg : option bool) : Proc unit :=
  tasks <- load_tasks;;
  let tasks := listed done_arg tasks in
  match tasks with
  | [] => print "No tasks found."
  | _ => day <- read_today;; print_all (table day tasks)
  end.

(** *** [done], [delete], [edit], [clear]

    [for t in tasks: if t["id"] == args.id: ...; return] stops at the first
    task with the id.  [t] is that element of [tasks] itself, so what is
    assigned to [t] is saved with [tasks]: [find_task] gives the tasks before
    it, the task and the tasks after it, and the list saved is rebuilt around
    the task as changed. *)

Fixpoint find_task (i : Z) (tasks : list Task)
  : option (list Task * Task * list Task) :=
  match tasks with
  | [] => None
  | t :: rest =>
      if Task.id t =? i then Some ([], t, rest)
      else
        match find_task i rest with
        | Some (before, found, after) => Some (t :: before, found, after)
        | None => None
        end
  end.

Definition not_found {A} (i : Z) : Proc A :=
  eprint ("Task #" ++ str i ++ " not found.");;
  sys_exit 1.

Definition done (i : Z) : Proc unit :=
  tasks <- load_tasks;;
  match find_task i tasks with
  | Some (before, t, after) =>
      let t := Task.set_done true t in
      save_tasks (before ++ t :: after)%list;;
      print ("Marked #" ++ str i ++ " as done.")
  | None => not_found i
  end.

Definition delete (i : Z) : Proc unit :=
  tasks <- load_tasks;;
  let n_before := List.length tasks in
  let tasks := filter (fun t => negb (Task.id t =? i)) tasks in
  (if (List.length tasks =? n_before)%nat then not_found i else ret tt);;
  save_tasks tasks;;
  print ("Deleted #" ++ str i ++ ".").

Definition edit (i : Z) (text due : option string) (priority : option Z)
  : Proc unit :=
  tasks <- load_tasks;;
  match find_task i tasks with
  | Some (before, t, after) =>
      let t := match text with
               | Some s => Task.set_text (strip s) t
               | None => t
               end in
      t <- match due with
           | Some s => d <- parse_date (Some s);; ret (Task.set_due d t)
           | None => ret t
           end;;
      let t := match priority with
               | Some p => Task.set_priority p t
               | None => t
               end in
      save_tasks (before ++ t :: after)%list;;
      print ("Updated #" ++ str i ++ ".")
  | None => not_found i
  end.

Definition clear (done_flag all_flag : bool) : Proc unit :=
  tasks <- load_tasks;;
  if done_flag then
    let tasks := filter (fun t => negb (Task.done t)) tasks in
    save_tasks tasks;;
    print "Cleared all completed tasks."
  else if all_flag then
    save_tasks [];;
    print "Cleared all tasks."
  else
    eprint "Specify --done or --all";;
    sys_exit 2.

(** ** The command line of [list]

    [build_parser] gives [list] two options that store into the same
    attribute: [--done] is [store_true] and [--todo] is [store_false], both
    with [dest="done"], in one mutually exclusive group.  [argparse] first
    fills the namespace with defaults, going through the parser's actions in
    the order they were added and setting an attribute only if it is not set
    yet; [store_true] defaults to [False] and [store_false] to [True].  Then
    every option met stores its constant, and an option met after the other
    one of the group is a usage error.

    The command line is taken as the options [argparse] recognises on it, in
    order: how it tells options from other words (abbreviations, [-h]) is
    not modelled. *)

Record Action := mkAction {
  option_string : string;
  dest : string;
  const : bool;
  default : bool
}.

Definition store_true (opt dest : string) : Action := mkAction opt dest true false.
Definition store_false (opt dest : string) : Action := mkAction opt dest false true.

Definition Namespace := list (string * bool).

Fixpoint getattr (ns : Namespace) (name : string) : option bool :=
  match ns with
  | [] => None
  | (k, v) :: ns' => if String.eqb k name then Some v else getattr ns' name
  end.

Definition hasattr (ns : Namespace) (name : string) : bool :=
  match getattr ns name with Some _ => true | None => false end.

Definition setattr (ns : Namespace) (name : string) (v : bool) : Namespace :=
  (name, v) :: filter (fun kv => negb (String.eqb (fst kv) name)) ns.

(** "add any action defaults that aren't present" *)
Definition add_defaults (actions : list Action) (ns : Namespace) : Namespace :=
  fold_left
    (fun ns a => if hasattr ns (dest a) then ns else setattr ns (dest a) (default a))
    actions ns.

Inductive ListOption := OptDone | OptTodo.

Definition action_of (o : ListOption) : Action :=
  match o with
  | OptDone => store_true "--done" "done"
  | OptTodo => store_false "--todo" "done"
  end.

(** The actions of [list], in the order [build_parser] adds them. *)
Definition list_actions : list Action := [action_of OptDone; action_of OptTodo].

Definition same_option (a b : ListOption) : bool :=
  match a, b with
  | OptDone, OptDone | OptTodo, OptTodo => true
  | _, _ => false
  end.

(** The options met, in order.  The error is (the option refused, the
    option of the group met before it). *)
Fixpoint take_actions (seen : list ListOption) (argv : list ListOption)
    (ns : Namespace) : Namespace + ListOption * ListOption :=
  match argv with
  | [] => inl ns
  | o :: argv' =>
      match find (fun o' => negb (same_option o' o)) seen with
      | Some o' => inr (o, o')
      | None =>
          take_actions (o :: seen) argv'
            (setattr ns (dest (action_of o)) (const (action_of o)))
      end
  end.

Definition parse_list_args (argv : list ListOption)
  : Namespace + ListOption * ListOption :=
  take_actions [] argv (add_defaults list_actions []).

(** [main] on the command line [list] followed by the options [argv]:
    parse, then call [list_cmd] with [args.done]. *)
Definition main_list (argv : list ListOption) : Proc unit :=
  match parse_list_args argv with
  | inl args => list_cmd (getattr args "done")
  | inr (o, o') =>
      eprint "usage: todo list [-h] [--done | --todo]";;
      eprint ("todo list: error: argument " ++ option_string (action_of o)
              ++ ": not allowed with argument " ++ option_string (action_of o'));;
      sys_exit 2
  end.

(** ** The rest of the command line: [build_parser] and [main]

    As for [list], the command line is taken as [argparse] reads it once
    every word is recognised: the sub-command, its positional arguments
    (numbers already numbers) and the options met.  What is modelled is
    what [build_parser] asks of [argparse] beyond that: the choices of
    [--priority] and its default for [add], and the exclusive group of
    [clear], which is required.  The messages are those of Python 3.11. *)

Definition usage_error {A} (usage message : string) : Proc A :=
  eprint usage;;
  eprint message;;
  sys_exit 2.

(** The same walk through the options met as [take_actions], for the
    options of any sub-command. *)
Section Options.
Context {O : Type} (action : O -> Action) (same : O -> O -> bool).

Fixpoint take_options (seen : list O) (argv : list O) (ns : Namespace)
  : Namespace + O * O :=
  match argv with
  | [] => inl ns
  | o :: argv' =>
      match find (fun o' => negb (same o' o)) seen with
      | Some o' => inr (o, o')
      | None =>
          take_options (o :: seen) argv'
            (setattr ns (dest (action o)) (const (action o)))
      end
  end.

Definition not_allowed (prog : string) (o o' : O) : string :=
  prog ++ ": error: argument " ++ option_string (action o)
  ++ ": not allowed with argument " ++ option_string (action o').

End Options.

Inductive ClearOption := ClearDone | ClearAll.

Definition clear_action_of (o : ClearOption) : Action :=
  match o with
  | ClearDone => store_true "--done" "done"
  | ClearAll => store_true "--all" "all"
  end.

Definition clear_actions : list Action :=
  [clear_action_of ClearDone; clear_action_of ClearAll].

Definition same_clear_option (a b : ClearOption) : bool :=
  match a, b with
  | ClearDone, ClearDone | ClearAll, ClearAll => true
  | _, _ => false
  end.

(** [choices=[1,2,3]] *)
Definition priority_choices : list Z := [1; 2; 3].

Definition in_choices (p : Z) : bool := existsb (Z.eqb p) priority_choices.

Definition invalid_choice (prog : string) (p : Z) : string :=
  prog ++ ": error: argument --priority: invalid choice: " ++ str p
  ++ " (choose from 1, 2, 3)".

Definition add_usage : string :=
  "usage: todo add [-h] [--due DUE] [--priority {1,2,3}] text".
Definition list_usage : string := "usage: todo list [-h] [--done | --todo]".
Definition edit_usage : string :=
  "usage: todo edit [-h] [--text TEXT] [--due DUE] [--priority {1,2,3}] id".
Definition clear_usage : string := "usage: todo clear [-h] (--done | --all)".

(** A command line, and the handler call it leads to ([args.func(args)]). *)
Inductive CommandLine :=
| CliAdd (text : string) (due : option string) (priority : option Z)
| CliList (options : list ListOption)
| CliDone (i : Z)
| CliDelete (i : Z)
| CliEdit (i : Z) (text due : option string) (priority : option Z)
| CliClear (options : list ClearOption).

Inductive Handler :=
| HAdd (text : string) (due : option string) (priority : Z)
| HList (done_arg : option bool)
| HDone (i : Z)
| HDelete (i : Z)
| HEdit (i : Z) (text due : option string) (priority : option Z)
| HClear (done_flag all_flag : bool).

Definition handle (h : Handler) : Proc unit :=
  match h with
  | HAdd text due priority => add text due priority
  | HList done_arg => list_cmd done_arg
  | HDone i => done i
  | HDelete i => delete i
  | HEdit i text due priority => edit i text due priority
  | HClear done_flag all_flag => clear done_flag all_flag
  end.

(** An attribute the defaults have set, as a truth value. *)
Definition flag (ns : Namespace) (name : string) : bool :=
  match getattr ns name with Some b => b | None => false end.

(** [parser.parse_args(argv)]: the handler and its arguments, or the usage
    line and the message of the error. *)
Definition parse_args (line : CommandLine) : Handler + string * string :=
  match line with
  | CliAdd text due priority =>
      match priority with
      | None => inl (HAdd text due 3)
      | Some p =>
          if in_choices p then inl (HAdd text due p)
          else inr (add_usage, invalid_choice "todo add" p)
      end
  | CliList options =>
      match parse_list_args options with
      | inl args => inl (HList (getattr args "done"))
      | inr (o, o') => inr (list_usage, not_allowed action_of "todo list" o o')
      end
  | CliDone i => inl (HDone i)
  | CliDelete i => inl (HDelete i)
  | CliEdit i text due priority =>
      match priority with
      | None => inl (HEdit i text due None)
      | Some p =>
          if in_choices p then inl (HEdit i text due (Some p))
          else inr (edit_usage, invalid_choice "todo edit" p)
      end
  | CliClear options =>
      match take_options clear_action_of same_clear_option [] options
              (add_defaults clear_actions []) with
      | inl args =>
          match options with
          | [] => inr (clear_usage,
                       "todo clear: error: one of the arguments --done --all is required")
          | _ => inl (HClear (flag args "done") (flag args "all"))
          end
      | inr (o, o') =>
          inr (clear_usage, not_allowed clear_action_of "todo clear" o o')
      end
  end.

Definition main (line : CommandLine) : Proc unit :=
  match parse_args line with
  | inl h => handle h
  | inr (usage, message) => usage_error usage message
  end.

(** * The vocabulary of the statements *)

(** ** Worlds after a command *)

Definition with_file (f : File) (w : World) : World :=
  mkWorld f (now w) (today w) (stdout w) (stderr w).
Definition with_out (line : string) (w : World) : World :=
  mkWorld (file w) (now w) (today w) (stdout w ++ [line]) (stderr w).
Definition with_err (line : string) (w : World) : World :=
  mkWorld (file w) (now w) (today w) (stdout w) (stderr w ++ [line]).

Definition date_error : string :=
  "Error: --due must be YYYY-MM-DD (e.g., 2025-08-20).".

Definition not_found_error (i : Z) : string := "Task #" ++ str i ++ " not found.".

(** What a [--due] argument amounts to: the option was not given, it gives a
    value to store ([None] for the empty string), or it is refused. *)
Inductive DueArg :=
| DueUnset
| DueValue (d : option string)
| DueRefused.

Definition due_arg (due : option string) : DueArg :=
  match due with
  | None => DueUnset
  | Some "" => DueValue None
  | Some s =>
      match strptime s with
      | Some d => DueValue (Some (isoformat d))
      | None => DueRefused
      end
  end.

(** The task as [edit] leaves it. *)
Definition edited (text : option string) (due : DueArg) (priority : option Z)
    (t : Task) : Task :=
  Task.mk (Task.id t)
    (match text with Some s => strip s | None => Task.text t end)
    (Task.created_at t)
    (match due with DueValue d => d | _ => Task.due t end)
    (match priority with Some p => p | None => Task.priority t end)
    (Task.done t).

Definition saved (tasks : list Task) (line : string) (w : World) : World :=
  with_out line (with_file (Json (TaskArray tasks)) w).

(** The world after [save_tasks] failed on [tasks]: the file cut short and
    the traceback on the error stream. *)
Definition crashed (tasks : list Task) (w : World) : World :=
  with_err "UnicodeEncodeError"
    (with_err "Traceback (most recent call last):"
       (with_file (Json (TaskArray tasks)) w)).

(** A text argument that [json.dump] can write once it is trimmed; an
    argument that was not given asks nothing. *)
Definition writable_text (text : option string) : bool :=
  match text with Some s => valid_utf8 (strip s) | None => true end.

(** ** Sample data: the scenario of two tasks, and two more tasks *)

Definition milk : Task :=
  Task.mk 1 "Buy milk" "2025-01-01T09:00:00" (Some "2025-01-01") 1 false.
Definition report : Task :=
  Task.mk 2 "Write report" "2025-01-01T09:05:00" None 3 false.

Definition world_of (f : File) : World :=
  mkWorld f "2025-01-02T10:00:00" (mkdate 2025 1 2) [] [].

Definition two_tasks : World := world_of (Json (TaskArray [milk; report])).

Definition no_due : Task :=
  Task.mk 1 "Renew passport" "2025-01-01T09:00:00" None 3 false.
Definition last_day : Task :=
  Task.mk 2 "Open time capsule" "2025-01-01T09:05:00" (Some "9999-12-31") 3 false.

(** ** The overdue marker *)

Definition marker : string := " (!) ".

(** The date a task is due, if its due field holds one. *)
Definition due_date (t : Task) : option date :=
  match Task.due t with
  | Some s => fromisoformat s
  | None => None
  end.

(** ** Ids over a history of commands

    Each command is a run of the program of its own: it finds the file the
    previous one left, with its own reading of the clock and empty output
    streams. *)

Inductive Command :=
| Add (text : string) (due : option string) (priority : Z)
| Delete (i : Z).

Record Call := mkCall { at_time : string; on_day : date; command : Command }.

Definition invoke (c : Command) : Proc unit :=
  match c with
  | Add text due priority => add text due priority
  | Delete i => delete i
  end.

Definition call (f : File) (c : Call) : Z * World :=
  run (invoke (command c)) (mkWorld f (at_time c) (on_day c) [] []).

Definition file_after (f : File) (c : Call) : File := file (snd (call f c)).

Definition run_calls (f : File) (calls : list Call) : File :=
  fold_left file_after calls f.

(** The id an [add] gave out: that of the last task of the file it saved. *)
Definition assigned (f : File) (c : Call) : option Z :=
  match command c, fst (call f c) with
  | Add _ _ _, 0 =>
      match rev (load (file_after f c)) with
      | t :: _ => Some (Task.id t)
      | [] => None
      end
  | _, _ => None
  end.

Fixpoint assigned_ids (f : File) (calls : list Call) : list Z :=
  match calls with
  | [] => []
  | c :: rest =>
      match assigned f c with
      | Some i => i :: assigned_ids (file_after f c) rest
      | None => assigned_ids (file_after f c) rest
      end
  end.

(** A [delete] that removes the task with the greatest id. *)
Definition deletes_greatest (i : Z) (tasks : list Task) : bool :=
  existsb (fun t => Task.id t =? i) tasks && (i + 1 =? next_id tasks).

Fixpoint keeps_greatest (f : File) (calls : list Call) : bool :=
  match calls with
  | [] => true
  | c :: rest =>
      match command c with
      | Delete i => negb (deletes_greatest i (load f))
      | Add _ _ _ => true
      end && keeps_greatest (file_after f c) rest
  end.

(** Every [add] of the calls can save: its text, trimmed, and the reading
    of the clock are UTF-8. *)
Definition always_saves (calls : list Call) : bool :=
  forallb (fun c => match command c with
                    | Add text _ _ => valid_utf8 (strip text) && valid_utf8 (at_time c)
                    | Delete _ => true
                    end) calls.

(** A text that is no UTF-8: the single byte FF. *)
Definition not_utf8 : string := String (ascii_of_N 255) "".

Definition at_noon (c : Command) : Call :=
  mkCall "2025-01-02T12:00:00" (mkdate 2025 1 2) c.

Definition milk_done : World :=
  world_of (Json (TaskArray [Task.set_done true milk; report])).

(** ** What a command may do to the collection *)

(** A due date as [parse_date] returns it: none, or the ISO text of a date
    of the calendar. *)
Definition written_due (d : option string) : Prop :=
  d = None \/ exists dt, valid_date dt = true /\ d = Some (isoformat dt).

(** The priority a handler is called with, if any. *)
Definition given_priority (h : Handler) : option Z :=
  match h with
  | HAdd _ _ p => Some p
  | HEdit _ _ _ p => p
  | _ => None
  end.

(** The collection before a command and the collection after it: the same,
    or one task more at the end, or one task changed in place, or some
    tasks dropped. *)
Inductive Step (given : option Z) (tasks : list Task) : list Task -> Prop :=
| StepNone : Step given tasks tasks
| StepAppend (t : Task) :
    Task.id t = next_id tasks ->
    Task.done t = false ->
    written_due (Task.due t) ->
    given = Some (Task.priority t) ->
    Step given tasks (tasks ++ [t])
| StepChange (before after : list Task) (t t' : Task) :
    tasks = (before ++ t :: after)%list ->
    Task.id t' = Task.id t ->
    Task.created_at t' = Task.created_at t ->
    (Task.due t' = Task.due t \/ written_due (Task.due t')) ->
    (Task.priority t' = Task.priority t \/ given = Some (Task.priority t')) ->
    (Task.done t' = Task.done t \/ Task.done t' = true) ->
    Step given tasks (before ++ t' :: after)
| StepDrop (keep : Task -> bool) : Step given tasks (filter keep tasks).

Definition well_formed (tasks : list Task) : Prop :=
  StronglySorted Z.lt (map Task.id tasks) /\
  Forall (fun t => 1 <= Task.id t) tasks /\
  Forall (fun t => written_due (Task.due t)) tasks /\
  Forall (fun t => In (Task.priority t) priority_choices) tasks.

(** A session: runs of the program one after the other on the same file,
    each with its own command line and reading of the clock. *)
Record Run := mkRun { run_now : string; run_today : date; run_line : CommandLine }.

Definition world_for (f : File) (r : Run) : World :=
  mkWorld f (run_now r) (run_today r) [] [].

Definition file_after_run (f : File) (r : Run) : File :=
  file (snd (run (main (run_line r)) (world_for f r))).

Definition session (f : File) (runs : list Run) : File :=
  fold_left file_after_run runs f.

Definition on_jan_2 (line : CommandLine) : Run :=
  mkRun "2025-01-02T12:00:00" (mkdate 2025 1 2) line.

Definition sample_session : list Run :=
  map on_jan_2
      [ CliAdd " Buy milk " (Some "2025-1-5") (Some 1);
        CliAdd "Write report" None None;
        CliAdd "Refused" (Some "tomorrow") None;
        CliDone 1;
        CliEdit 2 None (Some "2025-02-28") (Some 2);
        CliList [];
        CliAdd "Call home" (Some "") (Some 7);
        CliDelete 5;
        CliClear [ClearDone] ].

(** ** What a run leaves behind

    A run that went through wrote at least one line to the output and
    nothing to the error stream; a run that failed wrote at least one line
    to the error stream and touched neither the file nor the output; a run
    that failed in [save_tasks] wrote at least one line to the error
    stream and nothing to the output, and left the file cut short, which
    reads as an empty collection. *)
Definition went_through (w w' : World) : Prop :=
  stderr w' = stderr w /\
  exists lines, lines <> [] /\ stdout w' = (stdout w ++ lines)%list.

Definition failed (w w' : World) : Prop :=
  file w' = file w /\ stdout w' = stdout w /\
  exists lines, lines <> [] /\ stderr w' = (stderr w ++ lines)%list.

Definition save_failed (w w' : World) : Prop :=
  load (file w') = [] /\ stdout w' = stdout w /\
  exists lines, lines <> [] /\ stderr w' = (stderr w ++ lines)%list.

(** A command line whose command cannot save: an [add] or an [edit] with a
    text that, trimmed, is no UTF-8 (or an [add] when the reading of the
    clock is no text). *)
Definition handler_cannot_save (h : Handler) (w : World) : Prop :=
  match h with
  | HAdd text _ _ => valid_utf8 (strip text) = false \/ valid_utf8 (now w) = false
  | HEdit _ (Some text) _ _ => valid_utf8 (strip text) = false
  | _ => False
  end.

Definition cannot_save (line : CommandLine) (w : World) : Prop :=
  match line with
  | CliAdd text _ _ => valid_utf8 (strip text) = false \/ valid_utf8 (now w) = false
  | CliEdit _ (Some text) _ _ => valid_utf8 (strip text) = false
  | _ => False
  end.

(** The id a command line names. *)
Definition id_argument (line : CommandLine) : option Z :=
  match line with
  | CliDone i | CliDelete i | CliEdit i _ _ _ => Some i
  | _ => None
  end.

(** The width of a line of the table: the columns and the two spaces
    between neighbours. *)
Definition table_width (colw : list nat) : nat :=
  (fold_right Nat.add 0 colw + 2 * (List.length colw - 1))%nat.

(** * Properties *)

(** ** Ordering and sorting *)

Lemma cmp_refl {A} `{PyOrd A} (a : A) : cmp a a = Eq.
Proof. now apply cmp_eq. Qed.

Lemma cmp_gt_lt {A} `{PyOrd A} (a b : A) : cmp a b = Gt <-> cmp b a = Lt.
Proof.
  rewrite (cmp_antisym a b). destruct (cmp a b); simpl; split; congruence.
Qed.

Lemma py_le_cmp {A} `{PyOrd A} (a b : A) : py_le a b = true <-> cmp a b <> Gt.
Proof.
  unfold py_le, py_lt. rewrite (cmp_antisym a b).
  destruct (cmp a b); simpl; split; congruence.
Qed.

Lemma py_lt_cmp {A} `{PyOrd A} (a b : A) : py_lt a b = true <-> cmp a b = Lt.
Proof. unfold py_lt. destruct (cmp a b); split; congruence. Qed.

Lemma py_le_refl {A} `{PyOrd A} (a : A) : py_le a a = true.
Proof. apply py_le_cmp. rewrite cmp_refl. discriminate. Qed.

Lemma py_le_total {A} `{PyOrd A} (a b : A) : py_le a b = true \/ py_le b a = true.
Proof.
  rewrite !py_le_cmp, (cmp_antisym a b).
  destruct (cmp a b); simpl; [left | left | right]; discriminate.
Qed.

Lemma py_le_antisym {A} `{PyOrd A} (a b : A) :
  py_le a b = true -> py_le b a = true -> a = b.
Proof.
  rewrite !py_le_cmp, (cmp_antisym a b). intros Hab Hba.
  apply cmp_eq. destruct (cmp a b); simpl in *; congruence.
Qed.

Lemma py_lt_trans {A} `{PyOrd A} (a b c : A) :
  py_lt a b = true -> py_lt b c = true -> py_lt a c = true.
Proof. rewrite !py_lt_cmp. apply cmp_lt_trans. Qed.

Lemma py_le_trans {A} `{PyOrd A} (a b c : A) :
  py_le a b = true -> py_le b c = true -> py_le a c = true.
Proof.
  rewrite !py_le_cmp. intros Hab Hbc Hac.
  apply cmp_gt_lt in Hac.
  destruct (cmp a b) eqn:Eab; try congruence.
  - apply cmp_eq in Eab. subst b. apply cmp_gt_lt in Hac. congruence.
  - destruct (cmp b c) eqn:Ebc; try congruence.
    + apply cmp_eq in Ebc. subst c. apply cmp_gt_lt in Hac. congruence.
    + pose proof (cmp_lt_trans _ _ _ Hac Eab) as Hcb.
      apply cmp_gt_lt in Hcb. congruence.
Qed.

Lemma py_lt_le {A} `{PyOrd A} (a b : A) : py_lt a b = true -> py_le a b = true.
Proof.
  rewrite py_lt_cmp, py_le_cmp. congruence.
Qed.

Lemma py_lt_irrefl {A} `{PyOrd A} (a : A) : py_lt a a = false.
Proof. unfold py_lt. now rewrite cmp_refl. Qed.

Section SortFacts.
Context {A K : Type} `{PyOrd K} (key : A -> K).

Lemma insert_by_perm (x : A) (l : list A) :
  Permutation (x :: l) (insert_by key x l).
Proof.
  induction l as [|y l IH]; simpl; [reflexivity|].
  destruct (py_lt (key y) (key x)); [|reflexivity].
  rewrite perm_swap. now constructor.
Qed.

Lemma sort_by_perm (l : list A) : Permutation l (sort_by key l).
Proof.
  induction l as [|x l IH]; simpl; [constructor|].
  rewrite <- insert_by_perm. now constructor.
Qed.

Lemma sort_by_in (l : list A) (x : A) : In x (sort_by key l) <-> In x l.
Proof.
  split; apply Permutation_in; [symmetry|]; apply sort_by_perm.
Qed.

Lemma sort_by_length (l : list A) : List.length (sort_by key l) = List.length l.
Proof. symmetry. apply Permutation_length, sort_by_perm. Qed.

Lemma insert_by_sorted (x : A) (l : list A) :
  StronglySorted (key_le key) l -> StronglySorted (key_le key) (insert_by key x l).
Proof.
  induction 1 as [|y l Hl IH Hy]; simpl.
  - repeat constructor.
  - destruct (py_lt (key y) (key x)) eqn:E.
    + constructor; [assumption|].
      rewrite Forall_forall in *. intros z Hz.
      apply (Permutation_in _ (Permutation_sym (insert_by_perm x l))) in Hz.
      destruct Hz as [<-|Hz]; [now apply py_lt_le | auto].
    + assert (Hxy : key_le key x y) by (unfold key_le, py_le; now rewrite E).
      constructor; [now constructor|].
      constructor; [assumption|].
      rewrite Forall_forall in *. intros z Hz.
      unfold key_le in *. eauto using py_le_trans.
Qed.

Lemma sort_by_sorted (l : list A) : StronglySorted (key_le key) (sort_by key l).
Proof.
  induction l as [|x l IH]; simpl; [constructor | now apply insert_by_sorted].
Qed.

(** Sorting a list whose neighbours are already in order changes nothing. *)
Lemma sort_by_of_sorted (l : list A) : Sorted (key_le key) l -> sort_by key l = l.
Proof.
  induction 1 as [|x l Hl IH Hx]; simpl; [reflexivity|].
  rewrite IH. destruct Hx as [|y l Hxy]; simpl; [reflexivity|].
  unfold key_le, py_le in Hxy.
  now destruct (py_lt (key y) (key x)).
Qed.

(** Stability: among the elements of one key, the input order is kept. *)
Lemma insert_by_stable (k : K) (x : A) (l : list A) :
  filter (has_key key k) (insert_by key x l) = filter (has_key key k) (x :: l).
Proof.
  induction l as [|y l IH]; simpl; [reflexivity|].
  destruct (py_lt (key y) (key x)) eqn:E; simpl; [|reflexivity].
  simpl in IH. rewrite IH.
  destruct (has_key key k x) eqn:Ex; [|reflexivity].
  destruct (has_key key k y) eqn:Ey; [|reflexivity].
  unfold has_key in Ex, Ey.
  destruct (cmp (key x) k) eqn:Hx; try discriminate.
  destruct (cmp (key y) k) eqn:Hy; try discriminate.
  apply cmp_eq in Hx, Hy. rewrite Hx, Hy in E.
  now rewrite py_lt_irrefl in E.
Qed.

Lemma sort_by_stable (k : K) (l : list A) :
  filter (has_key key k) (sort_by key l) = filter (has_key key k) l.
Proof.
  induction l as [|x l IH]; simpl; [reflexivity|].
  rewrite insert_by_stable. simpl. now rewrite IH.
Qed.

Lemma has_key_self (x : A) : has_key key (key x) x = true.
Proof. unfold has_key. now rewrite cmp_refl. Qed.

Lemma in_same_filters (l1 l2 : list A) (x : A) :
  (forall k, filter (has_key key k) l1 = filter (has_key key k) l2) ->
  In x l1 -> In x l2.
Proof.
  intros Hf Hin.
  assert (H1 : In x (filter (has_key key (key x)) l1))
    by (apply filter_In; split; [assumption | apply has_key_self]).
  rewrite Hf in H1. now apply filter_In in H1.
Qed.

(** Ascending keys and the order within each key fix the list: any stable
    sort gives the result of [sort_by]. *)
Lemma sorted_stable_unique (l1 l2 : list A) :
  StronglySorted (key_le key) l1 ->
  StronglySorted (key_le key) l2 ->
  (forall k, filter (has_key key k) l1 = filter (has_key key k) l2) ->
  l1 = l2.
Proof.
  revert l2. induction l1 as [|x l1 IH]; intros [|y l2] S1 S2 Hf.
  - reflexivity.
  - specialize (Hf (key y)). simpl in Hf. rewrite has_key_self in Hf. discriminate.
  - specialize (Hf (key x)). simpl in Hf. rewrite has_key_self in Hf. discriminate.
  - inversion S1 as [|? ? S1' H1]; subst. inversion S2 as [|? ? S2' H2]; subst.
    rewrite Forall_forall in H1, H2.
    assert (Hk : key x = key y).
    { assert (Hx : In x (y :: l2))
        by (apply (in_same_filters (x :: l1)); [assumption | now left]).
      assert (Hy : In y (x :: l1)).
      { apply (in_same_filters (y :: l2)); [|now left].
        intros k. symmetry. apply Hf. }
      destruct Hx as [->|Hx]; [reflexivity|].
      destruct Hy as [->|Hy]; [reflexivity|].
      apply py_le_antisym; [apply (H1 _ Hy) | apply (H2 _ Hx)]. }
    assert (Hxy : x = y).
    { specialize (Hf (key x)). simpl in Hf. rewrite has_key_self in Hf.
      rewrite Hk, has_key_self in Hf. congruence. }
    subst y. f_equal. apply IH; try assumption.
    intros k. specialize (Hf k). simpl in Hf.
    destruct (has_key key k x); congruence.
Qed.

Lemma stable_sort_is_sort_by (l l' : list A) :
  StronglySorted (key_le key) l' ->
  (forall k, filter (has_key key k) l' = filter (has_key key k) l) ->
  l' = sort_by key l.
Proof.
  intros Hs Hf. apply sorted_stable_unique; [assumption | apply sort_by_sorted|].
  intros k. now rewrite sort_by_stable.
Qed.

(** When no two elements share a key the result is strictly ascending. *)
Lemma sorted_le_lt (l : list A) :
  NoDup (map key l) -> StronglySorted (key_le key) l -> StronglySorted (key_lt key) l.
Proof.
  induction l as [|x l IH]; intros Hnd Hs; [constructor|].
  simpl in Hnd. inversion Hnd as [|? ? Hx Hnd']; subst.
  inversion Hs as [|? ? Hl Hall]; subst.
  constructor; [auto|].
  rewrite Forall_forall in *. intros y Hy.
  specialize (Hall y Hy). unfold key_le, key_lt in *.
  apply py_le_cmp in Hall. apply py_lt_cmp.
  destruct (cmp (key x) (key y)) eqn:E; try congruence.
  apply cmp_eq in E. exfalso. apply Hx. rewrite E. now apply in_map.
Qed.

Lemma sort_by_strict (l : list A) :
  NoDup (map key l) -> StronglySorted (key_lt key) (sort_by key l).
Proof.
  intros Hnd. apply sorted_le_lt; [|apply sort_by_sorted].
  eapply Permutation_NoDup; [|exact Hnd].
  apply Permutation_map, sort_by_perm.
Qed.

End SortFacts.

(** ** Checks of the library models on concrete inputs *)

Example strip_example :
  strip (String (ascii_of_nat 9) "  Buy milk " ++ String (ascii_of_nat 10) "") = "Buy milk".
Proof. reflexivity. Qed.

Example strip_inner_kept : strip " a  b " = "a  b".
Proof. reflexivity. Qed.

Example str_examples : str 0 = "0" /\ str 12 = "12" /\ str (-5) = "-5".
Proof. repeat split. Qed.

Example rjust_example : rjust 3 (str 7) = "  7" /\ rjust 3 (str 1234) = "1234".
Proof. split; reflexivity. Qed.

Example isoformat_example : isoformat (mkdate 2025 8 5) = "2025-08-05".
Proof. reflexivity. Qed.

Example strptime_examples :
  strptime "2025-08-05" = Some (mkdate 2025 8 5) /\
  strptime "2025-8-5" = Some (mkdate 2025 8 5) /\
  strptime "2025-01- 5" = Some (mkdate 2025 1 5) /\
  strptime "2024-02-29" = Some (mkdate 2024 2 29) /\
  strptime "9999-12-31" = Some (mkdate 9999 12 31) /\
  strptime "2025-02-29" = None /\
  strptime "0000-01-01" = None /\
  strptime "2025-13-01" = None /\
  strptime "2025-1-40" = None /\
  strptime " 2025-01-05" = None /\
  strptime "2025-01-05 " = None /\
  strptime "tomorrow" = None /\
  strptime "" = None /\
  strptime "2025-01-1٥" = Some (mkdate 2025 1 15) /\
  strptime "２０２５-01-05" = Some (mkdate 2025 1 5) /\
  strptime "2025-0１-05" = None /\
  strptime "2025-01-٣٠" = None /\
  strptime ("2025-01-1" ++ not_utf8) = None.
Proof. repeat split. Qed.

Example fromisoformat_examples :
  fromisoformat "2025-08-05" = Some (mkdate 2025 8 5) /\
  fromisoformat "2025-8-5" = None /\
  fromisoformat "" = None /\
  fromisoformat "2025-02-30" = None /\
  fromisoformat "20250805" = Some (mkdate 2025 8 5) /\
  fromisoformat "2025-W01-1" = Some (mkdate 2024 12 30) /\
  fromisoformat "2025W01" = Some (mkdate 2024 12 30) /\
  fromisoformat "2020-W53-7" = Some (mkdate 2021 1 3) /\
  fromisoformat "2021-W53-1" = None /\
  fromisoformat "20250805xx" = Some (mkdate 2025 8 5) /\
  fromisoformat "2025-08-0٥" = None /\
  fromisoformat "202508050" = None.
Proof. repeat split. Qed.

Example valid_utf8_examples :
  valid_utf8 "Buy milk ✔" = true /\
  valid_utf8 not_utf8 = false /\
  valid_utf8 (strip (" a" ++ not_utf8 ++ " ")) = false /\
  decimal "٥x" = Some (5, "x") /\
  decimal "x" = None.
Proof. repeat split. Qed.

Example status_symbol_width :
  len (status_symbol (Task.mk 1 "a" "" None 3 true)) = 1%nat /\
  len (status_symbol (Task.mk 1 "a" "" None 3 false)) = 1%nat.
Proof. split; reflexivity. Qed.

Example parse_list_examples :
  parse_list_args [] = inl [("done", false)] /\
  parse_list_args [OptDone] = inl [("done", true)] /\
  parse_list_args [OptTodo] = inl [("done", false)] /\
  parse_list_args [OptDone; OptDone] = inl [("done", true)] /\
  parse_list_args [OptDone; OptTodo] = inr (OptTodo, OptDone).
Proof. repeat split. Qed.

(** ** Dates as text

    A stored due date is the text [isoformat] wrote.  Reading it back gives
    the date, and the order of the texts is the order of the dates, which is
    what lets [sort_key] compare due dates as strings. *)

Lemma digit_of_digit_char (k : Z) : 0 <= k <= 9 -> digit (digit_char k) = Some k.
Proof.
  intros Hk.
  assert (H : k = 0 \/ k = 1 \/ k = 2 \/ k = 3 \/ k = 4 \/ k = 5 \/ k = 6
              \/ k = 7 \/ k = 8 \/ k = 9) by lia.
  repeat (destruct H as [->|H]; [reflexivity|]). now subst.
Qed.

Lemma byte_of_digit_char (k : Z) : 0 <= k <= 9 -> byte_of (digit_char k) = 48 + k.
Proof.
  intros Hk.
  assert (H : k = 0 \/ k = 1 \/ k = 2 \/ k = 3 \/ k = 4 \/ k = 5 \/ k = 6
              \/ k = 7 \/ k = 8 \/ k = 9) by lia.
  repeat (destruct H as [->|H]; [reflexivity|]). now subst.
Qed.

Lemma take_digits_pad2 (n acc : Z) (r : string) :
  0 <= n < 100 -> take_digits 2 acc (pad2 n ++ r) = Some (100 * acc + n, r).
Proof.
  intros Hn. unfold pad2. cbn [append take_digits].
  assert (H1 : 0 <= n / 10 <= 9).
  { split; [apply Z.div_pos; lia | apply Z.lt_succ_r, Z.div_lt_upper_bound; lia]. }
  assert (H0 : 0 <= n mod 10 <= 9) by (pose proof (Z.mod_pos_bound n 10); lia).
  rewrite (digit_of_digit_char _ H1), (digit_of_digit_char _ H0).
  do 2 f_equal. pose proof (Z.div_mod n 10 ltac:(lia)). lia.
Qed.

Lemma append_assoc_pad (a b c : string) : ((a ++ b) ++ c = a ++ (b ++ c))%string.
Proof. induction a as [|x a IH]; simpl; [reflexivity | now rewrite IH]. Qed.

Lemma take_digits_add (a b : nat) (acc : Z) (s : string) :
  take_digits (a + b) acc s
  = match take_digits a acc s with
    | Some (v, r) => take_digits b v r
    | None => None
    end.
Proof.
  revert acc s. induction a as [|a IH]; intros acc s; [reflexivity|].
  cbn [Nat.add take_digits]. destruct s as [|c s]; [reflexivity|].
  destruct (digit c); [apply IH | reflexivity].
Qed.

Lemma take_digits_pad4 (n : Z) (r : string) :
  0 <= n <= 9999 -> take_digits 4 0 (pad4 n ++ r) = Some (n, r).
Proof.
  intros Hn. unfold pad4.
  assert (H1 : 0 <= n / 100 < 100).
  { split; [apply Z.div_pos; lia | apply Z.div_lt_upper_bound; lia]. }
  assert (H0 : 0 <= n mod 100 < 100) by (apply Z.mod_pos_bound; lia).
  pose proof (take_digits_pad2 (n / 100) 0 (pad2 (n mod 100) ++ r) H1) as E1.
  pose proof (take_digits_pad2 (n mod 100) (100 * 0 + n / 100) r H0) as E0.
  rewrite (take_digits_add 2 2), append_assoc_pad, E1, E0. do 2 f_equal.
  pose proof (Z.div_mod n 100 ltac:(lia)). lia.
Qed.

Lemma days_in_month_bound (y m : Z) : 28 <= days_in_month y m <= 31.
Proof.
  unfold days_in_month.
  destruct (m =? 2); [destruct (is_leap y); lia|].
  destruct ((m =? 4) || (m =? 6) || (m =? 9) || (m =? 11)); lia.
Qed.

Lemma valid_date_bounds (d : date) :
  valid_date d = true ->
  1 <= year d <= 9999 /\ 1 <= month d <= 12 /\ 1 <= day d <= 31.
Proof.
  unfold valid_date. rewrite !andb_true_iff, !Z.leb_le.
  pose proof (days_in_month_bound (year d) (month d)). lia.
Qed.

Lemma make_date_valid (d : date) :
  valid_date d = true -> make_date (year d) (month d) (day d) = Some d.
Proof.
  intros Hv. unfold make_date. destruct d as [y m dd]. simpl in *. now rewrite Hv.
Qed.

Lemma make_date_some (y m dd : Z) (d : date) :
  make_date y m dd = Some d -> d = mkdate y m dd /\ valid_date d = true.
Proof.
  unfold make_date. destruct (valid_date (mkdate y m dd)) eqn:E; [|discriminate].
  intros [= <-]. auto.
Qed.

Lemma after_char_same (c : ascii) (r : string) : after_char c (String c r) = Some r.
Proof. unfold after_char. now rewrite Ascii.eqb_refl. Qed.

(** The strings that the program makes itself are ASCII. *)
Lemma valid_utf8_ascii (c : ascii) (s : string) :
  byte_of c < 128 -> valid_utf8 (String c s) = valid_utf8 s.
Proof. intros Hc. cbn [valid_utf8]. apply Z.ltb_lt in Hc. now rewrite Hc. Qed.

Lemma digit_char_ascii (k : Z) : 0 <= k <= 9 -> byte_of (digit_char k) < 128.
Proof. intros Hk. rewrite byte_of_digit_char by assumption. lia. Qed.

Lemma valid_utf8_pad2 (n : Z) (r : string) :
  0 <= n < 100 -> valid_utf8 (pad2 n ++ r) = valid_utf8 r.
Proof.
  intros Hn. unfold pad2. cbn [append].
  assert (H1 : 0 <= n / 10 <= 9).
  { split; [apply Z.div_pos; lia | apply Z.lt_succ_r, Z.div_lt_upper_bound; lia]. }
  assert (H0 : 0 <= n mod 10 <= 9) by (pose proof (Z.mod_pos_bound n 10); lia).
  now rewrite !valid_utf8_ascii by now apply digit_char_ascii.
Qed.

Lemma valid_utf8_pad4 (n : Z) (r : string) :
  0 <= n <= 9999 -> valid_utf8 (pad4 n ++ r) = valid_utf8 r.
Proof.
  intros Hn. unfold pad4.
  assert (H1 : 0 <= n / 100 < 100).
  { split; [apply Z.div_pos; lia | apply Z.div_lt_upper_bound; lia]. }
  assert (H0 : 0 <= n mod 100 < 100) by (apply Z.mod_pos_bound; lia).
  now rewrite append_assoc_pad, !valid_utf8_pad2.
Qed.

(** What [isoformat] writes is ASCII, so [json.dump] can write it. *)
Lemma valid_utf8_isoformat (d : date) :
  valid_date d = true -> valid_utf8 (isoformat d) = true.
Proof.
  intros Hv. destruct (valid_date_bounds d Hv) as (Hy & Hm & Hd).
  change (isoformat d)
    with (pad4 (year d) ++ String "-" (pad2 (month d) ++ String "-" (pad2 (day d) ++ ""))).
  rewrite valid_utf8_pad4 by lia. rewrite valid_utf8_ascii by (cbv; reflexivity).
  rewrite valid_utf8_pad2 by lia. rewrite valid_utf8_ascii by (cbv; reflexivity).
  rewrite valid_utf8_pad2 by lia. reflexivity.
Qed.

Lemma after_char_W_pad2 (n : Z) (r : string) :
  0 <= n < 100 -> after_char "W" (pad2 n ++ r) = None.
Proof.
  intros Hn. unfold pad2. cbn [append after_char].
  assert (H1 : 0 <= n / 10 <= 9).
  { split; [apply Z.div_pos; lia | apply Z.lt_succ_r, Z.div_lt_upper_bound; lia]. }
  assert (H : n / 10 = 0 \/ n / 10 = 1 \/ n / 10 = 2 \/ n / 10 = 3 \/ n / 10 = 4
              \/ n / 10 = 5 \/ n / 10 = 6 \/ n / 10 = 7 \/ n / 10 = 8 \/ n / 10 = 9)
    by lia.
  repeat (destruct H as [->|H]; [reflexivity|]). now rewrite H.
Qed.

(** [date.fromisoformat(d.isoformat()) == d] *)
Lemma fromisoformat_isoformat (d : date) :
  valid_date d = true -> fromisoformat (isoformat d) = Some d.
Proof.
  intros Hv. destruct (valid_date_bounds d Hv) as (Hy & Hm & Hd).
  unfold fromisoformat. rewrite (valid_utf8_isoformat d Hv).
  change (String.length (isoformat d)) with 10%nat. cbn [Nat.eqb orb andb].
  change (isoformat d)
    with (pad4 (year d) ++ String "-" (pad2 (month d) ++ String "-" (pad2 (day d) ++ ""))).
  rewrite take_digits_pad4, !after_char_same by lia.
  rewrite after_char_W_pad2 by lia.
  rewrite take_digits_pad2, !after_char_same by lia.
  rewrite take_digits_pad2 by lia.
  replace (100 * 0 + month d) with (month d) by lia.
  replace (100 * 0 + day d) with (day d) by lia.
  now apply make_date_valid.
Qed.

(** What [strptime] accepts is a date of the calendar. *)
Lemma strptime_valid (s : string) (d : date) :
  strptime s = Some d -> valid_date d = true.
Proof.
  unfold strptime. destruct (match_ymd s) as [[[[y m] dd] [|c r]]|]; try discriminate.
  intros H. now apply make_date_some in H.
Qed.

(** *** The order of the texts *)

Lemma string_cmp_app (a1 a2 r1 r2 : string) :
  String.length a1 = String.length a2 ->
  String.compare (a1 ++ r1) (a2 ++ r2)
  = match String.compare a1 a2 with
    | Eq => String.compare r1 r2
    | c => c
    end.
Proof.
  revert a2. induction a1 as [|c1 a1 IH]; intros [|c2 a2]; simpl; try discriminate.
  - reflexivity.
  - intros [= Hl]. destruct (Ascii.compare c1 c2); auto.
Qed.

Lemma ascii_cmp_digit_char (a b : Z) :
  0 <= a <= 9 -> 0 <= b <= 9 ->
  Ascii.compare (digit_char a) (digit_char b) = Z.compare a b.
Proof.
  intros Ha Hb. unfold Ascii.compare.
  pose proof (byte_of_digit_char a Ha) as Ea.
  pose proof (byte_of_digit_char b Hb) as Eb.
  unfold byte_of in Ea, Eb.
  rewrite <- (N2Z.inj_compare), Ea, Eb.
  destruct (Z.compare_spec a b) as [E|E|E];
    [apply Z.compare_eq_iff | apply Z.compare_lt_iff | apply Z.compare_gt_iff]; lia.
Qed.

(** Comparing by quotient, then by remainder. *)
Lemma compare_div_mod (k a b : Z) :
  0 < k ->
  Z.compare a b
  = match Z.compare (a / k) (b / k) with
    | Eq => Z.compare (a mod k) (b mod k)
    | c => c
    end.
Proof.
  intros Hk.
  pose proof (Z.div_mod a k ltac:(lia)). pose proof (Z.div_mod b k ltac:(lia)).
  pose proof (Z.mod_pos_bound a k Hk). pose proof (Z.mod_pos_bound b k Hk).
  destruct (Z.compare_spec (a / k) (b / k)) as [E|E|E].
  - destruct (Z.compare_spec (a mod k) (b mod k)) as [F|F|F];
      [apply Z.compare_eq_iff | apply Z.compare_lt_iff | apply Z.compare_gt_iff]; nia.
  - apply Z.compare_lt_iff. nia.
  - apply Z.compare_gt_iff. nia.
Qed.

Lemma cmp_pad2 (a b : Z) :
  0 <= a < 100 -> 0 <= b < 100 -> String.compare (pad2 a) (pad2 b) = Z.compare a b.
Proof.
  intros Ha Hb. unfold pad2. simpl.
  assert (0 <= a / 10 <= 9).
  { split; [apply Z.div_pos; lia | apply Z.lt_succ_r, Z.div_lt_upper_bound; lia]. }
  assert (0 <= b / 10 <= 9).
  { split; [apply Z.div_pos; lia | apply Z.lt_succ_r, Z.div_lt_upper_bound; lia]. }
  assert (0 <= a mod 10 <= 9) by (pose proof (Z.mod_pos_bound a 10); lia).
  assert (0 <= b mod 10 <= 9) by (pose proof (Z.mod_pos_bound b 10); lia).
  rewrite !ascii_cmp_digit_char by assumption.
  rewrite (compare_div_mod 10 a b) by lia.
  destruct (a / 10 ?= b / 10); try reflexivity.
  now destruct (a mod 10 ?= b mod 10).
Qed.

Lemma cmp_pad4 (a b : Z) :
  0 <= a <= 9999 -> 0 <= b <= 9999 -> String.compare (pad4 a) (pad4 b) = Z.compare a b.
Proof.
  intros Ha Hb. unfold pad4.
  assert (0 <= a / 100 < 100).
  { split; [apply Z.div_pos; lia | apply Z.div_lt_upper_bound; lia]. }
  assert (0 <= b / 100 < 100).
  { split; [apply Z.div_pos; lia | apply Z.div_lt_upper_bound; lia]. }
  assert (0 <= a mod 100 < 100) by (apply Z.mod_pos_bound; lia).
  assert (0 <= b mod 100 < 100) by (apply Z.mod_pos_bound; lia).
  rewrite string_cmp_app by reflexivity.
  rewrite !cmp_pad2 by assumption.
  now rewrite (compare_div_mod 100 a b) by lia.
Qed.

Lemma string_cmp_cons (c : ascii) (a b : string) :
  String.compare (String c a) (String c b) = String.compare a b.
Proof. simpl. unfold Ascii.compare. now rewrite N.compare_refl. Qed.

Lemma cmp_ymd (d1 d2 : date) :
  cmp (ymd d1) (ymd d2)
  = match year d1 ?= year d2 with
    | Eq => match month d1 ?= month d2 with
            | Eq => day d1 ?= day d2
            | c => c
            end
    | c => c
    end.
Proof.
  unfold ymd. cbv [cmp PyOrd_pair PyOrd_Z cmp_pair fst snd].
  destruct (year d1 ?= year d2); reflexivity.
Qed.

(** ISO texts of dates compare as the dates do. *)
Lemma cmp_isoformat (d1 d2 : date) :
  valid_date d1 = true -> valid_date d2 = true ->
  cmp (isoformat d1) (isoformat d2) = cmp (ymd d1) (ymd d2).
Proof.
  intros H1 H2.
  destruct (valid_date_bounds d1 H1) as (Hy1 & Hm1 & Hd1).
  destruct (valid_date_bounds d2 H2) as (Hy2 & Hm2 & Hd2).
  change (cmp (isoformat d1) (isoformat d2))
    with (String.compare
            (pad4 (year d1) ++ String "-" (pad2 (month d1) ++ String "-" (pad2 (day d1))))
            (pad4 (year d2) ++ String "-" (pad2 (month d2) ++ String "-" (pad2 (day d2))))).
  rewrite cmp_ymd.
  rewrite string_cmp_app, cmp_pad4 by (reflexivity || lia).
  destruct (year d1 ?= year d2); try reflexivity.
  rewrite string_cmp_cons, string_cmp_app, cmp_pad2 by (reflexivity || lia).
  destruct (month d1 ?= month d2); try reflexivity.
  rewrite string_cmp_cons. apply cmp_pad2; lia.
Qed.

(** ** The store *)

Lemma load_tasks_returns (w : World) : load_tasks w = Returned (load (file w)) w.
Proof.
  unfold load_tasks, load, load_tasks_from.
  destruct (file w) as [| |[l|v]]; simpl; try reflexivity.
  destruct (forallb writable_task l); reflexivity.
Qed.

(** What is read from a file can be written again. *)
Lemma load_writable (f : File) : forallb writable_task (load f) = true.
Proof.
  destruct f as [| |[l|v]]; try reflexivity.
  unfold load. cbn [path_exists json_load].
  destruct (forallb writable_task l) eqn:E; [exact E | reflexivity].
Qed.

Lemma load_json (tasks : list Task) :
  forallb writable_task tasks = true -> load (Json (TaskArray tasks)) = tasks.
Proof. intros E. unfold load. cbn [path_exists json_load]. now rewrite E. Qed.

Lemma load_json_cut (tasks : list Task) :
  forallb writable_task tasks = false -> load (Json (TaskArray tasks)) = [].
Proof. intros E. unfold load. cbn [path_exists json_load]. now rewrite E. Qed.

Lemma load_save (tasks : list Task) (w : World) :
  forallb writable_task tasks = true ->
  load (file (with_file (Json (TaskArray tasks)) w)) = tasks.
Proof. apply load_json. Qed.

Lemma load_saved (tasks : list Task) (line : string) (w : World) :
  forallb writable_task tasks = true -> load (file (saved tasks line w)) = tasks.
Proof. apply load_json. Qed.

Lemma load_crashed (tasks : list Task) (w : World) :
  forallb writable_task tasks = false -> load (file (crashed tasks w)) = [].
Proof. apply load_json_cut. Qed.

Lemma save_tasks_cases (tasks : list Task) (w : World) :
  save_tasks tasks w
  = if forallb writable_task tasks
    then Returned tt (with_file (Json (TaskArray tasks)) w)
    else Exited 1 (crashed tasks w).
Proof. unfold save_tasks. destruct (forallb writable_task tasks); reflexivity. Qed.

Lemma writable_app (l l' : list Task) :
  forallb writable_task (l ++ l') = forallb writable_task l && forallb writable_task l'.
Proof. apply forallb_app. Qed.

Lemma writable_filter (p : Task -> bool) (l : list Task) :
  forallb writable_task l = true -> forallb writable_task (filter p l) = true.
Proof.
  rewrite !forallb_forall. intros H t Ht. apply filter_In in Ht. now apply H.
Qed.

Lemma writable_set_done (b : bool) (t : Task) :
  writable_task (Task.set_done b t) = writable_task t.
Proof. reflexivity. Qed.

(** ** Finding a task by id *)

Lemma find_task_some (i : Z) (tasks before after : list Task) (t : Task) :
  find_task i tasks = Some (before, t, after) ->
  tasks = (before ++ t :: after)%list /\ Task.id t = i /\
  Forall (fun x => Task.id x <> i) before.
Proof.
  revert before. induction tasks as [|x rest IH]; simpl; intros before Hf.
  - discriminate.
  - destruct (Task.id x =? i) eqn:E.
    + injection Hf as <- <- <-. apply Z.eqb_eq in E. auto.
    + destruct (find_task i rest) as [[[b f] a]|]; [|discriminate].
      injection Hf as <- <- <-.
      destruct (IH b eq_refl) as (-> & Hid & Hb).
      apply Z.eqb_neq in E. auto.
Qed.

Lemma find_task_none (i : Z) (tasks : list Task) :
  find_task i tasks = None <-> ~ In i (map Task.id tasks).
Proof.
  induction tasks as [|x rest IH]; simpl.
  - tauto.
  - destruct (Task.id x =? i) eqn:E.
    + apply Z.eqb_eq in E. split; [discriminate | tauto].
    + apply Z.eqb_neq in E.
      destruct (find_task i rest) as [[[b f] a]|].
      * split; [discriminate|]. intros Hn. exfalso.
        assert (Hin : In i (map Task.id rest)).
        { destruct (in_dec Z.eq_dec i (map Task.id rest)) as [H|H]; [exact H|].
          apply IH in H. discriminate. }
        tauto.
      * split; [|reflexivity]. intros _ [H|H]; [tauto|].
        now apply (proj1 IH).
Qed.

Lemma find_task_in (i : Z) (tasks : list Task) :
  In i (map Task.id tasks) ->
  exists before t after, find_task i tasks = Some (before, t, after).
Proof.
  intros Hin. destruct (find_task i tasks) as [[[b t] a]|] eqn:E.
  - now exists b, t, a.
  - apply find_task_none in E. contradiction.
Qed.

Lemma filter_length_all {A} (p : A -> bool) (l : list A) :
  List.length (filter p l) = List.length l <-> Forall (fun x => p x = true) l.
Proof.
  induction l as [|x l IH]; simpl.
  - split; auto.
  - pose proof (filter_length_le p l) as Hle.
    destruct (p x) eqn:E; simpl.
    + split.
      * intros [= H]. constructor; [assumption | now apply IH].
      * intros H. inversion H; subst. f_equal. now apply IH.
    + split.
      * intros H. lia.
      * intros H. inversion H; subst. congruence.
Qed.

Lemma keep_other_ids_all (i : Z) (tasks : list Task) :
  Forall (fun t => negb (Task.id t =? i) = true) tasks <-> ~ In i (map Task.id tasks).
Proof.
  rewrite Forall_forall, in_map_iff. split.
  - intros H (t & Hid & Hin). specialize (H t Hin).
    rewrite <- Hid, Z.eqb_refl in H. discriminate.
  - intros H t Hin. destruct (Task.id t =? i) eqn:E; [|reflexivity].
    apply Z.eqb_eq in E. exfalso. apply H. now exists t.
Qed.

(** ** What each command does, as one equation per case *)

Lemma run_load_tasks (k : list Task -> Proc unit) (w : World) :
  run (bind load_tasks k) w = run (k (load (file w))) w.
Proof. unfold run, bind. now rewrite load_tasks_returns. Qed.

Lemma run_save_print (tasks : list Task) (line : string) (w : World) :
  run (save_tasks tasks;; print line) w
  = if forallb writable_task tasks then (0, saved tasks line w)
    else (1, crashed tasks w).
Proof.
  unfold run, bind. rewrite save_tasks_cases.
  destruct (forallb writable_task tasks); reflexivity.
Qed.

Lemma parse_date_cases (s : option string) (w : World) :
  parse_date s w =
  match s with
  | None | Some "" => Returned None w
  | Some s' =>
      match strptime s' with
      | Some d => Returned (Some (isoformat d)) w
      | None => Exited 2 (with_err date_error w)
      end
  end.
Proof.
  destruct s as [[|c s]|]; try reflexivity.
  unfold parse_date. destruct (strptime (String c s)); reflexivity.
Qed.

Lemma parse_date_due_arg (s : string) (w : World) :
  parse_date (Some s) w =
  match due_arg (Some s) with
  | DueValue d => Returned d w
  | _ => Exited 2 (with_err date_error w)
  end.
Proof.
  rewrite parse_date_cases. unfold due_arg.
  destruct s as [|c s]; [reflexivity|].
  destruct (strptime (String c s)); reflexivity.
Qed.

Lemma due_arg_written (due : option string) (d : option string) :
  due_arg due = DueValue d -> written_due d.
Proof.
  unfold due_arg. destruct due as [[|c s]|]; try discriminate.
  - intros [= <-]. now left.
  - destruct (strptime (String c s)) as [dt|] eqn:E; [|discriminate].
    intros [= <-]. right. exists dt. split; [|reflexivity].
    now apply strptime_valid in E.
Qed.

(** A due date as [parse_date] returns it can be written. *)
Lemma written_due_valid (d : option string) :
  written_due d -> match d with Some s => valid_utf8 s | None => true end = true.
Proof.
  intros [->|(dt & Hv & ->)]; [reflexivity | now apply valid_utf8_isoformat].
Qed.

Lemma writable_found (i : Z) (f : File) (before after : list Task) (t : Task) :
  find_task i (load f) = Some (before, t, after) ->
  forallb writable_task before = true /\ writable_task t = true /\
  forallb writable_task after = true.
Proof.
  intros Hf. apply find_task_some in Hf. destruct Hf as (Hl & _ & _).
  pose proof (load_writable f) as Hw. rewrite Hl, forallb_app in Hw.
  simpl in Hw. rewrite !andb_true_iff in Hw. tauto.
Qed.

Lemma writable_around (before after : list Task) (t t' : Task) :
  forallb writable_task before = true -> forallb writable_task after = true ->
  forallb writable_task (before ++ t' :: after) = writable_task t'.
Proof.
  intros Hb Ha. rewrite forallb_app. simpl. rewrite Hb, Ha.
  now rewrite andb_true_r.
Qed.

Lemma writable_edited (text : option string) (due : option string)
    (priority : option Z) (t : Task) :
  writable_task t = true -> due_arg due <> DueRefused ->
  writable_task (edited text (due_arg due) priority t) = writable_text text.
Proof.
  intros Ht Hd. unfold writable_task in *. rewrite !andb_true_iff in Ht.
  destruct Ht as [[Htext Hc] Hdue].
  unfold edited. cbn [Task.text Task.created_at Task.due]. rewrite Hc.
  assert (E : match match due_arg due with DueValue d => d | _ => Task.due t end with
              | Some s => valid_utf8 s
              | None => true
              end = true).
  { destruct (due_arg due) as [|d|] eqn:Ed; [exact Hdue| |contradiction].
    now apply written_due_valid, (due_arg_written due). }
  rewrite E, !andb_true_r.
  destruct text as [s|]; [reflexivity | exact Htext].
Qed.

Lemma done_absent (i : Z) (w : World) :
  ~ In i (map Task.id (load (file w))) ->
  run (done i) w = (1, with_err (not_found_error i) w).
Proof.
  intros Hn. apply find_task_none in Hn.
  unfold done. rewrite run_load_tasks, Hn. reflexivity.
Qed.

Lemma delete_absent (i : Z) (w : World) :
  ~ In i (map Task.id (load (file w))) ->
  run (delete i) w = (1, with_err (not_found_error i) w).
Proof.
  intros Hn. apply keep_other_ids_all, filter_length_all in Hn.
  unfold delete. rewrite run_load_tasks. cbv zeta.
  unfold run, bind. rewrite Hn, Nat.eqb_refl. reflexivity.
Qed.

Lemma delete_present (i : Z) (w : World) :
  In i (map Task.id (load (file w))) ->
  run (delete i) w =
  (0, with_out ("Deleted #" ++ str i ++ ".")
        (with_file (Json (TaskArray
           (filter (fun t => negb (Task.id t =? i)) (load (file w))))) w)).
Proof.
  intros Hin. unfold delete. rewrite run_load_tasks. cbv zeta.
  destruct (Nat.eqb_spec
              (List.length (filter (fun t => negb (Task.id t =? i)) (load (file w))))
              (List.length (load (file w)))) as [E|E].
  - apply filter_length_all, keep_other_ids_all in E. contradiction.
  - transitivity
      (run (save_tasks (filter (fun t => negb (Task.id t =? i)) (load (file w)));;
            print ("Deleted #" ++ str i ++ ".")) w).
    { reflexivity. }
    rewrite run_save_print, writable_filter by apply load_writable. reflexivity.
Qed.

Lemma edit_absent (i : Z) (text due : option string) (priority : option Z) (w : World) :
  ~ In i (map Task.id (load (file w))) ->
  run (edit i text due priority) w = (1, with_err (not_found_error i) w).
Proof.
  intros Hn. apply find_task_none in Hn.
  unfold edit. rewrite run_load_tasks, Hn. reflexivity.
Qed.

(** [edit] on a task that is there: the date is refused, or the
    collection is saved, or saving fails on the text. *)
Lemma edit_present (i : Z) (text due : option string) (priority : option Z)
    (w : World) (before after : list Task) (t : Task) :
  find_task i (load (file w)) = Some (before, t, after) ->
  run (edit i text due priority) w =
  match due_arg due with
  | DueRefused => (2, with_err date_error w)
  | a =>
      if writable_text text
      then (0, saved (before ++ edited text a priority t :: after)
                     ("Updated #" ++ str i ++ ".") w)
      else (1, crashed (before ++ edited text a priority t :: after) w)
  end.
Proof.
  intros Hf. destruct (writable_found _ _ _ _ _ Hf) as (Hb & Ht & Ha).
  assert (Hsave : forall a, a = due_arg due -> a <> DueRefused ->
            run (save_tasks (before ++ edited text a priority t :: after);;
                 print ("Updated #" ++ str i ++ ".")) w
            = if writable_text text
              then (0, saved (before ++ edited text a priority t :: after)
                             ("Updated #" ++ str i ++ ".") w)
              else (1, crashed (before ++ edited text a priority t :: after) w)).
  { intros a -> Hd. rewrite run_save_print, (writable_around _ _ t) by assumption.
    now rewrite writable_edited. }
  unfold edit. rewrite run_load_tasks, Hf.
  destruct t as [ti tt tc td tp tf].
  destruct due as [s|].
  - unfold run, bind. rewrite parse_date_due_arg.
    destruct (due_arg (Some s)) as [|d|] eqn:E.
    + destruct s as [|c s]; simpl in E; [discriminate|].
      destruct (strptime (String c s)); discriminate.
    + specialize (Hsave (DueValue d) eq_refl ltac:(discriminate)).
      unfold run, bind in Hsave. cbn [ret]. rewrite <- Hsave.
      destruct text, priority; reflexivity.
    + reflexivity.
  - specialize (Hsave DueUnset eq_refl ltac:(discriminate)).
    cbn [due_arg]. rewrite <- Hsave.
    destruct text, priority; reflexivity.
Qed.

(** [add]: the date is refused, or the collection is saved with one task
    more, or saving fails on the text (or on the reading of the clock,
    were it no text). *)
Lemma add_cases (text : string) (due : option string) (priority : Z) (w : World) :
  run (add text due priority) w =
  match due_arg due with
  | DueRefused => (2, with_err date_error w)
  | a =>
      let i := next_id (load (file w)) in
      let d := match a with DueValue d => d | _ => None end in
      let tasks :=
        (load (file w) ++ [Task.mk i (strip text) (now w) d priority false])%list in
      if valid_utf8 (strip text) && valid_utf8 (now w)
      then (0, saved tasks ("Added #" ++ str i ++ ": " ++ strip text) w)
      else (1, crashed tasks w)
  end.
Proof.
  assert (Hsave : forall d, written_due d ->
            run (save_tasks (load (file w)
                             ++ [Task.mk (next_id (load (file w))) (strip text)
                                         (now w) d priority false]);;
                 print ("Added #" ++ str (next_id (load (file w))) ++ ": "
                        ++ strip text)) w
            = if valid_utf8 (strip text) && valid_utf8 (now w)
              then (0, saved (load (file w)
                              ++ [Task.mk (next_id (load (file w))) (strip text)
                                          (now w) d priority false])
                             ("Added #" ++ str (next_id (load (file w))) ++ ": "
                              ++ strip text) w)
              else (1, crashed (load (file w)
                                ++ [Task.mk (next_id (load (file w))) (strip text)
                                            (now w) d priority false]) w)).
  { intros d Hd. rewrite run_save_print, forallb_app, load_writable.
    cbn [forallb andb]. unfold writable_task. cbn [Task.text Task.created_at Task.due].
    now rewrite (written_due_valid d Hd), !andb_true_r. }
  unfold add. rewrite run_load_tasks. cbv zeta.
  destruct due as [s|].
  - unfold run, bind, read_clock. rewrite parse_date_due_arg.
    destruct (due_arg (Some s)) as [|d|] eqn:E.
    + destruct s as [|c s]; simpl in E; [discriminate|].
      destruct (strptime (String c s)); discriminate.
    + specialize (Hsave d (due_arg_written _ _ E)).
      unfold run, bind in Hsave. exact Hsave.
    + reflexivity.
  - cbn [due_arg]. cbv zeta. rewrite <- (Hsave None (or_introl eq_refl)). reflexivity.
Qed.

Lemma done_present (i : Z) (w : World) (before after : list Task) (t : Task) :
  find_task i (load (file w)) = Some (before, t, after) ->
  run (done i) w =
  (0, saved (before ++ Task.set_done true t :: after)
            ("Marked #" ++ str i ++ " as done.") w).
Proof.
  intros Hf. destruct (writable_found _ _ _ _ _ Hf) as (Hb & Ht & Ha).
  unfold done. rewrite run_load_tasks, Hf. cbv zeta.
  rewrite run_save_print, (writable_around _ _ t) by assumption.
  now rewrite writable_set_done, Ht.
Qed.

(** ** The store tolerates a bad file *)

(** C6, as the code has it: [load_tasks] returns and leaves the world as
    it is when the file does not exist (the empty list), when [json.load]
    raises [JSONDecodeError] (the empty list), when the value read is no
    array (the empty list) and when it is an array (the array itself).  Any
    other exception of [json.load] is not caught: it ends the command with
    exit code 1 and a traceback on the error stream, the file and the
    output as they were; a file whose bytes are no UTF-8 is such a case,
    whatever the parser.  On the text files of a world this gives: the
    empty list for no file, for text that is not JSON (the file that a
    failed save cut short is such a text) and for a value that is no
    array, and the array for a document that holds one. *)
Theorem load_tasks_tolerant (w : World) :
  (forall parsed, load_tasks_from false parsed w = Returned [] w) /\
  load_tasks_from true JSONDecodeError w = Returned [] w /\
  (forall v, load_tasks_from true (Loaded (NotArray v)) w = Returned [] w) /\
  (forall tasks, load_tasks_from true (Loaded (TaskArray tasks)) w = Returned tasks w) /\
  (forall exception,
     exists w', load_tasks_from true (OtherError exception) w = Exited 1 w' /\
                failed w w') /\
  (forall loads bytes,
     valid_utf8 bytes = false ->
     exists w', load_tasks_from true (json_load_bytes loads bytes) w = Exited 1 w' /\
                failed w w') /\
  load_tasks (with_file Missing w) = Returned [] (with_file Missing w) /\
  load_tasks (with_file Malformed w) = Returned [] (with_file Malformed w) /\
  (forall v, load_tasks (with_file (Json (NotArray v)) w)
             = Returned [] (with_file (Json (NotArray v)) w)) /\
  (forall tasks,
     load_tasks (with_file (Json (TaskArray tasks)) w)
     = Returned (if forallb writable_task tasks then tasks else [])
                (with_file (Json (TaskArray tasks)) w)).
Proof.
  assert (Hraise : forall exception,
            exists w', load_tasks_from true (OtherError exception) w = Exited 1 w' /\
                       failed w w').
  { intros exception. eexists. split; [reflexivity|].
    split; [reflexivity|]. split; [reflexivity|].
    exists ["Traceback (most recent call last):"; exception].
    split; [discriminate|]. simpl. now rewrite <- app_assoc. }
  split; [reflexivity|]. split; [reflexivity|]. split; [reflexivity|].
  split; [reflexivity|]. split; [exact Hraise|]. split.
  - intros loads bytes Hb. unfold json_load_bytes. rewrite Hb. apply Hraise.
  - repeat split; intros; rewrite load_tasks_returns; try reflexivity.
    unfold load. cbn [with_file file path_exists json_load].
    destruct (forallb writable_task tasks); reflexivity.
Qed.

(** C6 as stated fails: a file that holds the single byte FF fails to
    parse, and [load_tasks] raises: the [UnicodeDecodeError] of [json.load]
    is no [JSONDecodeError], so the command ends there with exit code 1 and
    a traceback, and returns no collection. *)
Lemma load_raises_on_bytes_that_are_no_text :
  valid_utf8 not_utf8 = false /\
  (forall loads, json_load_bytes loads not_utf8 = OtherError "UnicodeDecodeError") /\
  load_tasks_from true (OtherError "UnicodeDecodeError") two_tasks
  = Exited 1 (with_err "UnicodeDecodeError"
                (with_err "Traceback (most recent call last):" two_tasks)) /\
  (forall tasks w',
     load_tasks_from true (OtherError "UnicodeDecodeError") two_tasks
     <> Returned tasks w').
Proof.
  split; [reflexivity|]. split; [reflexivity|]. split; [reflexivity|].
  intros tasks w'. discriminate.
Qed.

(** ** Errors leave the file alone *)

(** C5: when no task has the id, [done], [delete] and [edit] each print the
    not-found message to the error stream and exit with code 1; the world
    left behind differs from the one found only by that message, so the
    file is as it was. *)
Theorem absent_id_exits_1 (w : World) (i : Z) :
  ~ In i (map Task.id (load (file w))) ->
  run (done i) w = (1, with_err (not_found_error i) w) /\
  run (delete i) w = (1, with_err (not_found_error i) w) /\
  (forall text due priority,
     run (edit i text due priority) w = (1, with_err (not_found_error i) w)) /\
  file (with_err (not_found_error i) w) = file w.
Proof.
  intros Hn. split; [|split; [|split]].
  - now apply done_absent.
  - now apply delete_absent.
  - intros. now apply edit_absent.
  - reflexivity.
Qed.

Lemma absent_id_exits_1_witness :
  run (done 7) two_tasks = (1, with_err "Task #7 not found." two_tasks) /\
  run (delete 7) two_tasks = (1, with_err "Task #7 not found." two_tasks) /\
  (forall text due priority,
     run (edit 7 text due priority) two_tasks
     = (1, with_err "Task #7 not found." two_tasks)) /\
  file (with_err "Task #7 not found." two_tasks) = file two_tasks.
Proof.
  apply (absent_id_exits_1 two_tasks 7).
  simpl. intros [H|[H|[]]]; discriminate.
Defined.

(** C4, as the code has it: a due-date argument that is not empty and that
    [strptime] refuses makes [add] print the date message to the error
    stream and exit with code 2, and makes [edit] do the same when a task
    has the id; the world left behind differs only by that message, so the
    file is as it was.  ([edit] with an id no task has exits with code 1
    whatever the date, the file again as it was.) *)
Theorem bad_due_exits_2 (w : World) (s : string) :
  s <> "" ->
  strptime s = None ->
  (forall text priority,
     run (add text (Some s) priority) w = (2, with_err date_error w)) /\
  (forall i text priority,
     In i (map Task.id (load (file w))) ->
     run (edit i text (Some s) priority) w = (2, with_err date_error w)) /\
  (forall i text priority,
     ~ In i (map Task.id (load (file w))) ->
     run (edit i text (Some s) priority) w = (1, with_err (not_found_error i) w)) /\
  file (with_err date_error w) = file w.
Proof.
  intros Hs Hp.
  assert (Hd : due_arg (Some s) = DueRefused).
  { unfold due_arg. destruct s; [congruence | now rewrite Hp]. }
  split; [|split; [|split]].
  - intros. now rewrite add_cases, Hd.
  - intros i text priority Hin.
    destruct (find_task_in _ _ Hin) as (b & t & a & Hf).
    now rewrite (edit_present _ _ _ _ _ _ _ _ Hf), Hd.
  - intros. now apply edit_absent.
  - reflexivity.
Qed.

Lemma bad_due_exits_2_witness :
  (forall text priority,
     run (add text (Some "tomorrow") priority) two_tasks
     = (2, with_err date_error two_tasks)) /\
  (forall i text priority,
     In i (map Task.id (load (file two_tasks))) ->
     run (edit i text (Some "tomorrow") priority) two_tasks
     = (2, with_err date_error two_tasks)) /\
  (forall i text priority,
     ~ In i (map Task.id (load (file two_tasks))) ->
     run (edit i text (Some "tomorrow") priority) two_tasks
     = (1, with_err (not_found_error i) two_tasks)) /\
  file (with_err date_error two_tasks) = file two_tasks.
Proof.
  apply (bad_due_exits_2 two_tasks "tomorrow"); [discriminate | reflexivity].
Defined.

(** C4 as stated fails: the empty string is no date ([strptime] refuses
    it), yet [add] and [edit] accept it as a due-date argument, exit with
    code 0 and rewrite the file; and [edit] with a refused date and an id no
    task has exits with code 1, not 2. *)
Lemma empty_due_is_accepted :
  strptime "" = None /\
  run (add "Call home" (Some "") 3) two_tasks
  = (0, saved [milk; report;
               Task.mk 3 "Call home" "2025-01-02T10:00:00" None 3 false]
              "Added #3: Call home" two_tasks) /\
  run (edit 1 None (Some "") None) two_tasks
  = (0, saved [Task.set_due None milk; report] "Updated #1." two_tasks) /\
  strptime "tomorrow" = None /\
  run (edit 7 None (Some "tomorrow") None) two_tasks
  = (1, with_err "Task #7 not found." two_tasks).
Proof. repeat split. Qed.

(** ** [edit] *)

(** The first task with the id, with what stands before and after it. *)
Lemma first_with_id (i : Z) (tasks : list Task) :
  In i (map Task.id tasks) ->
  exists before t after,
    find_task i tasks = Some (before, t, after) /\
    tasks = (before ++ t :: after)%list /\ Task.id t = i /\
    Forall (fun x => Task.id x <> i) before.
Proof.
  intros Hin. destruct (find_task_in _ _ Hin) as (b & t & a & Hf).
  exists b, t, a. split; [exact Hf|]. now apply find_task_some.
Qed.

Lemma edited_fields (text : option string) (a : DueArg) (priority : option Z)
    (t : Task) :
  Task.id (edited text a priority t) = Task.id t /\
  Task.created_at (edited text a priority t) = Task.created_at t /\
  Task.done (edited text a priority t) = Task.done t /\
  Task.text (edited text a priority t)
  = match text with Some s => strip s | None => Task.text t end /\
  Task.priority (edited text a priority t)
  = match priority with Some p => p | None => Task.priority t end /\
  Task.due (edited text a priority t)
  = match a with DueValue d => d | _ => Task.due t end.
Proof. repeat split. Qed.

(** C8, as the code has it: when a task has the id, the text, if given,
    can be written once trimmed (it is UTF-8) and the due argument, if
    given, is empty or a date, [edit] exits with code 0 and saves the collection with the first
    task of that id replaced by a task [t'] and every other task, before and
    after it, as it was.  [t'] has the text given, trimmed, the due date
    given, parsed again, and the priority given; a field not given, and the
    id, the creation time and the done flag, are those of the task
    replaced. *)
Theorem edit_changes_only_given_fields
    (w : World) (i : Z) (text due : option string) (priority : option Z) :
  In i (map Task.id (load (file w))) ->
  writable_text text = true ->
  (forall s, due = Some s -> s = "" \/ strptime s <> None) ->
  exists before t t' after,
    load (file w) = (before ++ t :: after)%list /\
    Task.id t = i /\
    Forall (fun x => Task.id x <> i) before /\
    run (edit i text due priority) w
    = (0, saved (before ++ t' :: after) ("Updated #" ++ str i ++ ".") w) /\
    Task.text t' = match text with Some s => strip s | None => Task.text t end /\
    Task.due t' = match due with
                  | None => Task.due t
                  | Some "" => None
                  | Some s => option_map isoformat (strptime s)
                  end /\
    Task.priority t' = match priority with Some p => p | None => Task.priority t end /\
    Task.id t' = Task.id t /\
    Task.created_at t' = Task.created_at t /\
    Task.done t' = Task.done t.
Proof.
  intros Hin Htext Hdue.
  destruct (first_with_id _ _ Hin) as (before & t & after & Hf & Hl & Hid & Hb).
  exists before, t, (edited text (due_arg due) priority t), after.
  destruct (edited_fields text (due_arg due) priority t)
    as (Ei & Ec & Ed & Et & Ep & Edue).
  repeat (split; [assumption|]).
  split; [|split; [assumption|split; [|auto]]].
  - rewrite (edit_present _ _ _ _ _ _ _ _ Hf), Htext.
    destruct due as [s|]; [|reflexivity].
    destruct (Hdue s eq_refl) as [-> | Hs]; [reflexivity|].
    unfold due_arg. destruct s as [|c s]; [reflexivity|].
    destruct (strptime (String c s)); [reflexivity | congruence].
  - rewrite Edue. destruct due as [[|c s]|]; try reflexivity.
    unfold due_arg. destruct (strptime (String c s)) eqn:E; [reflexivity|].
    destruct (Hdue _ eq_refl); congruence.
Qed.

Lemma edit_changes_only_given_fields_witness :
  exists before t t' after,
    load (file two_tasks) = (before ++ t :: after)%list /\
    Task.id t = 2 /\
    Forall (fun x => Task.id x <> 2) before /\
    run (edit 2 (Some " Write the report ") (Some "2025-3-1") None) two_tasks
    = (0, saved (before ++ t' :: after) "Updated #2." two_tasks) /\
    Task.text t' = "Write the report" /\
    Task.due t' = Some "2025-03-01" /\
    Task.priority t' = Task.priority t /\
    Task.id t' = Task.id t /\
    Task.created_at t' = Task.created_at t /\
    Task.done t' = Task.done t.
Proof.
  apply (edit_changes_only_given_fields two_tasks 2
           (Some " Write the report ") (Some "2025-3-1") None).
  - simpl. auto.
  - reflexivity.
  - intros s [= <-]. right. discriminate.
Defined.

(** C8 as stated fails for a text that cannot be written: [edit] changes
    the task and [save_tasks] raises after it has opened the file for
    writing.  The command ends with exit code 1 and a traceback, and the
    file is left cut short: it reads as an empty collection, so the task
    that was not edited is lost with the one that was. *)
Lemma edit_text_that_cannot_be_written :
  load (file two_tasks) = [milk; report] /\
  writable_text (Some not_utf8) = false /\
  run (edit 2 (Some not_utf8) None None) two_tasks
  = (1, crashed [milk; Task.set_text not_utf8 report] two_tasks) /\
  stderr (crashed [milk; Task.set_text not_utf8 report] two_tasks)
  = ["Traceback (most recent call last):"; "UnicodeEncodeError"] /\
  load (file (crashed [milk; Task.set_text not_utf8 report] two_tasks)) = [].
Proof. repeat split. Qed.

(** C10: when a task has the id and the text, if one is given along with
    the due option, can be written once trimmed (it is UTF-8; with no text
    given this asks nothing), [edit] with the due option given as the
    empty string exits with code 0, prints nothing to the error stream and
    saves the first task of that id with no due date; with the due option
    left out it saves that task with the due date it had.  Text and
    priority are handled alike in both, so the two commands save different
    files exactly when the task had a due date. *)
Theorem edit_empty_due_clears_it
    (w : World) (i : Z) (text : option string) (priority : option Z) :
  In i (map Task.id (load (file w))) ->
  writable_text text = true ->
  exists before t cleared kept after,
    load (file w) = (before ++ t :: after)%list /\
    Task.id t = i /\
    Forall (fun x => Task.id x <> i) before /\
    run (edit i text (Some "") priority) w
    = (0, saved (before ++ cleared :: after) ("Updated #" ++ str i ++ ".") w) /\
    Task.due cleared = None /\
    run (edit i text None priority) w
    = (0, saved (before ++ kept :: after) ("Updated #" ++ str i ++ ".") w) /\
    Task.due kept = Task.due t /\
    kept = Task.set_due (Task.due t) cleared /\
    (cleared = kept <-> Task.due t = None).
Proof.
  intros Hin Htext.
  destruct (first_with_id _ _ Hin) as (before & t & after & Hf & Hl & Hid & Hb).
  exists before, t, (edited text (DueValue None) priority t),
    (edited text DueUnset priority t), after.
  repeat (split; [assumption|]).
  split; [rewrite (edit_present _ _ (Some "") _ _ _ _ _ Hf), Htext; reflexivity|].
  split; [reflexivity|].
  split; [rewrite (edit_present _ _ None _ _ _ _ _ Hf), Htext; reflexivity|].
  split; [reflexivity|].
  split; [reflexivity|].
  unfold edited. split.
  - intros [= H]. now symmetry.
  - intros ->. reflexivity.
Qed.

Lemma edit_empty_due_clears_it_witness :
  exists before t cleared kept after,
    load (file two_tasks) = (before ++ t :: after)%list /\
    Task.id t = 1 /\
    Forall (fun x => Task.id x <> 1) before /\
    run (edit 1 None (Some "") None) two_tasks
    = (0, saved (before ++ cleared :: after) "Updated #1." two_tasks) /\
    Task.due cleared = None /\
    run (edit 1 None None None) two_tasks
    = (0, saved (before ++ kept :: after) "Updated #1." two_tasks) /\
    Task.due kept = Task.due t /\
    kept = Task.set_due (Task.due t) cleared /\
    (cleared = kept <-> Task.due t = None).
Proof.
  apply (edit_empty_due_clears_it two_tasks 1 None None).
  - simpl. auto.
  - reflexivity.
Defined.

(** ** The order of the listing *)

Lemma filter_tasks_ids_nodup (done_arg : option bool) (tasks : list Task) :
  NoDup (map Task.id tasks) -> NoDup (map Task.id (filter_tasks done_arg tasks)).
Proof.
  assert (Hf : forall p, NoDup (map Task.id tasks) ->
                         NoDup (map Task.id (filter p tasks))).
  { intros p. induction tasks as [|x l IH]; simpl; [auto|].
    intros Hnd. inversion Hnd as [|? ? Hx Hl]; subst.
    destruct (p x); simpl; [|auto].
    constructor; [|auto]. intros Hin. apply Hx.
    apply in_map_iff in Hin. destruct Hin as (y & Hy & Hin).
    apply filter_In in Hin. apply in_map_iff. exists y. tauto. }
  destruct done_arg as [[|]|]; simpl; auto.
Qed.

Lemma cmp_pair_unfold {A B} `{PyOrd A} `{PyOrd B} (a1 a2 : A) (b1 b2 : B) :
  cmp (a1, b1) (a2, b2) = match cmp a1 a2 with Eq => cmp b1 b2 | c => c end.
Proof. reflexivity. Qed.

(** The four parts of the key decide in turn. *)
Lemma sort_key_lt (a b : Task) :
  key_lt sort_key a b <->
  done_rank a < done_rank b \/
  done_rank a = done_rank b /\
  (Task.priority a < Task.priority b \/
   Task.priority a = Task.priority b /\
   (py_lt (due_rank a) (due_rank b) = true \/
    due_rank a = due_rank b /\ Task.id a < Task.id b)).
Proof.
  unfold key_lt, sort_key. rewrite !py_lt_cmp, !cmp_pair_unfold.
  change (@cmp Z PyOrd_Z) with Z.compare.
  destruct (Z.compare_spec (done_rank a) (done_rank b)) as [E1|E1|E1];
    [|split; [auto | reflexivity] | split; [discriminate | lia]].
  destruct (Z.compare_spec (Task.priority a) (Task.priority b)) as [E2|E2|E2];
    [|split; [auto | reflexivity] | split; [discriminate | lia]].
  destruct (cmp (due_rank a) (due_rank b)) eqn:E3.
  - apply cmp_eq in E3. rewrite Z.compare_lt_iff. split.
    + intros H. right. split; [assumption|]. right. split; [assumption|]. auto.
    + intros [H|[_ [H|[_ [H|[_ H]]]]]]; (lia || discriminate || assumption).
  - split; [|reflexivity]. intros _. right. split; [assumption|]. right. auto.
  - split; [discriminate|].
    intros [H|[_ [H|[_ [H|[H _]]]]]]; try lia; try discriminate.
    apply cmp_eq in H. congruence.
Qed.

Lemma sort_key_of_id (a b : Task) :
  Task.id a <> Task.id b -> sort_key a <> sort_key b.
Proof. unfold sort_key. congruence. Qed.

Lemma sort_key_ids_nodup (tasks : list Task) :
  NoDup (map Task.id tasks) -> NoDup (map sort_key tasks).
Proof.
  induction tasks as [|x l IH]; simpl; intros Hnd; [constructor|].
  inversion Hnd as [|? ? Hx Hl]; subst. constructor; [|auto].
  intros Hin. apply Hx. apply in_map_iff in Hin. destruct Hin as (y & Hy & Hin).
  apply in_map_iff. exists y. split; [|assumption].
  unfold sort_key in Hy. congruence.
Qed.

(** The sentinel is the text of the last date of the calendar. *)
Lemma sentinel_last (d : date) :
  valid_date d = true ->
  py_le (isoformat d) sentinel = true /\
  (d <> mkdate 9999 12 31 -> py_lt (isoformat d) sentinel = true).
Proof.
  intros Hv. destruct (valid_date_bounds d Hv) as (Hy & Hm & Hd).
  change sentinel with (isoformat (mkdate 9999 12 31)).
  rewrite py_le_cmp, py_lt_cmp,
    (cmp_isoformat d (mkdate 9999 12 31) Hv eq_refl), cmp_ymd.
  cbn [year month day].
  destruct (Z.compare_spec (year d) 9999) as [Ey|Ey|Ey]; try lia;
    [|split; [discriminate | reflexivity]].
  destruct (Z.compare_spec (month d) 12) as [Em|Em|Em]; try lia;
    [|split; [discriminate | reflexivity]].
  destruct (Z.compare_spec (day d) 31) as [Ed|Ed|Ed]; try lia;
    [|split; [discriminate | reflexivity]].
  split; [discriminate|]. intros Hne. exfalso. apply Hne.
  destruct d as [y m dd]. simpl in *. congruence.
Qed.

Lemma date_lt_isoformat (d1 d2 : date) :
  valid_date d1 = true -> valid_date d2 = true ->
  py_lt (isoformat d1) (isoformat d2) = date_lt d1 d2.
Proof.
  intros H1 H2. unfold date_lt, py_lt. now rewrite cmp_isoformat.
Qed.

(** C3 fails on the code where it says that an absent due date sorts after
    every real date (the comment in [sort_key] says the same: "None last"):
    9999-12-31 is a date [--due] accepts, [add] stores it as the very text
    of the sentinel, and the task without a due date, having the smaller
    id, is listed before the task due on that day, whichever way the two
    are stored. *)
Lemma absent_due_listed_before_last_day :
  run (add "Open time capsule" (Some "9999-12-31") 3)
      (mkWorld (Json (TaskArray [no_due])) "2025-01-01T09:05:00"
               (mkdate 2025 1 1) [] [])
  = (0, saved [no_due; last_day] "Added #2: Open time capsule"
          (mkWorld (Json (TaskArray [no_due])) "2025-01-01T09:05:00"
                   (mkdate 2025 1 1) [] [])) /\
  done_rank no_due = done_rank last_day /\
  Task.priority no_due = Task.priority last_day /\
  Task.due no_due = None /\
  option_map isoformat (strptime "9999-12-31") = Task.due last_day /\
  listed None [no_due; last_day] = [no_due; last_day] /\
  listed None [last_day; no_due] = [no_due; last_day].
Proof. repeat split. Qed.

(** X1, the order of the listing as the code has it (the part of C3 that
    holds): whatever the filter, the tasks are listed in ascending order of
    [sort_key].  One key is below another when its done rank is (0 for a
    pending task, 1 for a done one), or else its priority, or else its due
    text, where a task without a due date counts as due on the sentinel
    9999-12-31, or else its id.  Any two keys are comparable,
    and tasks of different ids are strictly ordered, so with unique ids the
    listing is strictly ascending.  Due texts order as their dates do, and
    the sentinel is not before any date and is after every date but
    9999-12-31 itself. *)
Theorem listed_ascending (done_arg : option bool) (tasks : list Task) :
  StronglySorted (key_le sort_key) (listed done_arg tasks) /\
  (NoDup (map Task.id tasks) ->
   StronglySorted (key_lt sort_key) (listed done_arg tasks)) /\
  (forall a b : Task,
     key_lt sort_key a b <->
     done_rank a < done_rank b \/
     done_rank a = done_rank b /\
     (Task.priority a < Task.priority b \/
      Task.priority a = Task.priority b /\
      (py_lt (due_rank a) (due_rank b) = true \/
       due_rank a = due_rank b /\ Task.id a < Task.id b))) /\
  (forall a b : Task, key_le sort_key a b \/ key_le sort_key b a) /\
  (forall a b : Task,
     Task.id a <> Task.id b -> key_lt sort_key a b \/ key_lt sort_key b a) /\
  (forall t : Task, Task.due t = None -> due_rank t = sentinel) /\
  (forall d1 d2 : date,
     valid_date d1 = true -> valid_date d2 = true ->
     py_lt (isoformat d1) (isoformat d2) = date_lt d1 d2) /\
  (forall d : date,
     valid_date d = true ->
     py_le (isoformat d) sentinel = true /\
     (d <> mkdate 9999 12 31 -> py_lt (isoformat d) sentinel = true)).
Proof.
  split; [apply sort_by_sorted|].
  split.
  { intros Hnd. apply sort_by_strict.
    now apply sort_key_ids_nodup, filter_tasks_ids_nodup. }
  split; [apply sort_key_lt|].
  split; [intros a b; apply py_le_total|].
  split.
  { intros a b Hab. unfold key_lt. rewrite !py_lt_cmp.
    destruct (cmp (sort_key a) (sort_key b)) eqn:E; [|now left|].
    - apply cmp_eq in E. now apply sort_key_of_id in Hab.
    - right. now apply cmp_gt_lt. }
  split; [intros t Ht; unfold due_rank; now rewrite Ht|].
  split; [apply date_lt_isoformat | apply sentinel_last].
Qed.

Lemma listed_ascending_witness :
  StronglySorted (key_lt sort_key) (listed None [report; milk]).
Proof.
  apply (proj1 (proj2 (listed_ascending None [report; milk]))).
  simpl. repeat constructor; simpl; intuition discriminate.
Defined.

(** ** Sorting again *)

(** C9: a list of tasks in which every task's key is not above the next
    one's is left as it is by the sort. *)
Theorem sort_of_sorted_is_noop (tasks : list Task) :
  Sorted (key_le sort_key) tasks -> sort_by sort_key tasks = tasks.
Proof.
  induction 1 as [|t rest Hrest IH Hhd].
  - reflexivity.
  - change (sort_by sort_key (t :: rest))
      with (insert_by sort_key t (sort_by sort_key rest)).
    rewrite IH. destruct Hhd as [|u rest' Hle]; [reflexivity|].
    cbn [insert_by]. unfold key_le, py_le in Hle.
    now destruct (py_lt (sort_key u) (sort_key t)).
Qed.

Lemma sort_of_sorted_is_noop_witness :
  Sorted (key_le sort_key) [milk; report; Task.set_done true no_due] /\
  sort_by sort_key [milk; report; Task.set_done true no_due]
  = [milk; report; Task.set_done true no_due].
Proof.
  assert (H : Sorted (key_le sort_key) [milk; report; Task.set_done true no_due])
    by (repeat constructor).
  split; [exact H | exact (sort_of_sorted_is_noop _ H)].
Defined.

(** Hence listing is idempotent: the sort applied to its own result. *)
Lemma sort_by_idempotent (tasks : list Task) :
  sort_by sort_key (sort_by sort_key tasks) = sort_by sort_key tasks.
Proof.
  apply sort_by_of_sorted, StronglySorted_Sorted, sort_by_sorted.
Qed.

(** ** The overdue marker *)

Lemma length_append (a b : string) :
  String.length (a ++ b) = (String.length a + String.length b)%nat.
Proof. induction a as [|c a IH]; simpl; [reflexivity | now rewrite IH]. Qed.

Lemma append_marker_differs (s : string) : s ++ marker <> s.
Proof.
  intros H. apply (f_equal String.length) in H.
  rewrite length_append in H. simpl in H. lia.
Qed.

Lemma is_overdue_iff (today : date) (t : Task) :
  is_overdue today t = true <->
  Task.done t = false /\ exists d, due_date t = Some d /\ date_lt d today = true.
Proof.
  unfold is_overdue, due_date. destruct (Task.done t).
  - split; [discriminate | intros [H _]; discriminate].
  - destruct (Task.due t) as [[|c s]|].
    + split; [discriminate|]. intros (_ & d & Hd & _). discriminate.
    + destruct (fromisoformat (String c s)) as [d|].
      * split; [eauto|]. intros (_ & d' & [= <-] & Hlt). exact Hlt.
      * split; [discriminate|]. intros (_ & d & Hd & _). discriminate.
    + split; [discriminate|]. intros (_ & d & Hd & _). discriminate.
Qed.

Lemma date_lt_iff (a b : date) :
  date_lt a b = true <->
  year a < year b \/
  year a = year b /\ (month a < month b \/ month a = month b /\ day a < day b).
Proof.
  unfold date_lt. rewrite py_lt_cmp, cmp_ymd.
  destruct (Z.compare_spec (year a) (year b)); [|split; [auto|reflexivity]|];
    [|split; [discriminate | lia]].
  destruct (Z.compare_spec (month a) (month b)); [|split; [auto|reflexivity]|];
    [|split; [discriminate | lia]].
  rewrite Z.compare_lt_iff. split; [auto | lia].
Qed.

(** A due date written by [add] or [edit] is read back as the date given. *)
Lemma due_date_written (s : string) (d : date) (t : Task) :
  strptime s = Some d ->
  Task.due t = Some (isoformat d) ->
  due_date t = Some d.
Proof.
  intros Hs Ht. unfold due_date. rewrite Ht.
  apply fromisoformat_isoformat. now apply strptime_valid in Hs.
Qed.

(** C7: the Due cell of a task's row carries the marker exactly when the
    task is not done and has a due date that is strictly before today.
    For a due date as the program writes it, the ISO text of a date [d] of
    the calendar, the cell is that text followed by the marker when the
    task is not done and [d] is before today, and the bare text otherwise;
    with no due date the cell is a dash.  For any text in the due field,
    the date it holds is the one [date.fromisoformat] reads from it (none
    when it raises): the cell is the text followed by the marker exactly
    when the task is not done and that date is before today, and the bare
    text otherwise.  For a done task the cell is always the bare text. *)
Theorem due_cell_marked_iff_overdue (today : date) (t : Task) :
  nth 3 (row today t) "" = due_cell today t /\
  (forall d, valid_date d = true -> Task.due t = Some (isoformat d) ->
     (due_cell today t = isoformat d ++ marker <->
      Task.done t = false /\
      (year d < year today \/
       year d = year today /\
       (month d < month today \/ month d = month today /\ day d < day today))) /\
     (due_cell today t <> isoformat d ++ marker <-> due_cell today t = isoformat d)) /\
  (Task.due t = None -> due_cell today t = "-") /\
  (due_cell today t = or_else (Task.due t) "-" ++ marker <->
   Task.done t = false /\
   exists d, due_date t = Some d /\
     (year d < year today \/
      year d = year today /\
      (month d < month today \/ month d = month today /\ day d < day today))) /\
  (due_cell today t <> or_else (Task.due t) "-" ++ marker <->
   due_cell today t = or_else (Task.due t) "-") /\
  (Task.done t = true -> due_cell today t = or_else (Task.due t) "-").
Proof.
  split; [reflexivity|].
  assert (Hcell : due_cell today t
                  = if is_overdue today t
                    then or_else (Task.due t) "-" ++ marker
                    else or_else (Task.due t) "-") by reflexivity.
  pose proof (is_overdue_iff today t) as Hiff.
  pose proof (append_marker_differs (or_else (Task.due t) "-")) as Hne.
  assert (Hlt : (exists d, due_date t = Some d /\ date_lt d today = true) <->
                (exists d, due_date t = Some d /\
                   (year d < year today \/
                    year d = year today /\
                    (month d < month today \/
                     month d = month today /\ day d < day today)))).
  { split; intros (d & Hd & H); exists d; split; try assumption;
      now apply date_lt_iff. }
  assert (Hany :
    (due_cell today t = or_else (Task.due t) "-" ++ marker <->
     Task.done t = false /\
     exists d, due_date t = Some d /\
       (year d < year today \/
        year d = year today /\
        (month d < month today \/ month d = month today /\ day d < day today))) /\
    (due_cell today t <> or_else (Task.due t) "-" ++ marker <->
     due_cell today t = or_else (Task.due t) "-") /\
    (Task.done t = true -> due_cell today t = or_else (Task.due t) "-")).
  { rewrite <- Hlt, <- Hiff, Hcell.
    destruct (is_overdue today t) eqn:E.
    - split; [tauto|]. split; [tauto|].
      intros Hdone. unfold is_overdue in E. rewrite Hdone in E. discriminate.
    - split; [split; [intros H; symmetry in H; contradiction | discriminate]|].
      split; [split; [reflexivity | intros _ H; symmetry in H; contradiction]|].
      reflexivity. }
  destruct Hany as (Hmark & Hbare & Hdone).
  split; [|split; [|split; [exact Hmark | split; [exact Hbare | exact Hdone]]]].
  - intros d Hv Hdue.
    assert (Hd : due_date t = Some d)
      by (unfold due_date; rewrite Hdue; now apply fromisoformat_isoformat).
    assert (Hor : or_else (Task.due t) "-" = isoformat d)
      by (rewrite Hdue; reflexivity).
    rewrite <- Hor. split; [|exact Hbare].
    rewrite Hmark. split.
    + intros (Hp & d' & E & H). rewrite Hd in E. injection E as <-. auto.
    + intros (Hp & H). split; [exact Hp|]. exists d. auto.
  - intros Hnone. unfold due_cell, is_overdue. rewrite Hnone.
    destruct (Task.done t); reflexivity.
Qed.

Lemma due_cell_marked_iff_overdue_witness :
  due_cell (mkdate 2025 1 2) milk = isoformat (mkdate 2025 1 1) ++ marker /\
  due_cell (mkdate 2025 1 1) milk = isoformat (mkdate 2025 1 1) /\
  due_cell (mkdate 2025 1 2) report = "-".
Proof.
  destruct (due_cell_marked_iff_overdue (mkdate 2025 1 2) milk)
    as (_ & Hmilk & _).
  destruct (Hmilk (mkdate 2025 1 1) eq_refl eq_refl) as (Hmarked & _).
  destruct (due_cell_marked_iff_overdue (mkdate 2025 1 1) milk)
    as (_ & Hsame & _).
  destruct (Hsame (mkdate 2025 1 1) eq_refl eq_refl) as (Hday & Hbare).
  destruct (due_cell_marked_iff_overdue (mkdate 2025 1 2) report)
    as (_ & _ & Hnone & _).
  split; [|split].
  - apply Hmarked. split; [reflexivity|]. right. split; [reflexivity|].
    right. split; [reflexivity|]. simpl. lia.
  - apply Hbare. intros H. apply Hday in H. destruct H as (_ & H). simpl in H. lia.
  - apply Hnone. reflexivity.
Defined.

Example overdue_examples :
  due_cell (mkdate 2025 1 2) milk = "2025-01-01 (!) " /\
  due_cell (mkdate 2025 1 1) milk = "2025-01-01" /\
  due_cell (mkdate 2025 1 2) (Task.set_done true milk) = "2025-01-01" /\
  due_cell (mkdate 2025 1 2) report = "-" /\
  due_cell (mkdate 2025 1 2) (Task.set_due (Some "20240101") milk) = "20240101 (!) " /\
  due_cell (mkdate 2025 1 2) (Task.set_due (Some "2024-W01-1") milk) = "2024-W01-1 (!) " /\
  due_cell (mkdate 2025 1 2) (Task.set_due (Some "next week") milk) = "next week".
Proof. repeat split. Qed.

(** ** Ids over a history of commands *)

(** C2 as stated fails: add, add, delete 2, add gives out the ids 1, 2 and
    2 again.  After the delete, [next_id] is 2, which is not above the id 2
    that existed.  (And an [add] whose text is no UTF-8 fails in
    [save_tasks], which leaves a file that reads as empty: add, such an
    add, add gives out the id 1 twice.) *)
Lemma deleted_id_is_given_again :
  assigned_ids Missing
    (map at_noon [Add "a" None 3; Add "b" None 3; Delete 2; Add "c" None 3])
  = [1; 2; 2] /\
  next_id (load (run_calls Missing
                   (map at_noon [Add "a" None 3; Add "b" None 3; Delete 2])))
  = 2 /\
  ~ NoDup [1; 2; 2] /\
  ~ StronglySorted Z.lt [1; 2; 2] /\
  assigned_ids Missing
    (map at_noon [Add "a" None 3; Add not_utf8 None 3; Add "c" None 3])
  = [1; 1].
Proof.
  split; [reflexivity|]. split; [reflexivity|]. split; [|split].
  - intros H. inversion H as [|? ? _ H']; subst.
    inversion H' as [|? ? Hin _]; subst. apply Hin. now left.
  - intros H. inversion H as [|? ? H' _]; subst.
    inversion H' as [|? ? _ Hall]; subst.
    inversion Hall as [|? ? Hlt _]; subst. lia.
  - reflexivity.
Qed.

(** *** [next_id] *)

Lemma fold_max_spec (ids : list Z) (i : Z) :
  (fold_left Z.max ids i = i \/ In (fold_left Z.max ids i) ids) /\
  i <= fold_left Z.max ids i /\
  Forall (fun j => j <= fold_left Z.max ids i) ids.
Proof.
  revert i. induction ids as [|j ids IH]; intros i; simpl.
  - split; [now left|]. split; [lia | constructor].
  - destruct (IH (Z.max i j)) as (Hin & Hle & Hall).
    split; [|split].
    + destruct Hin as [E|Hin]; [|now right; right].
      rewrite E. destruct (Z.max_spec i j) as [[_ ->]|[_ ->]]; auto.
    + lia.
    + constructor; [lia | assumption].
Qed.

Lemma next_id_nil : next_id [] = 1.
Proof. reflexivity. Qed.

Lemma next_id_above (tasks : list Task) :
  Forall (fun j => j < next_id tasks) (map Task.id tasks).
Proof.
  unfold next_id. destruct (map Task.id tasks) as [|i ids]; [constructor|].
  destruct (fold_max_spec ids i) as (_ & Hle & Hall).
  constructor; [lia|].
  eapply Forall_impl; [|exact Hall]. simpl. intros. lia.
Qed.

Lemma next_id_greatest (tasks : list Task) :
  tasks <> [] -> In (next_id tasks - 1) (map Task.id tasks).
Proof.
  intros Hne. unfold next_id.
  destruct tasks as [|t rest]; [congruence|]. simpl map.
  destruct (fold_max_spec (map Task.id rest) (Task.id t)) as (Hin & _ & _).
  replace (fold_left Z.max (map Task.id rest) (Task.id t) + 1 - 1)
    with (fold_left Z.max (map Task.id rest) (Task.id t)) by lia.
  destruct Hin as [->|Hin]; [now left | now right].
Qed.

Lemma next_id_unique (tasks : list Task) (m : Z) :
  In m (map Task.id tasks) ->
  Forall (fun j => j <= m) (map Task.id tasks) ->
  next_id tasks = m + 1.
Proof.
  intros Hin Hall.
  assert (Hne : tasks <> []) by (intros ->; contradiction).
  pose proof (next_id_greatest tasks Hne) as Hg.
  pose proof (next_id_above tasks) as Ha.
  rewrite Forall_forall in Hall, Ha.
  specialize (Hall _ Hg). specialize (Ha _ Hin). lia.
Qed.

Lemma next_id_positive (tasks : list Task) :
  Forall (fun t => 1 <= Task.id t) tasks -> 1 <= next_id tasks.
Proof.
  intros Hall. destruct tasks as [|t rest] eqn:E; [rewrite next_id_nil; lia|].
  rewrite <- E in *. assert (Hne : tasks <> []) by (rewrite E; discriminate).
  pose proof (next_id_greatest tasks Hne) as Hg.
  apply in_map_iff in Hg. destruct Hg as (u & Hu & Hin).
  rewrite Forall_forall in Hall. specialize (Hall _ Hin). lia.
Qed.

Lemma next_id_after_add (tasks : list Task) (t : Task) :
  Task.id t = next_id tasks ->
  next_id (tasks ++ [t]) = next_id tasks + 1.
Proof.
  intros Hid. apply next_id_unique.
  - rewrite map_app, in_app_iff. right. simpl. auto.
  - rewrite map_app. apply Forall_app. split.
    + eapply Forall_impl; [|apply next_id_above]. simpl. intros. lia.
    + repeat constructor. lia.
Qed.

Lemma next_id_after_delete (tasks : list Task) (i : Z) :
  deletes_greatest i tasks = false ->
  In i (map Task.id tasks) ->
  next_id (filter (fun t => negb (Task.id t =? i)) tasks) = next_id tasks.
Proof.
  intros Hk Hin. unfold deletes_greatest in Hk.
  assert (Hex : existsb (fun t => Task.id t =? i) tasks = true).
  { apply existsb_exists. apply in_map_iff in Hin.
    destruct Hin as (t & Hid & Ht). exists t. split; [assumption|].
    now apply Z.eqb_eq. }
  rewrite Hex in Hk. simpl in Hk. apply Z.eqb_neq in Hk.
  assert (Hne : tasks <> []) by (intros ->; contradiction).
  pose proof (next_id_greatest tasks Hne) as Hg.
  pose proof (next_id_above tasks) as Ha.
  rewrite (next_id_unique _ (next_id tasks - 1)); [lia | |].
  - apply in_map_iff in Hg. destruct Hg as (t & Hid & Ht).
    apply in_map_iff. exists t. split; [assumption|].
    apply filter_In. split; [assumption|].
    apply negb_true_iff, Z.eqb_neq. lia.
  - rewrite Forall_forall in *. intros j Hj.
    apply in_map_iff in Hj. destruct Hj as (t & Hid & Ht).
    apply filter_In in Ht. destruct Ht as [Ht _].
    assert (j < next_id tasks) by (apply Ha, in_map_iff; eauto). lia.
Qed.

(** After the task with the greatest id is deleted, the next id is not
    above the id deleted. *)
Lemma next_id_after_deleting_greatest (tasks : list Task) (i : Z) :
  Forall (fun t => 1 <= Task.id t) tasks ->
  deletes_greatest i tasks = true ->
  next_id (filter (fun t => negb (Task.id t =? i)) tasks) <= i.
Proof.
  intros Hpos Hd. unfold deletes_greatest in Hd. apply andb_true_iff in Hd.
  destruct Hd as [Hex Hnext]. apply Z.eqb_eq in Hnext.
  apply existsb_exists in Hex. destruct Hex as (u & Hu & Hui). apply Z.eqb_eq in Hui.
  rewrite Forall_forall in Hpos.
  destruct (filter (fun t => negb (Task.id t =? i)) tasks) as [|x rest] eqn:E.
  - rewrite next_id_nil. specialize (Hpos u Hu). lia.
  - rewrite <- E.
    assert (Hne : filter (fun t => negb (Task.id t =? i)) tasks <> [])
      by (rewrite E; discriminate).
    pose proof (next_id_greatest _ Hne) as Hg.
    apply in_map_iff in Hg. destruct Hg as (v & Hv & Hin).
    apply filter_In in Hin. destruct Hin as [Hin Hvi].
    apply negb_true_iff, Z.eqb_neq in Hvi.
    pose proof (next_id_above tasks) as Ha. rewrite Forall_forall in Ha.
    specialize (Ha (Task.id v) (in_map Task.id _ _ Hin)). lia.
Qed.

(** *** One call *)

Lemma load_json_cases (tasks : list Task) :
  load (Json (TaskArray tasks)) = if forallb writable_task tasks then tasks else [].
Proof.
  destruct (forallb writable_task tasks) eqn:E;
    [now apply load_json | now apply load_json_cut].
Qed.

Lemma writable_added (tasks : list Task) (i : Z) (text clock : string)
    (d : option string) (priority : Z) :
  forallb writable_task tasks = true -> written_due d ->
  forallb writable_task (tasks ++ [Task.mk i text clock d priority false])
  = valid_utf8 text && valid_utf8 clock.
Proof.
  intros Hw Hd. rewrite forallb_app, Hw. cbn [forallb andb].
  unfold writable_task. cbn [Task.text Task.created_at Task.due].
  now rewrite (written_due_valid d Hd), !andb_true_r.
Qed.

Lemma file_after_add (f : File) (clock : string) (day : date)
    (text : string) (due : option string) (priority : Z) :
  file_after f (mkCall clock day (Add text due priority))
  = match due_arg due with
    | DueRefused => f
    | a => Json (TaskArray
             (load f ++ [Task.mk (next_id (load f)) (strip text) clock
                           match a with DueValue d => d | _ => None end
                           priority false]))
    end.
Proof.
  unfold file_after, call. simpl invoke. rewrite add_cases.
  destruct (due_arg due); [| |reflexivity]; cbv zeta;
    cbn [now file at_time on_day command];
    destruct (valid_utf8 (strip text) && valid_utf8 clock); reflexivity.
Qed.

(** The collection after an [add]: as it was when the date is refused, one
    task longer when the task can be written, and empty when it cannot. *)
Lemma load_after_add (f : File) (clock : string) (day : date)
    (text : string) (due : option string) (priority : Z) :
  load (file_after f (mkCall clock day (Add text due priority)))
  = match due_arg due with
    | DueRefused => load f
    | a =>
        if valid_utf8 (strip text) && valid_utf8 clock
        then (load f ++ [Task.mk (next_id (load f)) (strip text) clock
                           match a with DueValue d => d | _ => None end
                           priority false])%list
        else []
    end.
Proof.
  rewrite file_after_add. destruct (due_arg due) as [|d|] eqn:E; [| |reflexivity];
    rewrite load_json_cases, writable_added;
    try apply load_writable; try reflexivity.
  - now left.
  - now apply (due_arg_written due).
Qed.

Lemma file_after_delete (f : File) (clock : string) (day : date) (i : Z) :
  (In i (map Task.id (load f)) /\
   file_after f (mkCall clock day (Delete i))
   = Json (TaskArray (filter (fun t => negb (Task.id t =? i)) (load f)))) \/
  (~ In i (map Task.id (load f)) /\
   file_after f (mkCall clock day (Delete i)) = f).
Proof.
  unfold file_after, call. simpl invoke.
  destruct (in_dec Z.eq_dec i (map Task.id (load f))) as [Hin|Hn].
  - left. split; [assumption|]. now rewrite delete_present.
  - right. split; [assumption|]. now rewrite delete_absent.
Qed.

Lemma filter_absent_id (i : Z) (tasks : list Task) :
  ~ In i (map Task.id tasks) ->
  filter (fun t => negb (Task.id t =? i)) tasks = tasks.
Proof.
  intros Hn. apply keep_other_ids_all in Hn.
  induction tasks as [|x l IH]; [reflexivity|].
  inversion Hn as [|? ? Hx Hl]; subst. simpl. rewrite Hx. f_equal. auto.
Qed.

Lemma load_after_delete (f : File) (clock : string) (day : date) (i : Z) :
  load (file_after f (mkCall clock day (Delete i)))
  = filter (fun t => negb (Task.id t =? i)) (load f).
Proof.
  destruct (file_after_delete f clock day i) as [[_ ->]|[Hn ->]].
  - apply load_json, writable_filter, load_writable.
  - symmetry. now apply filter_absent_id.
Qed.

Lemma assigned_add (f : File) (clock : string) (day : date)
    (text : string) (due : option string) (priority : Z) :
  assigned f (mkCall clock day (Add text due priority))
  = match due_arg due with
    | DueRefused => None
    | _ => if valid_utf8 (strip text) && valid_utf8 clock
           then Some (next_id (load f)) else None
    end.
Proof.
  unfold assigned. rewrite load_after_add.
  unfold call. simpl invoke. simpl command. rewrite add_cases.
  destruct (due_arg due); [| |reflexivity]; cbv zeta;
    cbn [now file at_time on_day command];
    destruct (valid_utf8 (strip text) && valid_utf8 clock); simpl fst; cbv iota;
    try reflexivity; now rewrite rev_app_distr.
Qed.

Lemma assigned_delete (f : File) (clock : string) (day : date) (i : Z) :
  assigned f (mkCall clock day (Delete i)) = None.
Proof. reflexivity. Qed.

(** *** The ids in the file stay in ascending order *)

Lemma sorted_snoc (l : list Z) (x : Z) :
  StronglySorted Z.lt l -> Forall (fun j => j < x) l ->
  StronglySorted Z.lt (l ++ [x]).
Proof.
  induction 1 as [|y l Hl IH Hy]; intros Hx; simpl.
  - repeat constructor.
  - inversion Hx as [|? ? Hyx Hlx]; subst.
    constructor; [auto|]. apply Forall_app. split; [assumption|].
    repeat constructor. assumption.
Qed.

Lemma sorted_filter_ids (p : Task -> bool) (tasks : list Task) :
  StronglySorted Z.lt (map Task.id tasks) ->
  StronglySorted Z.lt (map Task.id (filter p tasks)).
Proof.
  induction tasks as [|t rest IH]; simpl; intros Hs; [constructor|].
  inversion Hs as [|? ? Hrest Hall]; subst.
  destruct (p t); simpl; [|auto].
  constructor; [auto|].
  rewrite Forall_forall in *. intros j Hj. apply Hall.
  apply in_map_iff in Hj. destruct Hj as (u & Hu & Hin).
  apply filter_In in Hin. apply in_map_iff. exists u. tauto.
Qed.

Lemma sorted_lt_nodup (l : list Z) : StronglySorted Z.lt l -> NoDup l.
Proof.
  induction 1 as [|x l Hl IH Hx]; constructor; [|assumption].
  intros Hin. rewrite Forall_forall in Hx. specialize (Hx _ Hin). lia.
Qed.

Lemma stored_ids_sorted_step (f : File) (c : Call) :
  StronglySorted Z.lt (map Task.id (load f)) /\
  Forall (fun t => 1 <= Task.id t) (load f) ->
  StronglySorted Z.lt (map Task.id (load (file_after f c))) /\
  Forall (fun t => 1 <= Task.id t) (load (file_after f c)).
Proof.
  intros [Hs Hp]. destruct c as [clock day [text due priority|i]].
  - rewrite load_after_add.
    destruct (due_arg due); [| |auto];
      (destruct (valid_utf8 (strip text) && valid_utf8 clock);
       [|split; constructor]);
      (split;
       [ rewrite map_app; apply sorted_snoc; [assumption | apply next_id_above]
       | apply Forall_app; split; [assumption|];
         constructor; [now apply next_id_positive | constructor] ]).
  - rewrite load_after_delete. split; [now apply sorted_filter_ids|].
    rewrite Forall_forall in *. intros t Ht. apply filter_In in Ht. now apply Hp.
Qed.

Lemma stored_ids_sorted (f : File) (calls : list Call) :
  StronglySorted Z.lt (map Task.id (load f)) /\
  Forall (fun t => 1 <= Task.id t) (load f) ->
  StronglySorted Z.lt (map Task.id (load (run_calls f calls))) /\
  Forall (fun t => 1 <= Task.id t) (load (run_calls f calls)).
Proof.
  revert f. induction calls as [|c rest IH]; intros f Hs; [exact Hs|].
  apply IH. now apply stored_ids_sorted_step.
Qed.

(** *** The ids given out *)

Lemma assigned_is_next_id (f : File) (c : Call) (i : Z) :
  assigned f c = Some i -> i = next_id (load f).
Proof.
  destruct c as [clock day [text due priority|j]].
  - rewrite assigned_add.
    destruct (due_arg due); try discriminate;
      destruct (valid_utf8 (strip text) && valid_utf8 clock); congruence.
  - discriminate.
Qed.

Lemma assigned_ids_increasing (f : File) (calls : list Call) :
  keeps_greatest f calls = true ->
  always_saves calls = true ->
  StronglySorted Z.lt (assigned_ids f calls) /\
  Forall (fun i => next_id (load f) <= i) (assigned_ids f calls).
Proof.
  revert f. induction calls as [|c rest IH]; intros f Hk Hw.
  - split; constructor.
  - cbn [keeps_greatest] in Hk. apply andb_true_iff in Hk.
    cbn [always_saves forallb] in Hw. apply andb_true_iff in Hw.
    destruct Hk as [Hc Hk]. destruct Hw as [Hcw Hw].
    destruct (IH _ Hk Hw) as [Hs Hall].
    cbn [assigned_ids].
    destruct c as [clock day [text due priority|j]].
    + rewrite assigned_add. rewrite load_after_add in Hall.
      cbn [command at_time] in Hcw. rewrite Hcw in *.
      destruct (due_arg due); [| |auto];
        rewrite next_id_after_add in Hall by reflexivity;
        (split; [constructor; [assumption|] | constructor; [lia|]]);
        eapply Forall_impl; try exact Hall; simpl; intros; lia.
    + rewrite assigned_delete. rewrite load_after_delete in Hall.
      destruct (in_dec Z.eq_dec j (map Task.id (load f))) as [Hin|Hn].
      * cbn [command] in Hc. apply negb_true_iff in Hc.
        rewrite next_id_after_delete in Hall by assumption. auto.
      * rewrite (filter_absent_id _ _ Hn) in Hall. auto.
Qed.

(** C2, as the code has it: after any sequence of [add] and [delete] calls
    on an empty collection, the ids in the collection are in strictly
    ascending order, hence unique; [next_id] is above every id in the
    collection, and it is the id the next [add] gives out.  The ids given
    out by the [add] calls are strictly ascending and unique when no
    [delete] removes the task that holds the greatest id and every [add]
    can save.  An id is given out again otherwise: after a [delete] that
    removes the task with the greatest id, the next id is not above the id
    deleted; and after an [add] that cannot save (its text is no UTF-8)
    the collection reads as empty, so the next id is 1. *)
Theorem stored_ids_unique_next_id_above (f : File) (calls : list Call) :
  load f = [] ->
  StronglySorted Z.lt (map Task.id (load (run_calls f calls))) /\
  NoDup (map Task.id (load (run_calls f calls))) /\
  Forall (fun i => i < next_id (load (run_calls f calls)))
         (map Task.id (load (run_calls f calls))) /\
  (forall c i, assigned (run_calls f calls) c = Some i ->
               i = next_id (load (run_calls f calls))) /\
  (keeps_greatest f calls = true -> always_saves calls = true ->
   StronglySorted Z.lt (assigned_ids f calls) /\ NoDup (assigned_ids f calls)) /\
  (forall clock day i,
     deletes_greatest i (load (run_calls f calls)) = true ->
     next_id (load (file_after (run_calls f calls) (mkCall clock day (Delete i))))
     <= i) /\
  (forall clock day text due priority,
     due_arg due <> DueRefused -> valid_utf8 (strip text) = false ->
     next_id (load (file_after (run_calls f calls)
                      (mkCall clock day (Add text due priority)))) = 1).
Proof.
  intros Hempty.
  assert (Hsp : StronglySorted Z.lt (map Task.id (load (run_calls f calls))) /\
                Forall (fun t => 1 <= Task.id t) (load (run_calls f calls))).
  { apply stored_ids_sorted. rewrite Hempty. split; constructor. }
  destruct Hsp as [Hs Hp].
  split; [exact Hs|].
  split; [now apply sorted_lt_nodup|].
  split; [apply next_id_above|].
  split; [intros c i; apply assigned_is_next_id|].
  split; [|split].
  - intros Hk Hw. destruct (assigned_ids_increasing f calls Hk Hw) as [Hi _].
    split; [exact Hi | now apply sorted_lt_nodup].
  - intros clock day i Hd. rewrite load_after_delete.
    now apply next_id_after_deleting_greatest.
  - intros clock day text due priority Hdue Hbad. rewrite load_after_add, Hbad.
    destruct (due_arg due); [reflexivity | reflexivity | contradiction].
Qed.

Lemma stored_ids_unique_next_id_above_witness :
  let calls :=
    map at_noon [Add "a" None 3; Add "b" None 3; Delete 1; Add "c" None 3] in
  assigned_ids Missing calls = [1; 2; 3] /\
  map Task.id (load (run_calls Missing calls)) = [2; 3] /\
  StronglySorted Z.lt (map Task.id (load (run_calls Missing calls))) /\
  StronglySorted Z.lt (assigned_ids Missing calls).
Proof.
  intros calls.
  destruct (stored_ids_unique_next_id_above Missing calls eq_refl)
    as (Hs & _ & _ & _ & Hi & _).
  split; [reflexivity|]. split; [reflexivity|].
  split; [exact Hs | exact (proj1 (Hi eq_refl eq_refl))].
Defined.

(** ** [list] without an option *)

(** What [list_cmd] does when [args.done] is neither [True] nor
    [False]: nothing is filtered out, the listing is a rearrangement of the
    whole collection. *)
Lemma listed_unset_all (tasks : list Task) : Permutation tasks (listed None tasks).
Proof. apply sort_by_perm. Qed.

Lemma listed_pending_only (tasks : list Task) (t : Task) :
  In t (listed (Some false) tasks) <-> In t tasks /\ Task.done t = false.
Proof.
  unfold listed. rewrite sort_by_in. simpl. rewrite filter_In, negb_true_iff.
  tauto.
Qed.

(** The parser never leaves [args.done] unset: with no option on the
    command line it is [False], the default of [--done], the action added
    first. *)
Lemma list_args_done_set (argv : list ListOption) (args : Namespace) :
  parse_list_args argv = inl args -> exists b, getattr args "done" = Some b.
Proof.
  unfold parse_list_args.
  assert (H : forall seen ns,
             (exists b, getattr ns "done" = Some b) ->
             take_actions seen argv ns = inl args ->
             exists b, getattr args "done" = Some b).
  { induction argv as [|o rest IH]; intros seen ns Hns; simpl.
    - now intros [= <-].
    - destruct (find (fun o' => negb (same_option o' o)) seen); [discriminate|].
      apply IH. destruct o; simpl; eauto. }
  apply H. simpl. eauto.
Qed.

(** C1 fails on the code: [list] with neither [--done] nor [--todo] runs
    [list_cmd] with [args.done = False], exactly as [list --todo] does, so
    for every collection no done task is listed; with the scenario's two
    tasks, the first one done, only the pending one is printed. *)
Theorem list_without_option_hides_done_tasks :
  main_list [] = list_cmd (Some false) /\
  main_list [] = main_list [OptTodo] /\
  (forall (tasks : list Task) (t : Task),
     In t tasks -> Task.done t = true -> ~ In t (listed (Some false) tasks)) /\
  In (Task.set_done true milk) (load (file milk_done)) /\
  run (main_list []) milk_done
  = (0, mkWorld (file milk_done) (now milk_done) (today milk_done)
          ["ID   St  Pri  Due  Task        ";
           "---  --  ---  ---  ------------";
           "  2  •   3    -    Write report"]
          []).
Proof.
  split; [reflexivity|]. split; [reflexivity|]. split.
  - intros tasks t _ Hdone Hin. apply listed_pending_only in Hin.
    destruct Hin as [_ Hp]. congruence.
  - split; [now left | reflexivity].
Qed.

(** ** The other commands *)

(** [clear]: with [--done] it saves the tasks that are not done, in
    their order, and exits with code 0; with [--all] it saves the empty
    list; with neither flag it prints a message to the error stream and
    exits with code 2, the file as it was. *)
Theorem clear_cases (w : World) (all_flag : bool) :
  run (clear true all_flag) w
  = (0, saved (filter (fun t => negb (Task.done t)) (load (file w)))
              "Cleared all completed tasks." w) /\
  run (clear false true) w = (0, saved [] "Cleared all tasks." w) /\
  run (clear false false) w = (2, with_err "Specify --done or --all" w) /\
  file (with_err "Specify --done or --all" w) = file w.
Proof.
  split; [|split; [|split]].
  - unfold clear. rewrite run_load_tasks. cbv iota zeta.
    rewrite run_save_print, writable_filter by apply load_writable. reflexivity.
  - unfold clear. rewrite run_load_tasks. cbv iota zeta.
    now rewrite run_save_print.
  - unfold clear. now rewrite run_load_tasks.
  - reflexivity.
Qed.

(** X4, [done]: when a task has the id, the first task with it is saved
    with its done flag set and nothing else changed, every other task is
    saved as it was, and the command exits with code 0. *)
Theorem done_marks_first_with_id (w : World) (i : Z) :
  In i (map Task.id (load (file w))) ->
  exists before t after,
    load (file w) = (before ++ t :: after)%list /\
    Task.id t = i /\
    Forall (fun x => Task.id x <> i) before /\
    run (done i) w
    = (0, saved (before ++ Task.set_done true t :: after)
                ("Marked #" ++ str i ++ " as done.") w).
Proof.
  intros Hin.
  destruct (first_with_id _ _ Hin) as (before & t & after & Hf & Hl & Hid & Hb).
  exists before, t, after. repeat (split; [assumption|]).
  now apply done_present.
Qed.

Lemma done_marks_first_with_id_witness :
  exists before t after,
    load (file two_tasks) = (before ++ t :: after)%list /\
    Task.id t = 1 /\
    Forall (fun x => Task.id x <> 1) before /\
    run (done 1) two_tasks
    = (0, saved (before ++ Task.set_done true t :: after)
                "Marked #1 as done." two_tasks).
Proof.
  apply (done_marks_first_with_id two_tasks 1). simpl. auto.
Defined.

Lemma save_failed_crashed (tasks : list Task) (w : World) :
  forallb writable_task tasks = false -> save_failed w (crashed tasks w).
Proof.
  intros E. split; [now apply load_crashed|]. split; [reflexivity|].
  exists ["Traceback (most recent call last):"; "UnicodeEncodeError"].
  split; [discriminate|]. unfold crashed, with_err. simpl.
  now rewrite <- app_assoc.
Qed.

(** X5, [add]: [next_id] of the collection found is above every id in it.
    When the due argument is refused, [add] exits with code 2 and the file
    is as it was.  Otherwise, when the text, trimmed, and the reading of
    the clock are UTF-8, [add] appends one task with that id to the
    collection and saves it, exits with code 0 and reports the id and the
    text; the new task has the text trimmed, the clock's reading, the due
    date parsed (none for no argument or an empty one), the priority
    given, and is not done.  When one of the two is no UTF-8, [save_tasks]
    fails: exit code 1, nothing printed, a traceback on the error stream,
    and the file left cut short, which reads as an empty collection. *)
Theorem add_appends_fresh_task
    (w : World) (text : string) (due : option string) (priority : Z) :
  Forall (fun j => j < next_id (load (file w))) (map Task.id (load (file w))) /\
  match due_arg due with
  | DueRefused => run (add text due priority) w = (2, with_err date_error w)
  | a =>
      if valid_utf8 (strip text) && valid_utf8 (now w) then
        run (add text due priority) w
        = (0, saved (load (file w)
                     ++ [Task.mk (next_id (load (file w))) (strip text) (now w)
                                 match a with DueValue d => d | _ => None end
                                 priority false])
                    ("Added #" ++ str (next_id (load (file w))) ++ ": " ++ strip text)
                    w)
      else
        fst (run (add text due priority) w) = 1 /\
        save_failed w (snd (run (add text due priority) w))
  end.
Proof.
  split; [apply next_id_above|].
  rewrite add_cases.
  destruct (due_arg due) as [|d|] eqn:Ed; [| |reflexivity]; cbv zeta;
    destruct (valid_utf8 (strip text) && valid_utf8 (now w)) eqn:E;
    try reflexivity;
    (split; [reflexivity|]); apply save_failed_crashed;
    rewrite writable_added, ?E; try reflexivity; try apply load_writable.
  - now left.
  - now apply (due_arg_written due).
Qed.

(** X6, [delete]: when a task has the id, every task with it is removed,
    the others are saved in their order, and the command exits with
    code 0; the id is then absent, so deleting it again exits with
    code 1. *)
Theorem delete_removes_id (w : World) (i : Z) :
  In i (map Task.id (load (file w))) ->
  run (delete i) w
  = (0, saved (filter (fun t => negb (Task.id t =? i)) (load (file w)))
              ("Deleted #" ++ str i ++ ".") w) /\
  ~ In i (map Task.id (load (file (snd (run (delete i) w))))) /\
  fst (run (delete i) (snd (run (delete i) w))) = 1.
Proof.
  intros Hin.
  assert (Hrun : run (delete i) w
                 = (0, saved (filter (fun t => negb (Task.id t =? i)) (load (file w)))
                             ("Deleted #" ++ str i ++ ".") w))
    by now apply delete_present.
  assert (Hgone : ~ In i (map Task.id (load (file (snd (run (delete i) w)))))).
  { rewrite Hrun. cbn [snd].
    rewrite load_saved by apply writable_filter, load_writable.
    intros H. apply in_map_iff in H. destruct H as (t & Hid & Ht).
    apply filter_In in Ht. destruct Ht as [_ Ht].
    rewrite Hid, Z.eqb_refl in Ht. discriminate. }
  split; [exact Hrun|]. split; [exact Hgone|].
  now rewrite (delete_absent i _ Hgone).
Qed.

Lemma delete_removes_id_witness :
  run (delete 1) two_tasks = (0, saved [report] "Deleted #1." two_tasks) /\
  ~ In 1 (map Task.id (load (file (snd (run (delete 1) two_tasks))))) /\
  fst (run (delete 1) (snd (run (delete 1) two_tasks))) = 1.
Proof.
  apply (delete_removes_id two_tasks 1). simpl. auto.
Defined.

(** ** The whole command line *)

Example main_usage_errors :
  run (main (CliClear [])) two_tasks
  = (2, with_err "todo clear: error: one of the arguments --done --all is required"
          (with_err "usage: todo clear [-h] (--done | --all)" two_tasks)) /\
  run (main (CliClear [ClearDone; ClearAll])) two_tasks
  = (2, with_err "todo clear: error: argument --all: not allowed with argument --done"
          (with_err "usage: todo clear [-h] (--done | --all)" two_tasks)) /\
  run (main (CliAdd "x" None (Some 5))) two_tasks
  = (2, with_err "todo add: error: argument --priority: invalid choice: 5 (choose from 1, 2, 3)"
          (with_err "usage: todo add [-h] [--due DUE] [--priority {1,2,3}] text" two_tasks)) /\
  run (main (CliEdit 1 None None (Some (-1)))) two_tasks
  = (2, with_err "todo edit: error: argument --priority: invalid choice: -1 (choose from 1, 2, 3)"
          (with_err "usage: todo edit [-h] [--text TEXT] [--due DUE] [--priority {1,2,3}] id"
             two_tasks)) /\
  parse_args (CliClear [ClearDone; ClearDone]) = inl (HClear true false) /\
  parse_args (CliClear [ClearAll]) = inl (HClear false true) /\
  parse_args (CliAdd "x" (Some "") None) = inl (HAdd "x" (Some "") 3).
Proof. repeat split. Qed.

Lemma take_actions_options (seen argv : list ListOption) (ns : Namespace) :
  take_actions seen argv ns = take_options action_of same_option seen argv ns.
Proof.
  revert seen ns. induction argv as [|o rest IH]; intros seen ns; simpl.
  - reflexivity.
  - destruct (find (fun o' => negb (same_option o' o)) seen); [reflexivity|].
    apply IH.
Qed.

(** [main] on a [list] command line is [main_list]. *)
Lemma main_list_agrees (options : list ListOption) :
  main (CliList options) = main_list options.
Proof.
  unfold main, main_list, parse_args.
  destruct (parse_list_args options) as [args|[o o']]; reflexivity.
Qed.

(** *** What [list] prints *)

Lemma print_all_run (lines : list string) (w : World) :
  print_all lines w
  = Returned tt (mkWorld (file w) (now w) (today w) (stdout w ++ lines) (stderr w)).
Proof.
  revert w. induction lines as [|l ls IH]; intros [f n d out err]; simpl.
  - unfold ret. now rewrite app_nil_r.
  - unfold bind, print. simpl. rewrite IH. simpl.
    now rewrite <- app_assoc.
Qed.

Lemma list_cmd_run (done_arg : option bool) (w : World) :
  run (list_cmd done_arg) w
  = (0, mkWorld (file w) (now w) (today w)
          (stdout w ++ match listed done_arg (load (file w)) with
                       | [] => ["No tasks found."]
                       | l => table (today w) l
                       end)
          (stderr w)).
Proof.
  unfold list_cmd. rewrite run_load_tasks. cbv zeta.
  destruct (listed done_arg (load (file w))) as [|t l] eqn:E.
  - reflexivity.
  - unfold run, bind, read_today. now rewrite print_all_run.
Qed.

(** ** What a command may do to the collection *)

Lemma filter_none {A} (l : list A) : filter (fun _ => false) l = [].
Proof. induction l; simpl; auto. Qed.

Lemma step_emptied (given : option Z) (tasks : list Task) : Step given tasks [].
Proof. rewrite <- (filter_none tasks). apply StepDrop. Qed.

Lemma load_after_save (tasks : list Task) (line : string) (w : World) :
  load (file (snd (if forallb writable_task tasks
                   then (0, saved tasks line w) else (1, crashed tasks w))))
  = if forallb writable_task tasks then tasks else [].
Proof.
  destruct (forallb writable_task tasks) eqn:E; cbn [snd];
    [now apply load_saved | now apply load_crashed].
Qed.

(** The collection after [add]. *)
Lemma load_after_add_run (text : string) (due : option string) (priority : Z)
    (w : World) :
  load (file (snd (run (add text due priority) w)))
  = match due_arg due with
    | DueRefused => load (file w)
    | a =>
        if valid_utf8 (strip text) && valid_utf8 (now w)
        then (load (file w)
              ++ [Task.mk (next_id (load (file w))) (strip text) (now w)
                    match a with DueValue d => d | _ => None end
                    priority false])%list
        else []
    end.
Proof.
  rewrite add_cases.
  destruct (due_arg due) as [|d|] eqn:E; [| |reflexivity]; cbv zeta.
  - rewrite <- (writable_added (load (file w)) (next_id (load (file w)))
                  (strip text) (now w) None priority (load_writable _)
                  (or_introl eq_refl)).
    apply load_after_save.
  - rewrite <- (writable_added (load (file w)) (next_id (load (file w)))
                  (strip text) (now w) d priority (load_writable _)
                  (due_arg_written _ _ E)).
    apply load_after_save.
Qed.

(** The collection after [edit] on a task that is there. *)
Lemma load_after_edit_run (i : Z) (text due : option string) (priority : option Z)
    (w : World) (before after : list Task) (t : Task) :
  find_task i (load (file w)) = Some (before, t, after) ->
  load (file (snd (run (edit i text due priority) w)))
  = match due_arg due with
    | DueRefused => load (file w)
    | a => if writable_text text
           then (before ++ edited text a priority t :: after)%list
           else []
    end.
Proof.
  intros Hf. destruct (writable_found _ _ _ _ _ Hf) as (Hb & Ht & Ha).
  rewrite (edit_present _ _ _ _ _ _ _ _ Hf).
  assert (H : forall a, a = due_arg due -> a <> DueRefused ->
            load (file (snd (if writable_text text
                             then (0, saved (before ++ edited text a priority t :: after)
                                            ("Updated #" ++ str i ++ ".") w)
                             else (1, crashed (before ++ edited text a priority t :: after)
                                              w))))
            = if writable_text text
              then (before ++ edited text a priority t :: after)%list else []).
  { intros a -> Hd.
    rewrite <- (writable_edited text due priority t Ht Hd).
    rewrite <- (writable_around before after t _ Hb Ha).
    apply load_after_save. }
  destruct (due_arg due) as [|d|] eqn:E; [| |reflexivity];
    apply H; (reflexivity || discriminate).
Qed.

Lemma handle_step (h : Handler) (w : World) :
  Step (given_priority h) (load (file w))
       (load (file (snd (run (handle h) w)))).
Proof.
  destruct h as [text due priority|done_arg|i|i|i text due priority|df af];
    cbn [handle given_priority].
  - rewrite load_after_add_run.
    destruct (due_arg due) as [|d|] eqn:E; [| |apply StepNone];
      (destruct (valid_utf8 (strip text) && valid_utf8 (now w));
       [|apply step_emptied]).
    + apply StepAppend; try reflexivity. now left.
    + apply StepAppend; try reflexivity. now apply due_arg_written in E.
  - rewrite list_cmd_run. apply StepNone.
  - destruct (in_dec Z.eq_dec i (map Task.id (load (file w)))) as [Hin|Hn].
    + destruct (first_with_id _ _ Hin) as (b & t & a & Hf & Hl & Hid & Hb).
      destruct (writable_found _ _ _ _ _ Hf) as (Wb & Wt & Wa).
      rewrite (done_present _ _ _ _ _ Hf). cbn [snd].
      rewrite load_saved
        by (rewrite (writable_around _ _ t), writable_set_done; assumption).
      apply (StepChange _ _ b a t); auto.
    + rewrite (done_absent _ _ Hn). apply StepNone.
  - destruct (in_dec Z.eq_dec i (map Task.id (load (file w)))) as [Hin|Hn].
    + rewrite (delete_present _ _ Hin). cbn [snd with_out with_file file].
      rewrite load_json by apply writable_filter, load_writable. apply StepDrop.
    + rewrite (delete_absent _ _ Hn). apply StepNone.
  - destruct (in_dec Z.eq_dec i (map Task.id (load (file w)))) as [Hin|Hn].
    + destruct (first_with_id _ _ Hin) as (b & t & a & Hf & Hl & Hid & Hb).
      rewrite (load_after_edit_run _ _ _ _ _ _ _ _ Hf).
      destruct (due_arg due) as [|d|] eqn:E; [| |apply StepNone];
        (destruct (writable_text text); [|apply step_emptied]).
      * apply (StepChange _ _ b a t); auto.
        destruct priority; simpl; auto.
      * apply (StepChange _ _ b a t); auto.
        -- right. now apply due_arg_written in E.
        -- destruct priority; simpl; auto.
    + rewrite (edit_absent _ _ _ _ _ Hn). apply StepNone.
  - destruct (clear_cases w af) as (Hd & Ha & Hn & _).
    destruct df; [|destruct af].
    + rewrite Hd. cbn [snd].
      rewrite load_saved by apply writable_filter, load_writable. apply StepDrop.
    + rewrite Ha. cbn [snd]. rewrite load_saved by reflexivity. apply step_emptied.
    + rewrite Hn. apply StepNone.
Qed.

Lemma in_choices_in (q : Z) : in_choices q = true -> In q priority_choices.
Proof.
  intros Hq. unfold in_choices in Hq. apply existsb_exists in Hq.
  destruct Hq as (x & Hx & E). apply Z.eqb_eq in E. now subst.
Qed.

Lemma parse_args_priority (line : CommandLine) (h : Handler) (p : Z) :
  parse_args line = inl h -> given_priority h = Some p -> In p priority_choices.
Proof.
  destruct line as [text due [q|]|opts|i|i|i text due [q|]|opts];
    cbn [parse_args].
  - destruct (in_choices q) eqn:E; [|discriminate].
    intros [= <-] [= <-]. now apply in_choices_in.
  - intros [= <-] [= <-]. simpl. auto.
  - destruct (parse_list_args opts) as [args|[o o']]; [|discriminate].
    intros [= <-]. discriminate.
  - intros [= <-]. discriminate.
  - intros [= <-]. discriminate.
  - destruct (in_choices q) eqn:E; [|discriminate].
    intros [= <-] [= <-]. now apply in_choices_in.
  - intros [= <-]. discriminate.
  - destruct (take_options clear_action_of same_clear_option [] opts
                (add_defaults clear_actions [])) as [args|[o o']]; [|discriminate].
    destruct opts; [discriminate|]. intros [= <-]. discriminate.
Qed.

Lemma usage_error_run (usage message : string) (w : World) :
  run (usage_error usage message) w = (2, with_err message (with_err usage w)).
Proof. reflexivity. Qed.

Lemma main_step (line : CommandLine) (w : World) :
  exists given,
    (forall p, given = Some p -> In p priority_choices) /\
    Step given (load (file w)) (load (file (snd (run (main line) w)))).
Proof.
  unfold main. destruct (parse_args line) as [h|[usage message]] eqn:E.
  - exists (given_priority h). split.
    + intros p. now apply parse_args_priority with (line := line).
    + apply handle_step.
  - exists None. split; [discriminate|]. rewrite usage_error_run. apply StepNone.
Qed.

(** *** What every step keeps *)

Lemma step_ids_sorted (given : option Z) (l l' : list Task) :
  Step given l l' ->
  StronglySorted Z.lt (map Task.id l) -> StronglySorted Z.lt (map Task.id l').
Proof.
  intros [|t Hid _ _ _|b a t t' -> Hid _ _ _ _|keep] Hs.
  - assumption.
  - rewrite map_app. simpl. rewrite Hid.
    apply sorted_snoc; [assumption | apply next_id_above].
  - rewrite map_app in *. simpl in *. now rewrite Hid.
  - now apply sorted_filter_ids.
Qed.

Lemma step_forall (P : Task -> Prop) (given : option Z) (l l' : list Task) :
  Step given l l' ->
  (forall t, l' = (l ++ [t])%list -> Task.id t = next_id l ->
             Task.done t = false -> written_due (Task.due t) ->
             given = Some (Task.priority t) -> P t) ->
  (forall t t', In t l -> P t -> Task.id t' = Task.id t ->
                (Task.due t' = Task.due t \/ written_due (Task.due t')) ->
                (Task.priority t' = Task.priority t
                 \/ given = Some (Task.priority t')) ->
                P t') ->
  Forall P l -> Forall P l'.
Proof.
  intros [|t Hid Hd Hw Hg|b a t t' -> Hid Hc Hdue Hp Hdone|keep] Hnew Hchg Hall.
  - assumption.
  - apply Forall_app. split; [assumption|]. constructor; [|constructor].
    now apply Hnew.
  - apply Forall_app in Hall. destruct Hall as [Hb Hta].
    inversion Hta as [|? ? Ht Ha]; subst.
    apply Forall_app. split; [assumption|]. constructor; [|assumption].
    apply (Hchg t t'); auto. apply in_or_app. right. now left.
  - rewrite Forall_forall in *. intros x Hx. apply filter_In in Hx.
    now apply Hall.
Qed.

Lemma step_ids_positive (given : option Z) (l l' : list Task) :
  Step given l l' ->
  Forall (fun t => 1 <= Task.id t) l -> Forall (fun t => 1 <= Task.id t) l'.
Proof.
  intros Hs Hall. apply (step_forall _ _ _ _ Hs); [| |assumption].
  - intros t _ Hid _ _ _. rewrite Hid. now apply next_id_positive.
  - intros t t' _ Ht Hid _ _. now rewrite Hid.
Qed.

Lemma step_dues_written (given : option Z) (l l' : list Task) :
  Step given l l' ->
  Forall (fun t => written_due (Task.due t)) l ->
  Forall (fun t => written_due (Task.due t)) l'.
Proof.
  intros Hs Hall. apply (step_forall _ _ _ _ Hs); [| |assumption].
  - intros t _ _ _ Hw _. exact Hw.
  - intros t t' _ Ht _ [E|Hw] _; [now rewrite E | exact Hw].
Qed.

Lemma step_priorities (given : option Z) (l l' : list Task) :
  Step given l l' ->
  (forall p, given = Some p -> In p priority_choices) ->
  Forall (fun t => In (Task.priority t) priority_choices) l ->
  Forall (fun t => In (Task.priority t) priority_choices) l'.
Proof.
  intros Hs Hg Hall. apply (step_forall _ _ _ _ Hs); [| |assumption].
  - intros t _ _ _ _ E. now apply Hg.
  - intros t t' _ Ht _ _ [E|E]; [now rewrite E | now apply Hg].
Qed.

Lemma step_well_formed (given : option Z) (l l' : list Task) :
  Step given l l' ->
  (forall p, given = Some p -> In p priority_choices) ->
  well_formed l -> well_formed l'.
Proof.
  intros Hs Hg (Hi & Hp & Hd & Hpr).
  split; [now apply (step_ids_sorted _ _ _ Hs)|].
  split; [now apply (step_ids_positive _ _ _ Hs)|].
  split; [now apply (step_dues_written _ _ _ Hs)|].
  now apply (step_priorities _ _ _ Hs).
Qed.

Lemma same_id_same_task (l : list Task) (a b : Task) :
  NoDup (map Task.id l) -> In a l -> In b l -> Task.id a = Task.id b -> a = b.
Proof.
  induction l as [|x l IH]; simpl; intros Hnd Ha Hb E; [contradiction|].
  inversion Hnd as [|? ? Hx Hl]; subst.
  destruct Ha as [->|Ha], Hb as [->|Hb]; auto.
  - exfalso. apply Hx. rewrite E. now apply in_map.
  - exfalso. apply Hx. rewrite <- E. now apply in_map.
Qed.

Lemma step_same_task (given : option Z) (l l' : list Task) (t t' : Task) :
  Step given l l' ->
  NoDup (map Task.id l) ->
  In t l -> In t' l' -> Task.id t' = Task.id t ->
  Task.created_at t' = Task.created_at t /\
  (Task.done t = true -> Task.done t' = true) /\
  (given = None -> Task.priority t' = Task.priority t).
Proof.
  intros [|u Hid _ _ _|b a u u' -> Hid Hc _ Hp Hdone|keep] Hnd Ht Ht' E.
  - rewrite (same_id_same_task l t' t Hnd Ht' Ht E). auto.
  - apply in_app_or in Ht'. destruct Ht' as [Ht'|[<-|[]]].
    + rewrite (same_id_same_task l t' t Hnd Ht' Ht E). auto.
    + exfalso. pose proof (next_id_above l) as Ha.
      rewrite Forall_forall in Ha.
      specialize (Ha (Task.id t) (in_map Task.id _ _ Ht)). lia.
  - assert (Hu : In u (b ++ u :: a)) by (apply in_or_app; right; now left).
    assert (Hcase : t' = u' \/ In t' (b ++ u :: a)).
    { apply in_app_or in Ht'. destruct Ht' as [H|[H|H]]; auto.
      - right. apply in_or_app. now left.
      - right. apply in_or_app. right. now right. }
    destruct Hcase as [->|Hin].
    + assert (t = u) by (apply (same_id_same_task _ _ _ Hnd Ht Hu); congruence).
      subst u. split; [assumption|]. split.
      * intros Hd. destruct Hdone as [Hd'|Hd']; congruence.
      * intros ->. destruct Hp as [Hp|Hp]; [assumption | discriminate].
    + rewrite (same_id_same_task _ t' t Hnd Hin Ht E). auto.
  - apply filter_In in Ht'. destruct Ht' as [Ht' _].
    rewrite (same_id_same_task l t' t Hnd Ht' Ht E). auto.
Qed.

(** *** The collection from one run to the next *)

(** X7, [main] and the six handlers: whatever the command line and whatever
    the file holds, a run leaves the collection as it was, or appends one
    task (its id [next_id] of the collection found, not done, its due date
    none or the ISO text of a calendar date, its priority the one given), or
    changes one task in place (id and creation time kept, the done flag
    never reset, due date and priority kept or replaced by such values), or
    drops some tasks and keeps the others in their order.  Through [main]
    a priority given is one of 1, 2, 3. *)
Theorem run_appends_changes_or_drops (line : CommandLine) (h : Handler) (w : World) :
  Step (given_priority h) (load (file w)) (load (file (snd (run (handle h) w)))) /\
  exists given,
    (forall p, given = Some p -> In p priority_choices) /\
    Step given (load (file w)) (load (file (snd (run (main line) w)))).
Proof. split; [apply handle_step | apply main_step]. Qed.

(** X8, [main]: a run keeps the collection well formed.  If the ids stored
    are strictly ascending and at least 1, every due date is none or the
    ISO text of a calendar date and every priority is 1, 2 or 3, the same
    holds of the collection the run leaves, whatever the command line. *)
Theorem main_keeps_well_formed (line : CommandLine) (w : World) :
  well_formed (load (file w)) ->
  well_formed (load (file (snd (run (main line) w)))).
Proof.
  intros Hw. destruct (main_step line w) as (given & Hg & Hs).
  now apply (step_well_formed given _ _ Hs).
Qed.

Lemma two_tasks_well_formed : well_formed (load (file two_tasks)).
Proof.
  unfold well_formed. split; [|split; [|split]].
  - simpl. repeat constructor.
  - repeat constructor; simpl; lia.
  - simpl. constructor; [|constructor; [now left | constructor]].
    right. exists (mkdate 2025 1 1). split; reflexivity.
  - simpl. constructor; [|constructor; [|constructor]]; simpl; auto.
Defined.

Lemma main_keeps_well_formed_witness :
  well_formed
    (load (file (snd (run (main (CliEdit 2 None (Some "2025-02-28") (Some 2)))
                          two_tasks)))).
Proof.
  apply (main_keeps_well_formed (CliEdit 2 None (Some "2025-02-28") (Some 2))
                                two_tasks).
  exact two_tasks_well_formed.
Defined.

Lemma session_invariant (f : File) (runs : list Run) :
  well_formed (load f) -> well_formed (load (session f runs)).
Proof.
  revert f. induction runs as [|r rest IH]; intros f Hw; simpl; [assumption|].
  apply IH. unfold file_after_run.
  destruct (main_step (run_line r) (world_for f r)) as (given & Hg & Hs).
  now apply (step_well_formed given _ _ Hs).
Qed.

Lemma well_formed_nil : well_formed [].
Proof. repeat split; constructor. Qed.

(** X9, a session: when the runs of the program start from a collection
    read as empty (no file, a file that is not JSON, a file that holds no
    array, or an empty array), then after any number of runs, whatever
    their command lines, the ids stored are distinct, ascending in stored
    order and at least 1, every due date stored is none or the ISO text of
    a calendar date, every priority stored is 1, 2 or 3, and the next id
    is above every id stored. *)
Theorem session_from_scratch_well_formed (start : File) (runs : list Run) :
  load start = [] ->
  well_formed (load (session start runs)) /\
  NoDup (map Task.id (load (session start runs))) /\
  Forall (fun t => 1 <= Task.id t < next_id (load (session start runs)))
         (load (session start runs)).
Proof.
  intros He.
  assert (Hw : well_formed (load (session start runs))).
  { apply session_invariant. rewrite He. apply well_formed_nil. }
  split; [exact Hw|]. destruct Hw as (Hs & Hp & _).
  split; [now apply sorted_lt_nodup|].
  pose proof (next_id_above (load (session start runs))) as Ha.
  rewrite Forall_forall in *. intros t Ht. split; [now apply Hp|].
  apply Ha. now apply in_map.
Qed.

Lemma session_from_scratch_well_formed_witness :
  well_formed (load (session Malformed sample_session)) /\
  NoDup (map Task.id (load (session Malformed sample_session))) /\
  Forall (fun t => 1 <= Task.id t < next_id (load (session Malformed sample_session)))
         (load (session Malformed sample_session)).
Proof.
  apply (session_from_scratch_well_formed Malformed sample_session).
  reflexivity.
Defined.

(** X10, the six handlers: when the ids stored are distinct, a task that
    is still in the collection after a command (the task with the same id)
    has the creation time it had, is done if it was done, and has the
    priority it had unless the command gives one. *)
Theorem task_keeps_creation_and_done (h : Handler) (w : World) (t t' : Task) :
  NoDup (map Task.id (load (file w))) ->
  In t (load (file w)) ->
  In t' (load (file (snd (run (handle h) w)))) ->
  Task.id t' = Task.id t ->
  Task.created_at t' = Task.created_at t /\
  (Task.done t = true -> Task.done t' = true) /\
  (given_priority h = None -> Task.priority t' = Task.priority t).
Proof.
  intros Hnd Ht Ht' E.
  exact (step_same_task _ _ _ t t' (handle_step h w) Hnd Ht Ht' E).
Qed.

Lemma task_keeps_creation_and_done_witness :
  Task.created_at (Task.set_done true milk) = Task.created_at milk /\
  (Task.done milk = true -> Task.done (Task.set_done true milk) = true) /\
  (given_priority (HDone 1) = None ->
   Task.priority (Task.set_done true milk) = Task.priority milk).
Proof.
  apply (task_keeps_creation_and_done (HDone 1) two_tasks milk
                                      (Task.set_done true milk)).
  - simpl. repeat constructor; simpl; intuition discriminate.
  - simpl. auto.
  - simpl. auto.
  - reflexivity.
Defined.

(** ** Exit codes and streams *)

Lemma went_through_saved (tasks : list Task) (line : string) (w : World) :
  went_through w (saved tasks line w).
Proof. split; [reflexivity|]. exists [line]. split; [discriminate | reflexivity]. Qed.

Lemma failed_with_err (line : string) (w : World) : failed w (with_err line w).
Proof.
  split; [reflexivity|]. split; [reflexivity|].
  exists [line]. split; [discriminate | reflexivity].
Qed.

Lemma handle_outcome (h : Handler) (w : World) :
  (fst (run (handle h) w) = 0 /\ went_through w (snd (run (handle h) w))) \/
  (fst (run (handle h) w) = 1 /\ failed w (snd (run (handle h) w)) /\
   exists i, (h = HDone i \/ h = HDelete i \/
              exists text due priority, h = HEdit i text due priority) /\
             ~ In i (map Task.id (load (file w)))) \/
  (fst (run (handle h) w) = 1 /\ save_failed w (snd (run (handle h) w)) /\
   handler_cannot_save h w) \/
  (fst (run (handle h) w) = 2 /\ failed w (snd (run (handle h) w))).
Proof.
  destruct h as [text due priority|done_arg|i|i|i text due priority|df af];
    cbn [handle].
  - rewrite add_cases.
    assert (H : forall d, written_due d ->
              valid_utf8 (strip text) && valid_utf8 (now w) = false ->
              save_failed w
                (crashed (load (file w)
                          ++ [Task.mk (next_id (load (file w))) (strip text) (now w)
                                d priority false]) w)).
    { intros d Hd V. apply save_failed_crashed.
      rewrite writable_added; [exact V | apply load_writable | exact Hd]. }
    destruct (due_arg due) as [|d|] eqn:Ed; cbv zeta.
    + destruct (valid_utf8 (strip text) && valid_utf8 (now w)) eqn:V; cbn [fst snd].
      * left. split; [reflexivity | apply went_through_saved].
      * right. right. left. split; [reflexivity|].
        split; [apply H; [now left | reflexivity]|].
        cbn [handler_cannot_save]. apply andb_false_iff in V. exact V.
    + destruct (valid_utf8 (strip text) && valid_utf8 (now w)) eqn:V; cbn [fst snd].
      * left. split; [reflexivity | apply went_through_saved].
      * right. right. left. split; [reflexivity|].
        split; [apply H; [now apply (due_arg_written due) | reflexivity]|].
        cbn [handler_cannot_save]. apply andb_false_iff in V. exact V.
    + right. right. right. split; [reflexivity | apply failed_with_err].
  - rewrite list_cmd_run. left. split; [reflexivity|]. split; [reflexivity|].
    cbn [snd stdout]. eexists. split; [|reflexivity].
    destruct (listed done_arg (load (file w))); discriminate.
  - destruct (in_dec Z.eq_dec i (map Task.id (load (file w)))) as [Hin|Hn].
    + destruct (find_task_in _ _ Hin) as (b & t & a & Hf).
      rewrite (done_present _ _ _ _ _ Hf). left.
      split; [reflexivity | apply went_through_saved].
    + rewrite (done_absent _ _ Hn). right. left.
      split; [reflexivity|]. split; [apply failed_with_err|].
      exists i. auto.
  - destruct (in_dec Z.eq_dec i (map Task.id (load (file w)))) as [Hin|Hn].
    + rewrite (delete_present _ _ Hin). left.
      split; [reflexivity | apply went_through_saved].
    + rewrite (delete_absent _ _ Hn). right. left.
      split; [reflexivity|]. split; [apply failed_with_err|].
      exists i. auto.
  - destruct (in_dec Z.eq_dec i (map Task.id (load (file w)))) as [Hin|Hn].
    + destruct (find_task_in _ _ Hin) as (b & t & a & Hf).
      destruct (writable_found _ _ _ _ _ Hf) as (Wb & Wt & Wa).
      rewrite (edit_present _ _ _ _ _ _ _ _ Hf).
      assert (H : due_arg due <> DueRefused -> writable_text text = false ->
                save_failed w
                  (crashed (b ++ edited text (due_arg due) priority t :: a) w) /\
                handler_cannot_save (HEdit i text due priority) w).
      { intros Hd V. split.
        - apply save_failed_crashed.
          now rewrite (writable_around _ _ t), writable_edited.
        - destruct text as [s|]; [exact V | discriminate]. }
      destruct (due_arg due) as [|d|] eqn:Ed.
      * destruct (writable_text text) eqn:V; cbn [fst snd].
        -- left. split; [reflexivity | apply went_through_saved].
        -- right. right. left. split; [reflexivity|].
           apply H; [discriminate | reflexivity].
      * destruct (writable_text text) eqn:V; cbn [fst snd].
        -- left. split; [reflexivity | apply went_through_saved].
        -- right. right. left. split; [reflexivity|].
           apply H; [discriminate | reflexivity].
      * right. right. right. split; [reflexivity | apply failed_with_err].
    + rewrite (edit_absent _ _ _ _ _ Hn). right. left.
      split; [reflexivity|]. split; [apply failed_with_err|].
      exists i. split; [|assumption]. right. right. now exists text, due, priority.
  - destruct (clear_cases w af) as (Hd & Ha & Hn & _).
    destruct df; [|destruct af].
    + rewrite Hd. left. split; [reflexivity | apply went_through_saved].
    + rewrite Ha. left. split; [reflexivity | apply went_through_saved].
    + rewrite Hn. right. right. right. split; [reflexivity | apply failed_with_err].
Qed.

Lemma parse_args_id (line : CommandLine) (h : Handler) (i : Z) :
  parse_args line = inl h ->
  h = HDone i \/ h = HDelete i \/
  (exists text due priority, h = HEdit i text due priority) ->
  id_argument line = Some i.
Proof.
  destruct line as [text due [q|]|opts|j|j|j text due [q|]|opts];
    cbn [parse_args id_argument].
  - destruct (in_choices q); [|discriminate].
    intros [= <-] [H|[H|(? & ? & ? & H)]]; discriminate.
  - intros [= <-] [H|[H|(? & ? & ? & H)]]; discriminate.
  - destruct (parse_list_args opts) as [args|[o o']]; [|discriminate].
    intros [= <-] [H|[H|(? & ? & ? & H)]]; discriminate.
  - intros [= <-] [H|[H|(? & ? & ? & H)]]; congruence.
  - intros [= <-] [H|[H|(? & ? & ? & H)]]; congruence.
  - destruct (in_choices q); [|discriminate].
    intros [= <-] [H|[H|(? & ? & ? & H)]]; congruence.
  - intros [= <-] [H|[H|(? & ? & ? & H)]]; congruence.
  - destruct (take_options clear_action_of same_clear_option [] opts
                (add_defaults clear_actions [])) as [args|[o o']]; [|discriminate].
    destruct opts; [discriminate|].
    intros [= <-] [H|[H|(? & ? & ? & H)]]; discriminate.
Qed.

Lemma parse_args_cannot_save (line : CommandLine) (h : Handler) (w : World) :
  parse_args line = inl h -> handler_cannot_save h w -> cannot_save line w.
Proof.
  destruct line as [text due [q|]|opts|j|j|j text due [q|]|opts];
    cbn [parse_args cannot_save].
  - destruct (in_choices q); [|discriminate]. now intros [= <-].
  - now intros [= <-].
  - destruct (parse_list_args opts) as [args|[o o']]; [|discriminate].
    now intros [= <-].
  - now intros [= <-].
  - now intros [= <-].
  - destruct (in_choices q); [|discriminate]. now intros [= <-].
  - now intros [= <-].
  - destruct (take_options clear_action_of same_clear_option [] opts
                (add_defaults clear_actions [])) as [args|[o o']]; [|discriminate].
    destruct opts; [discriminate|]. now intros [= <-].
Qed.


(** ** The same command twice *)

Lemma find_task_first (i : Z) (before after : list Task) (t : Task) :
  Forall (fun x => Task.id x <> i) before -> Task.id t = i ->
  find_task i (before ++ t :: after) = Some (before, t, after).
Proof.
  intros Hb Hid. induction Hb as [|x b Hx Hb IH]; simpl.
  - apply Z.eqb_eq in Hid. now rewrite Hid.
  - apply Z.eqb_neq in Hx. now rewrite Hx, IH.
Qed.

Lemma filter_twice {A} (p : A -> bool) (l : list A) :
  filter p (filter p l) = filter p l.
Proof.
  induction l as [|x l IH]; simpl; [reflexivity|].
  destruct (p x) eqn:E; simpl; [|assumption]. now rewrite E, IH.
Qed.

Lemma edited_twice (text : option string) (a : DueArg) (priority : option Z)
    (t : Task) :
  edited text a priority (edited text a priority t) = edited text a priority t.
Proof. destruct t, text, a, priority; reflexivity. Qed.

Lemma clear_done_run (all_flag : bool) (w : World) :
  run (clear true all_flag) w
  = (0, saved (filter (fun t => negb (Task.done t)) (load (file w)))
              "Cleared all completed tasks." w).
Proof. apply clear_cases. Qed.

Lemma clear_all_run (w : World) :
  run (clear false true) w = (0, saved [] "Cleared all tasks." w).
Proof. apply (clear_cases w true). Qed.

(** X12, every handler but [add]: a command run a second time, right after
    the first, leaves the file exactly as the first run left it.  ([done]
    and [edit] find the same task and write the same values, [delete] finds
    the id gone and fails, [clear] finds nothing more to remove, [list]
    writes nothing.) *)
Theorem command_twice_same_file (h : Handler) (w : World) :
  (forall text due priority, h <> HAdd text due priority) ->
  file (snd (run (handle h) (snd (run (handle h) w))))
  = file (snd (run (handle h) w)).
Proof.
  intros Hadd.
  destruct h as [text due priority|done_arg|i|i|i text due priority|df af];
    cbn [handle].
  - now destruct (Hadd text due priority).
  - now rewrite !list_cmd_run.
  - destruct (in_dec Z.eq_dec i (map Task.id (load (file w)))) as [Hin|Hn].
    + destruct (first_with_id _ _ Hin) as (b & t & a & Hf & Hl & Hid & Hb).
      destruct (writable_found _ _ _ _ _ Hf) as (Wb & Wt & Wa).
      rewrite (done_present _ _ _ _ _ Hf). cbn [snd].
      rewrite (done_present i _ b a (Task.set_done true t)).
      * destruct t; reflexivity.
      * rewrite load_saved
          by (rewrite (writable_around _ _ t), writable_set_done; assumption).
        now apply find_task_first.
    + rewrite (done_absent _ _ Hn). cbn [snd].
      now rewrite (done_absent i (with_err _ w) Hn).
  - destruct (in_dec Z.eq_dec i (map Task.id (load (file w)))) as [Hin|Hn].
    + rewrite (delete_present _ _ Hin). cbn [snd].
      rewrite delete_absent; [reflexivity|].
      cbn [with_out with_file file].
      rewrite load_json by apply writable_filter, load_writable.
      intros H. apply in_map_iff in H. destruct H as (t & Hid & Ht).
      apply filter_In in Ht. destruct Ht as [_ Ht].
      rewrite Hid, Z.eqb_refl in Ht. discriminate.
    + rewrite (delete_absent _ _ Hn). cbn [snd].
      now rewrite (delete_absent i (with_err _ w) Hn).
  - destruct (in_dec Z.eq_dec i (map Task.id (load (file w)))) as [Hin|Hn].
    + destruct (first_with_id _ _ Hin) as (b & t & a & Hf & Hl & Hid & Hb).
      destruct (writable_found _ _ _ _ _ Hf) as (Wb & Wt & Wa).
      assert (Hw : due_arg due <> DueRefused ->
                forallb writable_task (b ++ edited text (due_arg due) priority t :: a)
                = writable_text text).
      { intros Hd. now rewrite (writable_around _ _ t), writable_edited. }
      assert (Htwice : forall x, x = due_arg due -> x <> DueRefused ->
                file (snd (run (edit i text due priority)
                             (snd (if writable_text text
                                   then (0, saved (b ++ edited text x priority t :: a)
                                                  ("Updated #" ++ str i ++ ".") w)
                                   else (1, crashed (b ++ edited text x priority t :: a)
                                                    w)))))
                = file (snd (if writable_text text
                             then (0, saved (b ++ edited text x priority t :: a)
                                            ("Updated #" ++ str i ++ ".") w)
                             else (1, crashed (b ++ edited text x priority t :: a) w)))).
      { intros x -> Hd. specialize (Hw Hd).
        destruct (writable_text text) eqn:V; cbn [snd].
        - rewrite (edit_present i _ _ _ _ b a (edited text (due_arg due) priority t)).
          + rewrite V. destruct (due_arg due); [| |congruence]; cbv beta iota zeta;
              now rewrite edited_twice.
          + rewrite load_saved by exact Hw. now apply find_task_first.
        - rewrite edit_absent; [reflexivity|].
          rewrite load_crashed by exact Hw. simpl. tauto. }
      rewrite (edit_present _ _ _ _ _ _ _ _ Hf).
      destruct (due_arg due) as [|d|] eqn:E.
      * apply Htwice; [reflexivity | discriminate].
      * apply Htwice; [reflexivity | discriminate].
      * cbn [snd]. rewrite (edit_present i _ _ _ (with_err _ w) b a t Hf).
        now rewrite E.
    + rewrite (edit_absent _ _ _ _ _ Hn). cbn [snd].
      now rewrite (edit_absent i _ _ _ (with_err _ w) Hn).
  - destruct df; [|destruct af].
    + rewrite !clear_done_run. cbn [snd].
      rewrite load_saved by apply writable_filter, load_writable.
      now rewrite filter_twice.
    + now rewrite !clear_all_run.
    + destruct (clear_cases w false) as (_ & _ & -> & _). cbn [snd].
      now destruct (clear_cases (with_err "Specify --done or --all" w) false)
        as (_ & _ & -> & _).
Qed.

Lemma command_twice_same_file_witness :
  file (snd (run (handle (HDone 1)) (snd (run (handle (HDone 1)) two_tasks))))
  = file (snd (run (handle (HDone 1)) two_tasks)).
Proof.
  apply (command_twice_same_file (HDone 1) two_tasks).
  intros text due priority. discriminate.
Defined.

(** ** The command line of [clear] *)

Lemma find_other_none (x : ClearOption) (seen : list ClearOption) :
  Forall (eq x) seen ->
  find (fun o' => negb (same_clear_option o' x)) seen = None.
Proof.
  induction 1 as [|y seen <- _ IH]; simpl; [reflexivity|].
  destruct x; simpl; exact IH.
Qed.

Lemma find_other_some (x o : ClearOption) (seen : list ClearOption) :
  seen <> [] -> Forall (eq x) seen -> o <> x ->
  find (fun o' => negb (same_clear_option o' o)) seen = Some x.
Proof.
  intros Hne Hall Ho. destruct Hall as [|y seen <- _]; [contradiction|].
  simpl. destruct x, o; simpl; congruence.
Qed.

Lemma take_clear_seen (x : ClearOption) (opts seen : list ClearOption) :
  seen <> [] -> Forall (eq x) seen ->
  match take_options clear_action_of same_clear_option seen opts
          (setattr (add_defaults clear_actions []) (dest (clear_action_of x)) true)
  with
  | inl args =>
      args = setattr (add_defaults clear_actions []) (dest (clear_action_of x)) true
      /\ Forall (eq x) opts
  | inr (o, o') => o' = x /\ o <> x /\ In o opts
  end.
Proof.
  revert seen. induction opts as [|o rest IH]; intros seen Hne Hall.
  - simpl. auto.
  - cbn [take_options].
    assert (Hdec : o = x \/ o <> x) by (destruct o, x; auto; right; discriminate).
    destruct Hdec as [->|Ho].
    + rewrite (find_other_none x seen Hall).
      assert (E : setattr (setattr (add_defaults clear_actions [])
                             (dest (clear_action_of x)) true)
                    (dest (clear_action_of x)) (const (clear_action_of x))
                  = setattr (add_defaults clear_actions [])
                      (dest (clear_action_of x)) true)
        by (destruct x; reflexivity).
      rewrite E.
      specialize (IH (x :: seen) ltac:(discriminate) (Forall_cons _ eq_refl Hall)).
      destruct (take_options clear_action_of same_clear_option (x :: seen) rest _)
        as [args|[o o']].
      * destruct IH as [-> Hr]. auto.
      * destruct IH as (-> & Hn & Hin). split; [reflexivity|]. split; [assumption|].
        now right.
    + rewrite (find_other_some x o seen Hne Hall Ho).
      split; [reflexivity|]. split; [assumption|]. now left.
Qed.

(** X3, [build_parser] and [clear]: the two options of [clear] are in a
    required exclusive group, so [main] calls [clear] with exactly one of
    the flags set, and only when the options on the command line are all
    [--done] or all [--all] (at least one); with no option, or with both,
    it exits with code 2 on a usage error, the file untouched.  The
    handler's own answer to neither flag ("Specify --done or --all") is
    never reached from the command line. *)
Theorem clear_gets_exactly_one_flag (options : list ClearOption) (w : World) :
  match parse_args (CliClear options) with
  | inl h =>
      options <> [] /\
      ((Forall (eq ClearDone) options /\ h = HClear true false /\
        run (main (CliClear options)) w
        = (0, saved (filter (fun t => negb (Task.done t)) (load (file w)))
                    "Cleared all completed tasks." w)) \/
       (Forall (eq ClearAll) options /\ h = HClear false true /\
        run (main (CliClear options)) w = (0, saved [] "Cleared all tasks." w)))
  | inr (usage, message) =>
      (options = [] \/ (In ClearDone options /\ In ClearAll options)) /\
      message <> "Specify --done or --all" /\
      run (main (CliClear options)) w = (2, with_err message (with_err usage w))
  end.
Proof.
  unfold main. cbn [parse_args].
  destruct options as [|x rest].
  - cbn [take_options]. split; [now left|]. split; [discriminate | reflexivity].
  - cbn [take_options find].
    assert (E : setattr (add_defaults clear_actions []) (dest (clear_action_of x))
                  (const (clear_action_of x))
                = setattr (add_defaults clear_actions []) (dest (clear_action_of x)) true)
      by (destruct x; reflexivity).
    rewrite E.
    pose proof (take_clear_seen x rest [x] ltac:(discriminate)
                  (Forall_cons _ eq_refl (Forall_nil _))) as H.
    destruct (take_options clear_action_of same_clear_option [x] rest _)
      as [args|[o o']].
    + destruct H as [-> Hr]. split; [discriminate|].
      destruct x; [left | right]; (split; [now constructor | split; [reflexivity|]]);
        [apply (clear_done_run false) | apply clear_all_run].
    + destruct H as (-> & Hn & Hin). split; [|split].
      * right. destruct x, o; try congruence; split; simpl; auto.
      * destruct x, o; discriminate.
      * reflexivity.
Qed.

(** ** The table of [list] *)

Lemma len_app (a b : string) : len (a ++ b) = (len a + len b)%nat.
Proof.
  induction a as [|c a IH]; simpl; [reflexivity|].
  destruct (is_continuation c); simpl; now rewrite IH.
Qed.

Lemma len_spaces (n : nat) : len (spaces n) = n.
Proof. induction n as [|n IH]; simpl; [reflexivity|]. now rewrite IH. Qed.

Lemma len_dashes (n : nat) : len (dashes n) = n.
Proof. induction n as [|n IH]; simpl; [reflexivity|]. now rewrite IH. Qed.

Lemma len_ljust (w : nat) (s : string) : len (ljust w s) = Nat.max w (len s).
Proof. unfold ljust. rewrite len_app, len_spaces. lia. Qed.

Lemma len_concat (cells : list string) :
  len (String.concat "  " cells)
  = (fold_right Nat.add 0 (map len cells) + 2 * (List.length cells - 1))%nat.
Proof.
  induction cells as [|c rest IH]; [reflexivity|].
  destruct rest as [|c' rest].
  - simpl. lia.
  - change (String.concat "  " (c :: c' :: rest))
      with (c ++ "  " ++ String.concat "  " (c' :: rest)).
    rewrite !len_app, IH. simpl. lia.
Qed.

Lemma len_format_row (colw : list nat) (cells : list string) :
  Forall2 (fun w c => (len c <= w)%nat) colw cells ->
  len (format_row colw cells) = table_width colw.
Proof.
  intros Hfit. unfold format_row, table_width. rewrite len_concat.
  rewrite !length_map.
  assert (Hl : List.length (combine colw cells) = List.length colw /\
               map len (map (fun wc : nat * string => ljust (fst wc) (snd wc))
                            (combine colw cells)) = colw).
  { induction Hfit as [|w c colw cells Hwc _ [IH1 IH2]]; [split; reflexivity|].
    simpl. rewrite IH1, IH2, len_ljust. split; [reflexivity|]. f_equal. lia. }
  destruct Hl as [-> ->]. reflexivity.
Qed.

Lemma max_len_ge (i : nat) (rows : list (list string)) (r : list string) :
  In r rows -> (len (nth i r "") <= max_len i rows)%nat.
Proof.
  unfold max_len. induction rows as [|x rows IH]; simpl; [contradiction|].
  intros [->|Hin]; [lia|]. specialize (IH Hin). lia.
Qed.

Lemma column_widths_length (rows : list (list string)) :
  List.length (column_widths rows) = 5%nat.
Proof. reflexivity. Qed.

Lemma headers_fit (rows : list (list string)) :
  Forall2 (fun w c => (len c <= w)%nat) (column_widths rows) headers.
Proof.
  unfold column_widths, headers. cbn [List.length seq combine map fst snd].
  repeat constructor; apply Nat.le_max_l.
Qed.

Lemma dashes_fit (colw : list nat) :
  Forall2 (fun w c => (len c <= w)%nat) colw (map dashes colw).
Proof.
  induction colw as [|w colw IH]; simpl; constructor; [|assumption].
  now rewrite len_dashes.
Qed.

Lemma row_fits (today : date) (t : Task) (rows : list (list string)) :
  In (row today t) rows ->
  Forall2 (fun w c => (len c <= w)%nat) (column_widths rows) (row today t).
Proof.
  intros Hin. unfold column_widths, headers, row.
  cbn [List.length seq combine map fst snd].
  repeat constructor.
  - etransitivity; [|apply Nat.le_max_r]. apply (max_len_ge 0 _ _ Hin).
  - etransitivity; [|apply Nat.le_max_r]. apply (max_len_ge 1 _ _ Hin).
  - etransitivity; [|apply Nat.le_max_r]. apply (max_len_ge 2 _ _ Hin).
  - etransitivity; [|apply Nat.le_max_r]. apply (max_len_ge 3 _ _ Hin).
  - etransitivity; [|apply Nat.le_max_r]. apply (max_len_ge 4 _ _ Hin).
Qed.

Lemma table_aligned (today : date) (tasks : list Task) :
  Forall (fun line => len line = table_width (column_widths (map (row today) tasks)))
         (table today tasks).
Proof.
  unfold table. cbv zeta.
  constructor; [apply len_format_row, headers_fit|].
  constructor; [apply len_format_row, dashes_fit|].
  rewrite Forall_forall. intros line Hin.
  apply in_map_iff in Hin. destruct Hin as (r & <- & Hr).
  apply len_format_row.
  pose proof Hr as Hr'. apply in_map_iff in Hr'. destruct Hr' as (t & <- & Ht).
  now apply row_fits.
Qed.

(** X14, [list_cmd]: [list] exits with code 0 and changes neither the file
    nor the error stream.  When no task passes the filter it prints
    "No tasks found."; otherwise it prints a header, a rule and one line
    per task listed, in the order of the listing, and every line it prints
    has the same number of characters: the sum of the five column widths
    and two spaces between neighbours, each column as wide as its header
    and its longest cell. *)
Theorem list_prints_aligned_table (done_arg : option bool) (w : World) :
  exists lines,
    run (list_cmd done_arg) w
    = (0, mkWorld (file w) (now w) (today w) (stdout w ++ lines) (stderr w)) /\
    ((listed done_arg (load (file w)) = [] /\ lines = ["No tasks found."]) \/
     (listed done_arg (load (file w)) <> [] /\
      lines = table (today w) (listed done_arg (load (file w))) /\
      List.length lines = (2 + List.length (listed done_arg (load (file w))))%nat /\
      Forall2 (fun width header => (len header <= width)%nat)
        (column_widths (map (row (today w)) (listed done_arg (load (file w)))))
        headers /\
      Forall (fun line =>
                len line
                = table_width
                    (column_widths
                       (map (row (today w)) (listed done_arg (load (file w))))))
             lines)).
Proof.
  rewrite list_cmd_run.
  destruct (listed done_arg (load (file w))) as [|t l] eqn:E.
  - exists ["No tasks found."]. split; [reflexivity|]. now left.
  - exists (table (today w) (t :: l)). split; [reflexivity|]. right.
    split; [discriminate|]. split; [reflexivity|].
    split; [unfold table; simpl; now rewrite !length_map|].
    split; [apply headers_fit | apply table_aligned].
Qed.

(** ** A command, then [list] *)

Lemma filter_done_of_pending (tasks : list Task) :
  filter Task.done (filter (fun t => negb (Task.done t)) tasks) = [].
Proof.
  induction tasks as [|t l IH]; simpl; [reflexivity|].
  destruct (Task.done t) eqn:E; simpl; [assumption|]. now rewrite E.
Qed.

Lemma list_cmd_nothing (done_arg : option bool) (w : World) :
  listed done_arg (load (file w)) = [] ->
  run (list_cmd done_arg) w = (0, with_out "No tasks found." w).
Proof. intros E. rewrite list_cmd_run, E. reflexivity. Qed.

(** X15, [clear] then [list]: after [clear --done] the listing of the done
    tasks is empty ([list --done] prints "No tasks found.") and the listing
    of the pending tasks is what it was before; after [clear --all] every
    listing is empty, [list] prints "No tasks found." whatever its option,
    and the next id is 1 again. *)
Theorem clear_then_list (all_flag : bool) (done_arg : option bool) (w : World) :
  listed (Some true) (load (file (snd (run (clear true all_flag) w)))) = [] /\
  run (list_cmd (Some true)) (snd (run (clear true all_flag) w))
  = (0, with_out "No tasks found." (snd (run (clear true all_flag) w))) /\
  listed (Some false) (load (file (snd (run (clear true all_flag) w))))
  = listed (Some false) (load (file w)) /\
  listed None (load (file (snd (run (clear true all_flag) w))))
  = listed (Some false) (load (file w)) /\
  listed done_arg (load (file (snd (run (clear false true) w)))) = [] /\
  run (list_cmd done_arg) (snd (run (clear false true) w))
  = (0, with_out "No tasks found." (snd (run (clear false true) w))) /\
  next_id (load (file (snd (run (clear false true) w)))) = 1.
Proof.
  assert (Hl : load (file (snd (run (clear true all_flag) w)))
               = filter (fun t => negb (Task.done t)) (load (file w))).
  { rewrite clear_done_run. cbn [snd].
    apply load_saved, writable_filter, load_writable. }
  assert (Hn : load (file (snd (run (clear false true) w))) = []).
  { rewrite clear_all_run. cbn [snd]. now apply load_saved. }
  assert (Hd : listed (Some true) (load (file (snd (run (clear true all_flag) w)))) = []).
  { rewrite Hl. unfold listed, filter_tasks. now rewrite filter_done_of_pending. }
  assert (Ha : listed done_arg (load (file (snd (run (clear false true) w)))) = [])
    by (rewrite Hn; destruct done_arg as [[|]|]; reflexivity).
  split; [exact Hd|]. split; [now apply list_cmd_nothing|].
  split; [|split].
  - rewrite Hl. unfold listed, filter_tasks. now rewrite filter_twice.
  - rewrite Hl. reflexivity.
  - split; [exact Ha|]. split; [now apply list_cmd_nothing | now rewrite Hn].
Qed.

(** X16, [add] then [list]: when the due argument is not refused and the
    task can be saved (the text, trimmed, and the reading of the clock are
    UTF-8), the task that [add] appends (the next id, the text trimmed, not
    done) is in the listing of the pending tasks of the file it leaves,
    which holds this task and the pending tasks listed before, and in no
    listing of the done tasks. *)
Theorem added_task_is_listed
    (w : World) (text : string) (due : option string) (priority : Z) :
  due_arg due <> DueRefused ->
  valid_utf8 (strip text) = true ->
  valid_utf8 (now w) = true ->
  exists t,
    Task.id t = next_id (load (file w)) /\ Task.text t = strip text /\
    Task.priority t = priority /\
    load (file (snd (run (add text due priority) w))) = (load (file w) ++ [t])%list /\
    In t (listed (Some false) (load (file (snd (run (add text due priority) w))))) /\
    Permutation (t :: listed (Some false) (load (file w)))
      (listed (Some false) (load (file (snd (run (add text due priority) w))))) /\
    ~ In t (listed (Some true) (load (file (snd (run (add text due priority) w))))).
Proof.
  intros Hdue Vtext Vnow. rewrite load_after_add_run, Vtext, Vnow. cbn [andb].
  assert (H : forall d,
    let t := Task.mk (next_id (load (file w))) (strip text) (now w) d priority false in
    In t (listed (Some false) (load (file w) ++ [t])) /\
    Permutation (t :: listed (Some false) (load (file w)))
                (listed (Some false) (load (file w) ++ [t])) /\
    ~ In t (listed (Some true) (load (file w) ++ [t]))).
  { intros d t. split; [|split].
    - apply listed_pending_only. split; [|reflexivity]. apply in_or_app. right. now left.
    - unfold listed, filter_tasks. rewrite filter_app. simpl.
      etransitivity; [|apply sort_by_perm].
      etransitivity; [|apply Permutation_cons_append].
      constructor. symmetry. apply sort_by_perm.
    - unfold listed, filter_tasks. rewrite sort_by_in, filter_In.
      intros [_ Hd]. discriminate. }
  destruct (due_arg due) as [|d|]; [| |contradiction].
  - exists (Task.mk (next_id (load (file w))) (strip text) (now w) None priority false).
    repeat (split; [reflexivity|]). apply (H None).
  - exists (Task.mk (next_id (load (file w))) (strip text) (now w) d priority false).
    repeat (split; [reflexivity|]). apply (H d).
Qed.

Lemma added_task_is_listed_witness :
  exists t,
    Task.id t = next_id (load (file two_tasks)) /\ Task.text t = strip " Call home " /\
    Task.priority t = 2 /\
    load (file (snd (run (add " Call home " (Some "2025-1-9") 2) two_tasks)))
    = (load (file two_tasks) ++ [t])%list /\
    In t (listed (Some false)
            (load (file (snd (run (add " Call home " (Some "2025-1-9") 2) two_tasks))))) /\
    Permutation (t :: listed (Some false) (load (file two_tasks)))
      (listed (Some false)
         (load (file (snd (run (add " Call home " (Some "2025-1-9") 2) two_tasks))))) /\
    ~ In t (listed (Some true)
              (load (file (snd (run (add " Call home " (Some "2025-1-9") 2) two_tasks))))).
Proof.
  apply (added_task_is_listed two_tasks " Call home " (Some "2025-1-9") 2).
  - vm_compute. discriminate.
  - reflexivity.
  - reflexivity.
Defined.

(** X17, [done] then [list]: when the ids stored are distinct and a task
    has the id, then after [done] no task with that id is in the listing
    of the pending tasks, the task with the id is in the listing of the
    done tasks, and every other task is listed as before. *)
Theorem done_task_moves_to_done_list (w : World) (i : Z) :
  NoDup (map Task.id (load (file w))) ->
  In i (map Task.id (load (file w))) ->
  Forall (fun t => Task.id t <> i)
         (listed (Some false) (load (file (snd (run (done i) w))))) /\
  (exists t, Task.id t = i /\
             In t (listed (Some true) (load (file (snd (run (done i) w)))))) /\
  (forall (t : Task) (done_arg : option bool),
     Task.id t <> i ->
     In t (listed done_arg (load (file w)))
     <-> In t (listed done_arg (load (file (snd (run (done i) w)))))).
Proof.
  intros Hnd Hin.
  destruct (first_with_id _ _ Hin) as (b & t & a & Hf & Hl & Hid & Hb).
  destruct (writable_found _ _ _ _ _ Hf) as (Wb & Wt & Wa).
  rewrite (done_present _ _ _ _ _ Hf). cbn [snd].
  rewrite load_saved
    by (rewrite (writable_around _ _ t), writable_set_done; assumption).
  rewrite Hl in *.
  assert (Ha : Forall (fun x => Task.id x <> i) a).
  { rewrite map_app in Hnd. simpl in Hnd. apply NoDup_remove_2 in Hnd.
    rewrite Forall_forall. intros x Hx E. apply Hnd. apply in_or_app. right.
    rewrite Hid. rewrite <- E. now apply in_map. }
  assert (Hother : forall x, Task.id x <> i ->
            In x (b ++ t :: a) <-> In x (b ++ Task.set_done true t :: a)).
  { intros x Hx. rewrite !in_app_iff. simpl.
    split; (intros [H|[H|H]]; auto; subst x; destruct t; simpl in *; congruence). }
  split; [|split].
  - rewrite Forall_forall. intros x Hx E.
    apply listed_pending_only in Hx. destruct Hx as [Hx Hd].
    rewrite Forall_forall in Hb, Ha.
    apply in_app_or in Hx. destruct Hx as [Hx|[Hx|Hx]].
    + now apply (Hb x).
    + subst x. destruct t; discriminate.
    + now apply (Ha x).
  - exists (Task.set_done true t). split; [destruct t; exact Hid|].
    unfold listed, filter_tasks. rewrite sort_by_in, filter_In.
    split; [|destruct t; reflexivity]. apply in_or_app. right. now left.
  - intros x done_arg Hx. unfold listed. rewrite !sort_by_in.
    destruct done_arg as [[|]|]; unfold filter_tasks; rewrite ?filter_In;
      rewrite (Hother x Hx); tauto.
Qed.

Lemma done_task_moves_to_done_list_witness :
  Forall (fun t => Task.id t <> 1)
         (listed (Some false) (load (file (snd (run (done 1) two_tasks))))) /\
  (exists t, Task.id t = 1 /\
             In t (listed (Some true) (load (file (snd (run (done 1) two_tasks)))))) /\
  (forall (t : Task) (done_arg : option bool),
     Task.id t <> 1 ->
     In t (listed done_arg (load (file two_tasks)))
     <-> In t (listed done_arg (load (file (snd (run (done 1) two_tasks)))))).
Proof.
  apply (done_task_moves_to_done_list two_tasks 1).
  - simpl. repeat constructor; simpl; intuition discriminate.
  - simpl. auto.
Defined.

(** ** A due date, once written *)

Ltac each_value x lo :=
  first
    [ lia
    | let H := fresh "Hne" in
      let lo' := eval cbv in (lo + 1) in
      destruct (Z.eq_dec x lo) as [->|H]; [|each_value x lo'] ].

Lemma month_day_match (y m dd : Z) :
  1 <= m <= 12 -> 1 <= dd <= 31 ->
  first_some
    (fun mr : Z * string =>
       match after_char "-" (snd mr) with
       | Some r2 =>
           match day_alts r2 with
           | (d, r3) :: _ => Some (y, fst mr, d, r3)
           | [] => None
           end
       | None => None
       end)
    (month_alts (pad2 m ++ String "-" (pad2 dd ++ "")))
  = Some (y, m, dd, "").
Proof.
  intros Hm Hd. each_value m 1; each_value dd 1; reflexivity.
Qed.

Lemma decimal_digit_char (k : Z) (r : string) :
  0 <= k <= 9 -> decimal (String (digit_char k) r) = Some (k, r).
Proof.
  intros Hk.
  assert (H : k = 0 \/ k = 1 \/ k = 2 \/ k = 3 \/ k = 4 \/ k = 5 \/ k = 6
              \/ k = 7 \/ k = 8 \/ k = 9) by lia.
  repeat (destruct H as [->|H]; [reflexivity|]). now subst.
Qed.

Lemma take_decimals_pad2 (n acc : Z) (r : string) :
  0 <= n < 100 -> take_decimals 2 acc (pad2 n ++ r) = Some (100 * acc + n, r).
Proof.
  intros Hn. unfold pad2. cbn [append take_decimals].
  assert (H1 : 0 <= n / 10 <= 9).
  { split; [apply Z.div_pos; lia | apply Z.lt_succ_r, Z.div_lt_upper_bound; lia]. }
  assert (H0 : 0 <= n mod 10 <= 9) by (pose proof (Z.mod_pos_bound n 10); lia).
  rewrite (decimal_digit_char _ _ H1), (decimal_digit_char _ _ H0).
  do 2 f_equal. pose proof (Z.div_mod n 10 ltac:(lia)). lia.
Qed.

Lemma take_decimals_add (a b : nat) (acc : Z) (s : string) :
  take_decimals (a + b) acc s
  = match take_decimals a acc s with
    | Some (v, r) => take_decimals b v r
    | None => None
    end.
Proof.
  revert acc s. induction a as [|a IH]; intros acc s; [reflexivity|].
  cbn [Nat.add take_decimals]. destruct (decimal s) as [[d s']|]; [apply IH | reflexivity].
Qed.

Lemma take_decimals_pad4 (n : Z) (r : string) :
  0 <= n <= 9999 -> take_decimals 4 0 (pad4 n ++ r) = Some (n, r).
Proof.
  intros Hn. unfold pad4.
  assert (H1 : 0 <= n / 100 < 100).
  { split; [apply Z.div_pos; lia | apply Z.div_lt_upper_bound; lia]. }
  assert (H0 : 0 <= n mod 100 < 100) by (apply Z.mod_pos_bound; lia).
  rewrite append_assoc_pad, (take_decimals_add 2 2).
  rewrite (take_decimals_pad2 (n / 100) 0 _ H1).
  rewrite (take_decimals_pad2 (n mod 100) _ r H0). do 2 f_equal.
  pose proof (Z.div_mod n 100 ltac:(lia)). lia.
Qed.

(** [datetime.strptime(d.isoformat(), "%Y-%m-%d").date() == d] *)
Lemma strptime_isoformat (d : date) :
  valid_date d = true -> strptime (isoformat d) = Some d.
Proof.
  intros Hv. destruct (valid_date_bounds d Hv) as (Hy & Hm & Hd).
  unfold strptime, match_ymd.
  change (isoformat d)
    with (pad4 (year d) ++ String "-" (pad2 (month d) ++ String "-" (pad2 (day d) ++ ""))).
  rewrite take_decimals_pad4, after_char_same by lia.
  rewrite (month_day_match (year d) (month d) (day d) Hm Hd).
  now apply make_date_valid.
Qed.

(** X18, [parse_date]: the text it returns for a due date is in normal
    form.  It is the ISO text of the calendar date that was read; given to
    [parse_date] again it is returned as it is; and [date.fromisoformat],
    which [is_overdue] reads it with, gives that same date.  [parse_date]
    leaves the world as it found it when it returns. *)
Theorem parse_date_normal_form (s t : string) (w w' : World) :
  parse_date (Some s) w = Returned (Some t) w' ->
  w' = w /\
  parse_date (Some t) w = Returned (Some t) w /\
  exists d, valid_date d = true /\ strptime s = Some d /\
            t = isoformat d /\ fromisoformat t = Some d.
Proof.
  rewrite parse_date_cases. destruct s as [|c s]; [discriminate|].
  destruct (strptime (String c s)) as [d|] eqn:E; [|discriminate].
  intros [= <- <-]. pose proof (strptime_valid _ _ E) as Hv.
  split; [reflexivity|]. split.
  - rewrite parse_date_cases.
    destruct (isoformat d) as [|c' r] eqn:Ei; [discriminate Ei|].
    rewrite <- Ei. now rewrite (strptime_isoformat d Hv).
  - exists d. repeat split; auto. now apply fromisoformat_isoformat.
Qed.

Lemma parse_date_normal_form_witness :
  two_tasks = two_tasks /\
  parse_date (Some "2025-01-05") two_tasks = Returned (Some "2025-01-05") two_tasks /\
  exists d, valid_date d = true /\ strptime "2025-1-5" = Some d /\
            "2025-01-05" = isoformat d /\ fromisoformat "2025-01-05" = Some d.
Proof.
  apply (parse_date_normal_form "2025-1-5" "2025-01-05" two_tasks two_tasks).
  reflexivity.
Defined.

(** ** The listing and the order of the file *)

Section SortOfDistinctKeys.
Context {A K : Type} `{PyOrd K} (key : A -> K).

Lemma perm_filter (p : A -> bool) (l l' : list A) :
  Permutation l l' -> Permutation (filter p l) (filter p l').
Proof.
  induction 1 as [|x l l' _ IH|x y l|l l' l'' _ IH1 _ IH2]; simpl.
  - constructor.
  - destruct (p x); [now constructor | assumption].
  - destruct (p x), (p y); try reflexivity. apply perm_swap.
  - now transitivity (filter p l').
Qed.

Lemma one_of_a_key (k : K) (l : list A) :
  NoDup (map key l) -> (List.length (filter (has_key key k) l) <= 1)%nat.
Proof.
  induction l as [|x l IH]; simpl; intros Hnd; [lia|].
  inversion Hnd as [|? ? Hx Hl]; subst. specialize (IH Hl).
  destruct (has_key key k x) eqn:Ex; [|lia].
  simpl. destruct (filter (has_key key k) l) as [|y r] eqn:Ef; [simpl; lia|].
  exfalso. apply Hx.
  assert (Hy : In y (filter (has_key key k) l)) by (rewrite Ef; now left).
  apply filter_In in Hy. destruct Hy as [Hy Ey].
  unfold has_key in Ex, Ey.
  destruct (cmp (key x) k) eqn:Cx; try discriminate.
  destruct (cmp (key y) k) eqn:Cy; try discriminate.
  apply cmp_eq in Cx, Cy. rewrite Cx, <- Cy. now apply in_map.
Qed.

Lemma sort_by_of_permutation (l l' : list A) :
  NoDup (map key l) -> Permutation l l' -> sort_by key l = sort_by key l'.
Proof.
  intros Hnd Hp.
  apply (sorted_stable_unique key); try apply sort_by_sorted.
  intros k. rewrite !sort_by_stable.
  pose proof (one_of_a_key k l Hnd) as Hlen.
  pose proof (perm_filter (has_key key k) l l' Hp) as Hf.
  destruct (filter (has_key key k) l) as [|x [|y r]].
  - apply Permutation_nil in Hf. now rewrite Hf.
  - apply Permutation_length_1_inv in Hf. now rewrite Hf.
  - simpl in Hlen. lia.
Qed.

End SortOfDistinctKeys.

(** X19, [list_cmd]: when the ids stored are distinct, what [list] shows
    depends on the tasks in the file and not on their order there: two
    files that hold the same tasks in different orders give the same
    listing, whatever the filter. *)
Theorem listing_ignores_stored_order
    (done_arg : option bool) (tasks tasks' : list Task) :
  NoDup (map Task.id tasks) -> Permutation tasks tasks' ->
  listed done_arg tasks = listed done_arg tasks'.
Proof.
  intros Hnd Hp. unfold listed. apply sort_by_of_permutation.
  - now apply sort_key_ids_nodup, filter_tasks_ids_nodup.
  - destruct done_arg as [[|]|]; simpl; [now apply perm_filter .. | assumption].
Qed.

Lemma listing_ignores_stored_order_witness :
  listed None [milk; report] = listed None [report; milk].
Proof.
  apply (listing_ignores_stored_order None [milk; report] [report; milk]).
  - simpl. repeat constructor; simpl; intuition discriminate.
  - apply perm_swap.
Defined.

(** ** The priority on the command line *)

Lemma not_in_choices (p : Z) : ~ In p priority_choices -> in_choices p = false.
Proof.
  intros Hn. destruct (in_choices p) eqn:E; [|reflexivity].
  now apply in_choices_in in E.
Qed.

(** X20, [build_parser] and [main]: a [--priority] that is not 1, 2 or 3
    stops [add] and [edit] before they run: exit code 2, two lines on the
    error stream, the file and the output untouched, whatever the other
    arguments are ([edit] of an id that no task has then exits with code
    2, not 1).  [add] without [--priority] is [add] with priority 3, and
    [edit] without it, when its text (if given) can be written, leaves
    every priority as it is. *)
Theorem priority_outside_choices_is_refused
    (p i : Z) (text : string) (new_text due : option string) (w : World) :
  ~ In p priority_choices ->
  run (main (CliAdd text due (Some p))) w
  = (2, with_err (invalid_choice "todo add" p) (with_err add_usage w)) /\
  run (main (CliEdit i new_text due (Some p))) w
  = (2, with_err (invalid_choice "todo edit" p) (with_err edit_usage w)) /\
  file (with_err (invalid_choice "todo add" p) (with_err add_usage w)) = file w /\
  file (with_err (invalid_choice "todo edit" p) (with_err edit_usage w)) = file w /\
  main (CliAdd text due None) = main (CliAdd text due (Some 3)) /\
  (writable_text new_text = true ->
   map Task.priority (load (file (snd (run (main (CliEdit i new_text due None)) w))))
   = map Task.priority (load (file w))).
Proof.
  intros Hp. apply not_in_choices in Hp.
  unfold main. cbn [parse_args]. rewrite Hp.
  repeat (split; [reflexivity|]).
  cbn [handle]. intros Htext.
  destruct (in_dec Z.eq_dec i (map Task.id (load (file w)))) as [Hin|Hn].
  - destruct (first_with_id _ _ Hin) as (b & t & a & Hf & Hl & Hid & Hb).
    rewrite (load_after_edit_run _ _ _ _ _ _ _ _ Hf), Htext.
    destruct (due_arg due); try reflexivity;
      rewrite Hl, !map_app; reflexivity.
  - now rewrite (edit_absent _ _ _ _ _ Hn).
Qed.

Lemma priority_outside_choices_is_refused_witness :
  run (main (CliAdd "Buy milk" (Some "soon") (Some 0))) two_tasks
  = (2, with_err (invalid_choice "todo add" 0) (with_err add_usage two_tasks)) /\
  run (main (CliEdit 7 None (Some "soon") (Some 0))) two_tasks
  = (2, with_err (invalid_choice "todo edit" 0) (with_err edit_usage two_tasks)) /\
  file (with_err (invalid_choice "todo add" 0) (with_err add_usage two_tasks))
  = file two_tasks /\
  file (with_err (invalid_choice "todo edit" 0) (with_err edit_usage two_tasks))
  = file two_tasks /\
  main (CliAdd "Buy milk" (Some "soon") None) = main (CliAdd "Buy milk" (Some "soon") (Some 3)) /\
  (writable_text None = true ->
   map Task.priority
       (load (file (snd (run (main (CliEdit 7 None (Some "soon") None)) two_tasks))))
   = map Task.priority (load (file two_tasks))).
Proof.
  apply (priority_outside_choices_is_refused 0 7 "Buy milk" None (Some "soon") two_tasks).
  simpl. intuition discriminate.
Defined.

(** ** A file that does not hold a collection *)

(** X21, [load_tasks] under the commands: when the collection read from
    the file is empty (there is no file, or it holds text that is not
    JSON, such as the file that a failed save cut short, or a value that
    is no array, or an empty array), every command goes on with an empty
    collection.  [add], when the due argument is not refused and the task
    can be saved (the text, trimmed, and the reading of the clock are
    UTF-8), writes a file that holds its one task, with id 1, and [clear]
    writes an empty array, so what the file held is lost; [done],
    [delete] and [edit] exit with code 1 and [list] prints
    "No tasks found.", the file left as it was. *)
Theorem file_read_as_empty_collection
    (w : World) (i : Z) (text : string) (new_text due : option string)
    (priority : Z) (new_priority : option Z) (done_arg : option bool)
    (all_flag : bool) :
  load (file w) = [] ->
  (due_arg due <> DueRefused ->
   valid_utf8 (strip text) = true -> valid_utf8 (now w) = true ->
   exists t, Task.id t = 1 /\ Task.text t = strip text /\
             file (snd (run (add text due priority) w)) = Json (TaskArray [t]) /\
             load (file (snd (run (add text due priority) w))) = [t]) /\
  file (snd (run (clear true all_flag) w)) = Json (TaskArray []) /\
  file (snd (run (clear false true) w)) = Json (TaskArray []) /\
  run (done i) w = (1, with_err (not_found_error i) w) /\
  run (delete i) w = (1, with_err (not_found_error i) w) /\
  run (edit i new_text due new_priority) w = (1, with_err (not_found_error i) w) /\
  run (list_cmd done_arg) w = (0, with_out "No tasks found." w).
Proof.
  intros He.
  assert (Hn : ~ In i (map Task.id (load (file w)))) by (rewrite He; simpl; tauto).
  split; [|split; [|split; [|split; [|split; [|split]]]]].
  - intros Hdue Vtext Vnow.
    pose proof (load_after_add_run text due priority w) as Hl.
    rewrite add_cases in *. rewrite He, Vtext, Vnow in *. cbn [andb] in *.
    destruct (due_arg due); [| |contradiction]; cbv zeta in *; cbn [snd] in *;
      eexists; (split; [|split; [|split; [reflexivity | exact Hl]]]); reflexivity.
  - rewrite clear_done_run, He. reflexivity.
  - now rewrite clear_all_run.
  - now apply done_absent.
  - now apply delete_absent.
  - now apply edit_absent.
  - apply list_cmd_nothing. rewrite He. now destruct done_arg as [[|]|].
Qed.

Lemma file_read_as_empty_collection_witness :
  (due_arg (Some "2025-1-5") <> DueRefused ->
   valid_utf8 (strip "Buy milk") = true ->
   valid_utf8 (now (world_of Malformed)) = true ->
   exists t, Task.id t = 1 /\ Task.text t = strip "Buy milk" /\
             file (snd (run (add "Buy milk" (Some "2025-1-5") 1 ) (world_of Malformed)))
             = Json (TaskArray [t]) /\
             load (file (snd (run (add "Buy milk" (Some "2025-1-5") 1)
                               (world_of Malformed)))) = [t]) /\
  file (snd (run (clear true false) (world_of Malformed))) = Json (TaskArray []) /\
  file (snd (run (clear false true) (world_of Malformed))) = Json (TaskArray []) /\
  run (done 1) (world_of Malformed)
  = (1, with_err (not_found_error 1) (world_of Malformed)) /\
  run (delete 1) (world_of Malformed)
  = (1, with_err (not_found_error 1) (world_of Malformed)) /\
  run (edit 1 None (Some "2025-1-5") (Some 2)) (world_of Malformed)
  = (1, with_err (not_found_error 1) (world_of Malformed)) /\
  run (list_cmd None) (world_of Malformed)
  = (0, with_out "No tasks found." (world_of Malformed)).
Proof.
  apply (file_read_as_empty_collection (world_of Malformed) 1 "Buy milk"
           None (Some "2025-1-5") 1 (Some 2) None false).
  reflexivity.
Defined.

(** ** The filter of [list] *)

Lemma filter_split_length {A} (p : A -> bool) (l : list A) :
  (List.length (filter p l) + List.length (filter (fun x => negb (p x)) l)
   = List.length l)%nat.
Proof.
  induction l as [|x l IH]; simpl; [reflexivity|].
  destruct (p x); simpl; lia.
Qed.

(** X2, [list_cmd]: the listing holds exactly the tasks that pass the
    filter, each as often as the file holds it: the done tasks for
    [args.done is True], the pending ones for [args.done is False], all of
    them otherwise; every task of the file is in one of the two filtered
    listings and in one only. *)
Theorem listed_is_the_filtered_collection
    (done_arg : option bool) (tasks : list Task) (t : Task) :
  Permutation (filter_tasks done_arg tasks) (listed done_arg tasks) /\
  (In t (listed (Some true) tasks) <-> In t tasks /\ Task.done t = true) /\
  (In t (listed (Some false) tasks) <-> In t tasks /\ Task.done t = false) /\
  (In t (listed None tasks) <-> In t tasks) /\
  (List.length (listed (Some true) tasks) + List.length (listed (Some false) tasks)
   = List.length (listed None tasks))%nat.
Proof.
  split; [apply sort_by_perm|].
  split; [unfold listed; rewrite sort_by_in; simpl; now rewrite filter_In|].
  split; [apply listed_pending_only|].
  split; [unfold listed; now rewrite sort_by_in|].
  unfold listed. rewrite !sort_by_length. apply filter_split_length.
Qed.

Lemma find_other_option_none (x : ListOption) (seen : list ListOption) :
  Forall (eq x) seen ->
  find (fun o' => negb (same_option o' x)) seen = None.
Proof.
  induction 1 as [|y seen <- _ IH]; simpl; [reflexivity|].
  destruct x; simpl; exact IH.
Qed.

Lemma find_other_option_some (x o : ListOption) (seen : list ListOption) :
  seen <> [] -> Forall (eq x) seen -> o <> x ->
  find (fun o' => negb (same_option o' o)) seen = Some x.
Proof.
  intros Hne Hall Ho. destruct Hall as [|y seen <- _]; [contradiction|].
  simpl. destruct x, o; simpl; congruence.
Qed.

Lemma take_list_seen (x : ListOption) (opts seen : list ListOption) :
  seen <> [] -> Forall (eq x) seen ->
  match take_actions seen opts
          (setattr (add_defaults list_actions []) "done" (const (action_of x)))
  with
  | inl args =>
      getattr args "done" = Some (const (action_of x)) /\ Forall (eq x) opts
  | inr (o, o') => o' = x /\ o <> x /\ In o opts
  end.
Proof.
  revert seen. induction opts as [|o rest IH]; intros seen Hne Hall.
  - simpl. split; [now destruct x | constructor].
  - cbn [take_actions].
    assert (Hdec : o = x \/ o <> x) by (destruct o, x; auto; right; discriminate).
    destruct Hdec as [->|Ho].
    + rewrite (find_other_option_none x seen Hall).
      assert (E : setattr (setattr (add_defaults list_actions []) "done"
                             (const (action_of x)))
                    (dest (action_of x)) (const (action_of x))
                  = setattr (add_defaults list_actions []) "done" (const (action_of x)))
        by (destruct x; reflexivity).
      rewrite E.
      specialize (IH (x :: seen) ltac:(discriminate) (Forall_cons _ eq_refl Hall)).
      destruct (take_actions (x :: seen) rest _) as [args|[o o']].
      * destruct IH as [Hg Hr]. auto.
      * destruct IH as (-> & Hn & Hin). split; [reflexivity|]. split; [assumption|].
        now right.
    + rewrite (find_other_option_some x o seen Hne Hall Ho).
      split; [reflexivity|]. split; [assumption|]. now left.
Qed.

(** X13, [build_parser] and [list_cmd]: [main] calls [list_cmd] with
    [args.done] set, never unset.  It is [True] when the options are all
    [--done] (at least one) and [False] when they are all [--todo] or
    there is none; with both options [main] exits with code 2 on a usage
    error, the file untouched.  So from the command line [list] never
    shows done and pending tasks together. *)
Theorem list_filter_is_always_set (options : list ListOption) (w : World) :
  match parse_args (CliList options) with
  | inl h =>
      (options <> [] /\ Forall (eq OptDone) options /\ h = HList (Some true)) \/
      (Forall (eq OptTodo) options /\ h = HList (Some false))
  | inr (usage, message) =>
      In OptDone options /\ In OptTodo options /\
      run (main (CliList options)) w = (2, with_err message (with_err usage w)) /\
      file (with_err message (with_err usage w)) = file w
  end.
Proof.
  unfold main. cbn [parse_args]. unfold parse_list_args.
  destruct options as [|x rest].
  - right. split; [constructor | reflexivity].
  - cbn [take_actions find].
    assert (E : setattr (add_defaults list_actions []) (dest (action_of x))
                  (const (action_of x))
                = setattr (add_defaults list_actions []) "done" (const (action_of x)))
      by (destruct x; reflexivity).
    rewrite E.
    pose proof (take_list_seen x rest [x] ltac:(discriminate)
                  (Forall_cons _ eq_refl (Forall_nil _))) as H.
    destruct (take_actions [x] rest _) as [args|[o o']].
    + destruct H as [-> Hr].
      destruct x; [left | right].
      * split; [discriminate|]. split; [now constructor | reflexivity].
      * split; [now constructor | reflexivity].
    + destruct H as (-> & Hn & Hin).
      split; [|split; [|split; reflexivity]];
        destruct x, o; try congruence; simpl; auto.
Qed.
